(** * pixl-xml: a shallow embedding of [src/xml.js] and its specification

    The JavaScript library parses XML text into a tree of nested objects,
    arrays and strings, and composes such a tree back into XML text.  This
    file embeds the entity codec, the regular expressions of the tag
    scanner, the recursive-descent tree builder, the error reporter and the
    serializer, and settles the claims of the specification on them.

    Conventions of the embedding.
    - A JavaScript string is a [string]; the character [ascii] number [n]
      stands for the UTF-16 code unit [n], so the alphabet is the code units
      0..255.  On this alphabet [\s] is the set 9-13, 32, 160; [\w] is
      [A-Za-z0-9_]; [.] excludes 10 and 13.
    - A JavaScript object used as a hash is an association list in insertion
      order with at most one entry per key.  The enumeration order that
      JavaScript gives to integer-like keys is not modelled; the parser
      never depends on it.
    - A [throw] is an outcome of its own: the source has no [try]/[catch].
    - Loops that the source drives with a regular expression cursor take a
      fuel argument; [parse_total] shows that the fuel the entry points
      pass is always enough. *)

From Stdlib Require Import Bool Arith ZArith Lia List.
From Stdlib Require Import Ascii String DecimalString.
Import ListNotations.
Open Scope string_scope.

(** ** Strings and character classes *)

(** The double quote character, code 34, and the one-character string. *)
Definition dquote : ascii := Eval cbv in ascii_of_nat 34.
Definition dq : string := String dquote "".

Definition code (c : ascii) : nat := nat_of_ascii c.

Definition between (lo hi : nat) (c : ascii) : bool :=
  (lo <=? code c)%nat && (code c <=? hi)%nat.

(** [\s] *)
Definition is_space (c : ascii) : bool :=
  between 9 13 c || (code c =? 32)%nat || (code c =? 160)%nat.

(** [\w] *)
Definition is_word (c : ascii) : bool :=
  between 48 57 c || between 65 90 c || between 97 122 c || (code c =? 95)%nat.

(** [[\w\-:.]] *)
Definition is_name_char (c : ascii) : bool :=
  is_word c || Ascii.eqb c "-" || Ascii.eqb c ":" || Ascii.eqb c ".".

(** [[\w\-:]] *)
Definition is_pi_name_char (c : ascii) : bool :=
  is_word c || Ascii.eqb c "-" || Ascii.eqb c ":".

(** A line terminator, which [.] does not match. *)
Definition is_line_terminator (c : ascii) : bool :=
  (code c =? 10)%nat || (code c =? 13)%nat.

(** The longest prefix of [s] whose characters satisfy [p], and the rest:
    a greedy [p*]. *)
Fixpoint span (p : ascii -> bool) (s : string) : string * string :=
  match s with
  | "" => ("", "")
  | String c s' =>
      if p c then let (a, b) := span p s' in (String c a, b) else ("", s)
  end.

Definition skip_spaces (s : string) : string := snd (span is_space s).

Fixpoint forall_chars (p : ascii -> bool) (s : string) : bool :=
  match s with
  | "" => true
  | String c s' => p c && forall_chars p s'
  end.

Fixpoint exists_char (p : ascii -> bool) (s : string) : bool :=
  match s with
  | "" => false
  | String c s' => p c || exists_char p s'
  end.

(** [strip lit s] is the rest of [s] after the literal [lit], if [s] starts
    with it. *)
Fixpoint strip (lit s : string) : option string :=
  match lit with
  | "" => Some s
  | String a lit' =>
      match s with
      | "" => None
      | String b s' => if Ascii.eqb a b then strip lit' s' else None
      end
  end.

Definition starts_with (lit s : string) : bool :=
  match strip lit s with Some _ => true | None => false end.

Fixpoint rev_string (acc s : string) : string :=
  match s with
  | "" => acc
  | String c s' => rev_string (String c acc) s'
  end.

Definition reverse (s : string) : string := rev_string "" s.

Definition ends_with (lit s : string) : bool :=
  starts_with (reverse lit) (reverse s).

Fixpoint drop (n : nat) (s : string) : string :=
  match n, s with
  | O, _ => s
  | S _, "" => ""
  | S k, String _ s' => drop k s'
  end.

Fixpoint take (n : nat) (s : string) : string :=
  match n, s with
  | O, _ => ""
  | S _, "" => ""
  | S k, String c s' => String c (take k s')
  end.

Fixpoint count_char (a : ascii) (s : string) : nat :=
  match s with
  | "" => O
  | String c s' => (if Ascii.eqb c a then 1 else 0) + count_char a s'
  end.

(** [String.prototype.trim], and the two [replace] calls of the other copy
    of the library: white space is removed at both ends. *)
Definition trim (text : string) : string :=
  reverse (skip_spaces (reverse (skip_spaces text))).

(** [s.replace(/pat/g, rep)] for a literal, non-empty pattern: the matches
    are found from left to right and do not overlap.  [skip] counts the
    characters of a match that are still to be passed over. *)
Fixpoint replace_from (pat rep : string) (skip : nat) (s : string) : string :=
  match s with
  | "" => ""
  | String c s' =>
      match skip with
      | S k => replace_from pat rep k s'
      | O =>
          if starts_with pat s
          then rep ++ replace_from pat rep (length pat - 1) s'
          else String c (replace_from pat rep 0 s')
      end
  end.

Definition replace_all (pat rep s : string) : string := replace_from pat rep 0 s.

(** ** Entity codec *)

Definition encodeEntities (text : string) : string :=
  replace_all ">" "&gt;" (replace_all "<" "&lt;" (replace_all "&" "&amp;" text)).

Definition encodeAttribEntities (text : string) : string :=
  replace_all "'" "&apos;"
    (replace_all dq "&quot;"
       (replace_all ">" "&gt;"
          (replace_all "<" "&lt;" (replace_all "&" "&amp;" text)))).

Definition decodeEntities (text : string) : string :=
  if exists_char (Ascii.eqb "&") text
  then replace_all "&amp;" "&"
         (replace_all "&apos;" "'"
            (replace_all "&quot;" dq
               (replace_all "&gt;" ">" (replace_all "&lt;" "<" text))))
  else text.


(** [String.prototype.toLowerCase] on the code units 0..255. *)
Definition lower_char (c : ascii) : ascii :=
  if between 65 90 c || (between 192 222 c && negb (code c =? 215)%nat)
  then ascii_of_nat (code c + 32)
  else c.

Fixpoint toLowerCase (s : string) : string :=
  match s with
  | "" => ""
  | String c s' => String (lower_char c) (toLowerCase s')
  end.

Definition newline : ascii := "010"%char.
Definition tab : ascii := "009"%char.

(** The decimal text of a number, as string concatenation produces it. *)
Definition string_of_Z (z : Z) : string := NilEmpty.string_of_int (Z.to_int z).
Definition string_of_nat (n : nat) : string := NilEmpty.string_of_uint (Nat.to_uint n).

(** ** Nodes and hashes *)

(** A node is a string, a hash from names to nodes, or an array of nodes. *)
#[local] Unset Elimination Schemes.
Inductive node : Type :=
| Text (s : string)
| Element (entries : list (string * node))
| Sequence (items : list node).
#[local] Set Elimination Schemes.

Definition hash : Type := list (string * node).

(** The own property [k] of a hash. *)
Fixpoint get (k : string) (h : hash) : option node :=
  match h with
  | [] => None
  | (k', v) :: h' => if String.eqb k k' then Some v else get k h'
  end.

(** [h[k] = v] on own properties: an existing entry keeps its place, a new
    one goes last. *)
Fixpoint set (k : string) (v : node) (h : hash) : hash :=
  match h with
  | [] => [(k, v)]
  | (k', v') :: h' =>
      if String.eqb k k' then (k', v) :: h' else (k', v') :: set k v h'
  end.

(** [delete h[k]] *)
Fixpoint delete (k : string) (h : hash) : hash :=
  match h with
  | [] => []
  | (k', v) :: h' => if String.eqb k k' then delete k h' else (k', v) :: delete k h'
  end.

Definition keys (h : hash) : list string := map fst h.

Definition numKeys (h : hash) : nat := List.length h.

Definition firstKey (h : hash) : option string :=
  match h with
  | [] => None
  | (k, _) :: _ => Some k
  end.

(** [hashKeysToArray(hash)]: the keys in the order of the list, which is
    the order in which they were set.  An object enumerates the keys that
    are array indices, such as [9] and [10], before its other keys and in
    the order of the numbers; the list does not tell them apart, so the
    order of the keys is that of the object for hashes without such
    keys. *)
Definition hashKeysToArray (h : hash) : list string := keys h.

(** The names that every object inherits from [Object.prototype].  Reading
    one of them on a hash that has no own property of that name gives a
    function (or, for [__proto__], the prototype itself), which is no
    [node]. *)
Definition object_prototype_keys : list string :=
  [ "constructor"; "__defineGetter__"; "__defineSetter__"; "hasOwnProperty";
    "__lookupGetter__"; "__lookupSetter__"; "isPrototypeOf";
    "propertyIsEnumerable"; "toString"; "valueOf"; "__proto__";
    "toLocaleString" ].

Definition inherited (k : string) : bool :=
  existsb (String.eqb k) object_prototype_keys.

(** The result of the expression [h[k]]. *)
Inductive property : Type :=
| Own (v : node)
| Undefined
| Inherited.

Definition read (k : string) (h : hash) : property :=
  match get k h with
  | Some v => Own v
  | None => if inherited k then Inherited else Undefined
  end.

(** [h[k] = v] for an object [v]: assigning to [__proto__] replaces the
    prototype instead of creating a property, which is outside the model. *)
Definition write (k : string) (v : node) (h : hash) : option hash :=
  if String.eqb k "__proto__" then None else Some (set k v h).

(** A string is falsy when it is empty; hashes and arrays are truthy. *)
Definition truthy (v : node) : bool :=
  match v with
  | Text "" => false
  | _ => true
  end.

Definition join (sep : string) (l : list string) : string := String.concat sep l.

Fixpoint sequence_options {A : Type} (l : list (option A)) : option (list A) :=
  match l with
  | [] => Some []
  | None :: _ => None
  | Some a :: l' =>
      match sequence_options l' with
      | Some r => Some (a :: r)
      | None => None
      end
  end.

(** The string that concatenation makes of a node: a string is itself, an
    array is the comma-joined strings of its items, a hash is
    [[object Object]].  An own [valueOf] entry of a hash is no function
    and is passed over, and the inherited [toString] gives the string; a
    hash with an own [toString] entry has no string: both are passed over
    and a [TypeError] is thrown, which is outside the model. *)
Fixpoint to_primitive (v : node) : option string :=
  match v with
  | Text s => Some s
  | Element h =>
      if existsb (fun k => String.eqb k "toString") (keys h)
      then None
      else Some "[object Object]"
  | Sequence l =>
      match sequence_options (map to_primitive l) with
      | Some parts => Some (join "," parts)
      | None => None
      end
  end.

(** ** The regular expressions of the parser *)

(** The text before the first [a] in [s], and the text after it. *)
Fixpoint split_at (a : ascii) (s : string) : option (string * string) :=
  match s with
  | "" => None
  | String c s' =>
      if Ascii.eqb c a then Some ("", s')
      else match split_at a s' with
           | Some (x, y) => Some (String c x, y)
           | None => None
           end
  end.

(** [patTag = /([^<]*?)<([^>]+)>/g]: a match that starts at the first
    character of [s], as (text before the tag, tag, rest of [s]). *)
Definition patTag_at (s : string) : option (string * string * string) :=
  match split_at "<" s with
  | Some (before, s1) =>
      match split_at ">" s1 with
      | Some ("", _) => None
      | Some (tag, rest) => Some (before, tag, rest)
      | None => None
      end
  | None => None
  end.

(** The leftmost match: the start positions are tried from left to right. *)
Fixpoint patTag_from (s : string) : option (string * string * string) :=
  match patTag_at s with
  | Some m => Some m
  | None =>
      match s with
      | "" => None
      | String _ s' => patTag_from s'
      end
  end.

(** [patTag.exec(text)] with [patTag.lastIndex = lastIndex]: the text
    before the tag, the tag, and the new [lastIndex]. *)
Definition patTag_exec (text : string) (lastIndex : nat) : option (string * string * nat) :=
  match patTag_from (drop lastIndex text) with
  | Some (before, tag, rest) => Some (before, tag, length text - length rest)
  | None => None
  end.

(** [patNextClose = /([^>]*?)>/g]: the first groups of the successive
    matches in [s], which are the pieces of [s] that end at a [>]. *)
Fixpoint patNextClose_all (s : string) : list string :=
  match s with
  | "" => []
  | String c s' =>
      if Ascii.eqb c ">" then "" :: patNextClose_all s'
      else match patNextClose_all s' with
           | seg :: segs => String c seg :: segs
           | [] => []
           end
  end.

(** [/\S/] *)
Definition patNonSpace (s : string) : bool :=
  exists_char (fun c => negb (is_space c)) s.

(** [patSpecialTag = /^\s*([!?])/] *)
Definition patSpecialTag (tag : string) : bool :=
  match skip_spaces tag with
  | String c _ => Ascii.eqb c "!" || Ascii.eqb c "?"
  | "" => false
  end.

(** [patPITag = /^\s*\?/] *)
Definition patPITag (tag : string) : bool := starts_with "?" (skip_spaces tag).

(** [patCommentTag = /^\s*!--/] *)
Definition patCommentTag (tag : string) : bool := starts_with "!--" (skip_spaces tag).

(** [patDTDTag = /^\s*!DOCTYPE/] *)
Definition patDTDTag (tag : string) : bool := starts_with "!DOCTYPE" (skip_spaces tag).

Definition and_then {A B : Type} (o : option A) (f : A -> option B) : option B :=
  match o with
  | Some a => f a
  | None => None
  end.

Notation "x <~ o ;; k" := (and_then o (fun x => k))
  (at level 61, o at next level, right associativity).

Definition is_some {A : Type} (o : option A) : bool :=
  match o with Some _ => true | None => false end.

(** The rest of the tag after [^\s*!\s*\[\s*CDATA]. *)
Definition cdata_open (tag : string) : option string :=
  s1 <~ strip "!" (skip_spaces tag) ;;
  s2 <~ strip "[" (skip_spaces s1) ;;
  strip "CDATA" (skip_spaces s2).

(** [patCDATATag = /^\s*!\s*\[\s*CDATA/] *)
Definition patCDATATag (tag : string) : bool := is_some (cdata_open tag).

(** [patStandardTag = /^\s*(\/?)([\w\-:.]+)\s*([\s\S]* )$/]: whether the
    slash is there, the name, and the text after the name. *)
Definition patStandardTag (tag : string) : option (bool * string * string) :=
  let s0 := skip_spaces tag in
  let (closing, s1) :=
    match s0 with
    | String "/" r => (true, r)
    | _ => (false, s0)
    end in
  let (name, s2) := span is_name_char s1 in
  if String.eqb name "" then None else Some (closing, name, skip_spaces s2).

(** [patSelfClosing = /\/\s*$/] *)
Definition patSelfClosing (attribsRaw : string) : bool :=
  starts_with "/" (skip_spaces (reverse attribsRaw)).

(** The value of an attribute, [([^\2]*?)\2]: the text up to the next
    quote [q], which may not hold the character of code 2. *)
Fixpoint value_until (q : ascii) (s : string) : option (string * string) :=
  match s with
  | "" => None
  | String c s' =>
      if Ascii.eqb c q then Some ("", s')
      else if (code c =? 2)%nat then None
      else match value_until q s' with
           | Some (v, rest) => Some (String c v, rest)
           | None => None
           end
  end.

Definition is_quote (c : ascii) : bool := Ascii.eqb c dquote || Ascii.eqb c "'".

(** [patAttrib], the pattern [([\w\-:.]+)\s*=\s*(Q)([^\2]*?)\2] with
    the flag g, where Q is a single or a double quote: a match that starts
    at the first character of [s], as (name, value, rest of [s]). *)
Definition patAttrib_at (s : string) : option (string * string * string) :=
  let (key, s1) := span is_name_char s in
  if String.eqb key "" then None
  else
    s2 <~ strip "=" (skip_spaces s1) ;;
    match skip_spaces s2 with
    | String q s3 =>
        if is_quote q
        then match value_until q s3 with
             | Some (v, rest) => Some (key, v, rest)
             | None => None
             end
        else None
    | "" => None
    end.

(** The successive matches of [patAttrib] in [s], from [lastIndex = 0]:
    every start position is tried in turn, and after a match the search goes
    on behind it.  [skip] counts the characters of the last match that are
    still to be passed over. *)
Fixpoint patAttrib_all (skip : nat) (s : string) : list (string * string) :=
  match s with
  | "" => []
  | String _ s' =>
      match skip with
      | S k => patAttrib_all k s'
      | O =>
          match patAttrib_at s with
          | Some (key, v, rest) =>
              (key, v) :: patAttrib_all (length s - length rest - 1) s'
          | None => patAttrib_all 0 s'
          end
      end
  end.

(** [patPINode = /^\s*\?\s*([\w\-:]+)\s*(.* )$/] *)
Definition patPINode (tag : string) : bool :=
  match strip "?" (skip_spaces tag) with
  | Some s1 =>
      let (name, s2) := span is_pi_name_char (skip_spaces s1) in
      negb (String.eqb name "")
      && negb (exists_char is_line_terminator (skip_spaces s2))
  | None => false
  end.

(** [patEndComment = /--$/], [patEndDTD = /]$/], [patEndCDATA = /]]$/] *)
Definition patEndComment : string -> bool := ends_with "--".
Definition patEndDTD : string -> bool := ends_with "]".
Definition patEndCDATA : string -> bool := ends_with "]]".

(** [\s+] *)
Definition spaces1 (s : string) : option string :=
  match span is_space s with
  | ("", _) => None
  | (_, rest) => Some rest
  end.

(** [[\w\-:]+] *)
Definition pi_name1 (s : string) : option string :=
  match span is_pi_name_char s with
  | ("", _) => None
  | (_, rest) => Some rest
  end.

(** The rest of the tag after [^\s*!DOCTYPE\s+([\w\-:]+)\s+]. *)
Definition doctype_open (tag : string) : option string :=
  s1 <~ strip "!DOCTYPE" (skip_spaces tag) ;;
  s2 <~ spaces1 s1 ;;
  s3 <~ pi_name1 s2 ;;
  spaces1 s3.

(** [patExternalDTDNode], the pattern
    [^\s*!DOCTYPE\s+([\w\-:]+)\s+(SYSTEM|PUBLIC)\s+Q([^Q]+)Q] where Q is
    the double quote. *)
Definition patExternalDTDNode (tag : string) : bool :=
  is_some
    (s4 <~ doctype_open tag ;;
     s5 <~ match strip "SYSTEM" s4 with
            | Some r => Some r
            | None => strip "PUBLIC" s4
            end ;;
     s6 <~ spaces1 s5 ;;
     s7 <~ strip dq s6 ;;
     match span (fun c => negb (Ascii.eqb c dquote)) s7 with
     | ("", _) => None
     | (_, s8) => strip dq s8
     end).

(** [patInlineDTDNode = /^\s*!DOCTYPE\s+([\w\-:]+)\s+\[/] *)
Definition patInlineDTDNode (tag : string) : bool :=
  is_some (s4 <~ doctype_open tag ;; strip "[" s4).

(** [patDTDNode = /^\s*!DOCTYPE\s+([\w\-:]+)\s+\[(.* )]/]: a closing
    bracket stands on the line of the opening one. *)
Definition patDTDNode (tag : string) : bool :=
  match (s4 <~ doctype_open tag ;; strip "[" s4) with
  | Some s5 =>
      exists_char (Ascii.eqb "]") (fst (span (fun c => negb (is_line_terminator c)) s5))
  | None => false
  end.

(** The text of [s] before the last occurrence of [lit]: a greedy
    [([^]* )] followed by [lit]. *)
Fixpoint before_last (lit s : string) : option string :=
  match s with
  | "" => None
  | String c s' =>
      match before_last lit s' with
      | Some r => Some (String c r)
      | None => if starts_with lit s then Some "" else None
      end
  end.

(** [patCDATANode = /^\s*!\s*\[\s*CDATA\s*\[([^]* )]]/]: the first group. *)
Definition patCDATANode (tag : string) : option string :=
  s3 <~ cdata_open tag ;;
  s4 <~ strip "[" (skip_spaces s3) ;;
  before_last "]]" s4.

(** [re_valid_tag_name = /^\w[\w\-:.]*$/] *)
Definition re_valid_tag_name (key : string) : bool :=
  match key with
  | String c rest => is_word c && forall_chars is_name_char rest
  | "" => false
  end.

(** ** The parser object *)

(** The two copies of the library in the repository.  They differ in one
    step of the tree builder: [Part000] turns a leaf without any key into
    the empty string, [XmlJs] keeps the empty hash. *)
Inductive copy : Type :=
| XmlJs
| Part000.

Record options : Type := {
  preserveDocumentNode : bool;
  preserveAttributes : bool;
  preserveWhitespace : bool;
  lowerCase : bool;
  forceArrays : bool;
  attribsKey : string;
  dataKey : string
}.

(** The values that the prototype of the class gives to the options. *)
Definition default_options : options := {|
  preserveDocumentNode := false;
  preserveAttributes := false;
  preserveWhitespace := false;
  lowerCase := false;
  forceArrays := false;
  attribsKey := "_Attribs";
  dataKey := "_Data"
|}.

(** An entry of [errors]: [{type, key, text, line}]. *)
Record error : Type := {
  e_type : string;
  e_key : string;
  e_text : string;
  e_line : Z
}.

(** The fields of a parser.  [lastIndex] is [patTag.lastIndex].  [tree] is
    written when the top-level call of [parse] finishes; until then the
    hash under construction is passed along as [branch]. *)
Record parser : Type := {
  text : string;
  opts : options;
  tree : node;
  errors : list error;
  piNodeList : list string;
  dtdNodeList : list string;
  documentNodeName : option string;
  lastIndex : nat
}.

(** How a call ends: it returns, it throws an [Error] with a message, it
    leaves the modelled part of JavaScript (a property inherited from
    [Object.prototype], a [TypeError]), or the fuel is used up. *)
Inductive outcome (A : Type) : Type :=
| Done (a : A) (st : parser)
| Thrown (message : string) (st : parser)
| Unmodelled
| OutOfFuel.

Arguments Done {A} a st.
Arguments Thrown {A} message st.
Arguments Unmodelled {A}.
Arguments OutOfFuel {A}.

Definition M (A : Type) : Type := parser -> outcome A.

Definition ret {A : Type} (a : A) : M A := fun st => Done a st.

Definition bind {A B : Type} (m : M A) (f : A -> M B) : M B :=
  fun st =>
    match m st with
    | Done a st' => f a st'
    | Thrown msg st' => Thrown msg st'
    | Unmodelled => Unmodelled
    | OutOfFuel => OutOfFuel
    end.

Notation "x <- m ;; k" := (bind m (fun x => k))
  (at level 61, m at next level, right associativity).
Notation "m ;;; k" := (bind m (fun _ => k))
  (at level 61, right associativity).

Definition this : M parser := fun st => Done st st.

Definition unmodelled {A : Type} : M A := fun _ => Unmodelled.

Definition set_lastIndex (n : nat) : M unit := fun st =>
  Done tt {| text := text st; opts := opts st; tree := tree st;
             errors := errors st; piNodeList := piNodeList st;
             dtdNodeList := dtdNodeList st;
             documentNodeName := documentNodeName st; lastIndex := n |}.

Definition push_error (e : error) : M unit := fun st =>
  Done tt {| text := text st; opts := opts st; tree := tree st;
             errors := errors st ++ [e]; piNodeList := piNodeList st;
             dtdNodeList := dtdNodeList st;
             documentNodeName := documentNodeName st; lastIndex := lastIndex st |}.

Definition push_pi (tag : string) : M unit := fun st =>
  Done tt {| text := text st; opts := opts st; tree := tree st;
             errors := errors st; piNodeList := piNodeList st ++ [tag];
             dtdNodeList := dtdNodeList st;
             documentNodeName := documentNodeName st; lastIndex := lastIndex st |}.

Definition push_dtd (tag : string) : M unit := fun st =>
  Done tt {| text := text st; opts := opts st; tree := tree st;
             errors := errors st; piNodeList := piNodeList st;
             dtdNodeList := dtdNodeList st ++ [tag];
             documentNodeName := documentNodeName st; lastIndex := lastIndex st |}.

Definition set_document (name : option string) (t : node) : M unit := fun st =>
  Done tt {| text := text st; opts := opts st; tree := t;
             errors := errors st; piNodeList := piNodeList st;
             dtdNodeList := dtdNodeList st;
             documentNodeName := name; lastIndex := lastIndex st |}.

Module XML.

(** [getError(error)]; no error of the parser has a [code]. *)
Definition getError (e : option error) : string :=
  match e with
  | None => ""
  | Some e =>
      ((if String.eqb (e_type e) "" then "General" else e_type e) ++ " Error")
      ++ (": " ++ e_key e)
      ++ (if (e_line e =? 0)%Z then "" else " on line " ++ string_of_Z (e_line e))
      ++ (if String.eqb (e_text e) "" then "" else ": " ++ e_text e)
  end.

(** [error()] *)
Definition error (st : parser) : nat := List.length (errors st).

(** [getLastError()] *)
Definition getLastError (st : parser) : string :=
  if (error st =? 0)%nat then ""
  else getError (nth_error (errors st) (List.length (errors st) - 1)).

(** [throwParseError(key, tag)]: the error is recorded with the line of the
    tag, then thrown. *)
Definition throwParseError {A : Type} (key tag : string) : M A :=
  st <- this ;;
  let parsedSource := take (lastIndex st) (text st) in
  let lineNum :=
    (Z.of_nat (count_char newline parsedSource) + 1
     - Z.of_nat (count_char newline tag))%Z in
  push_error {| e_type := "Parse"; e_key := key;
                e_text := "<" ++ tag ++ ">"; e_line := lineNum |} ;;;
  fun st' => Thrown (getLastError st') st'.

(** [parsePINode(tag)] *)
Definition parsePINode (tag : string) : M string :=
  if negb (patPINode tag)
  then throwParseError "Malformed processor instruction" tag
  else push_pi tag ;;; ret tag.

(** The loop of the three scanners for comments, inline DTDs and CDATA:
    while the tag does not end as [closed] asks, the next match of
    [patNextClose] is appended behind a [>].  [segs] are the matches that
    are left from [index = patNextClose.lastIndex] on.  The result is the
    tag as far as it was read, with the index behind it when it is closed
    and with nothing when the matches ran out first. *)
Fixpoint swallow (closed : string -> bool) (tag : string) (index : nat)
    (segs : list string) {struct segs} : string * option nat :=
  if closed tag then (tag, Some index)
  else
    match segs with
    | seg :: segs' =>
        swallow closed (tag ++ ">" ++ seg) (index + length seg + 1) segs'
    | [] => (tag, None)
    end.

Definition next_close (closed : string -> bool) (tag : string) (st : parser)
    : string * option nat :=
  swallow closed tag (lastIndex st)
    (patNextClose_all (drop (lastIndex st) (text st))).

(** [parseCommentNode(tag)] *)
Definition parseCommentNode (tag : string) : M string :=
  st <- this ;;
  match next_close patEndComment tag st with
  | (tag, Some index) => set_lastIndex index ;;; ret tag
  | (tag, None) => throwParseError "Unclosed comment tag" tag
  end.

(** [parseDTDNode(tag)] *)
Definition parseDTDNode (tag : string) : M string :=
  if patExternalDTDNode tag then push_dtd tag ;;; ret tag
  else if patInlineDTDNode tag then
    st <- this ;;
    match next_close patEndDTD tag st with
    | (tag, Some index) =>
        set_lastIndex index ;;;
        if patDTDNode tag then push_dtd tag ;;; ret tag
        else throwParseError "Malformed DTD tag" tag
    | (tag, None) => throwParseError "Unclosed DTD tag" tag
    end
  else throwParseError "Malformed DTD tag" tag.

(** [parseCDATANode(tag)] *)
Definition parseCDATANode (tag : string) : M string :=
  st <- this ;;
  match next_close patEndCDATA tag st with
  | (tag, Some index) =>
      set_lastIndex index ;;;
      match patCDATANode tag with
      | Some payload => ret payload
      | None => throwParseError "Malformed CDATA tag" tag
      end
  | (tag, None) => throwParseError "Unclosed CDATA tag" tag
  end.

(** The text that goes into the data entry of [branch]: behind a space if
    the entry is there, else as the new entry.
    [[
      if (branch[this.dataKey] !== undefined) branch[this.dataKey] += ' ';
      else branch[this.dataKey] = '';
      branch[this.dataKey] += !this.preserveWhitespace
          ? trim(decodeEntities(s)) : decodeEntities(s);
    ]] *)
Definition add_data (s : string) (branch : hash) : M hash :=
  st <- this ;;
  let o := opts st in
  let value :=
    if negb (preserveWhitespace o) then trim (decodeEntities s)
    else decodeEntities s in
  match read (dataKey o) branch with
  | Own v =>
      match to_primitive v with
      | Some old => ret (set (dataKey o) (Text ((old ++ " ") ++ value)) branch)
      | None => unmodelled
      end
  | Undefined => ret (set (dataKey o) (Text ("" ++ value)) branch)
  | Inherited => unmodelled
  end.

(** The attributes of a tag, written into [attribs] one match after the
    other.  The values are strings, and a string assigned to [__proto__]
    is dropped. *)
Definition add_attribs (o : options) (attribsRaw : string) (attribs : hash) : hash :=
  fold_left
    (fun attribs m =>
       let key := if lowerCase o then toLowerCase (fst m) else fst m in
       if String.eqb key "__proto__" then attribs
       else set key (Text (decodeEntities (snd m))) attribs)
    (patAttrib_all 0 attribsRaw) attribs.

(** The leaf of a new tag with its attributes.
    [[
      let leaf = {}; let attribs = leaf;
      if (this.preserveAttributes) {
          leaf[this.attribsKey] = {}; attribs = leaf[this.attribsKey]; }
      ... attribs[key] = decodeEntities(matches[3]); ...
      if (this.preserveAttributes && !numKeys(attribs))
          delete leaf[this.attribsKey];
    ]] *)
Definition new_leaf (attribsRaw : string) : M hash :=
  st <- this ;;
  let o := opts st in
  if preserveAttributes o then
    match write (attribsKey o) (Element []) [] with
    | Some leaf =>
        let attribs := add_attribs o attribsRaw [] in
        if (numKeys attribs =? 0)%nat then ret (delete (attribsKey o) leaf)
        else ret (set (attribsKey o) (Element attribs) leaf)
    | None => unmodelled
    end
  else ret (add_attribs o attribsRaw []).

(** A leaf that holds nothing but data becomes that data.
    [[
      const num_leaf_keys = numKeys(leaf);
      if (leaf[this.dataKey] !== undefined && num_leaf_keys === 1)
          leaf = leaf[this.dataKey];
      else if (!num_leaf_keys) leaf = '';      // only in the other copy
    ]] *)
Definition compress (c : copy) (leaf : hash) : M node :=
  st <- this ;;
  let num_leaf_keys := numKeys leaf in
  let data := read (dataKey (opts st)) leaf in
  if match data with Undefined => false | _ => true end
     && (num_leaf_keys =? 1)%nat
  then match data with
       | Own v => ret v
       | _ => unmodelled
       end
  else
    match c with
    | Part000 => if (num_leaf_keys =? 0)%nat then ret (Text "") else ret (Element leaf)
    | XmlJs => ret (Element leaf)
    end.

(** The leaf goes into its parent.
    [[
      if (branch[nodeName] !== undefined) {
          if (Array.isArray(branch[nodeName])) branch[nodeName].push(leaf);
          else { const temp = branch[nodeName]; branch[nodeName] = [temp, leaf]; }
      } else if (this.forceArrays && (branch !== this.tree))
          branch[nodeName] = [leaf];
      else branch[nodeName] = leaf;
    ]]
    A name that the hash inherits and does not own is outside the model:
    the code finds the inherited value there and puts it into an array
    with the leaf, and for [__proto__] the assignment replaces the
    prototype of the hash. *)
Definition attach (top : bool) (nodeName : string) (leaf : node) (branch : hash)
    : M hash :=
  st <- this ;;
  match read nodeName branch with
  | Own (Sequence items) => ret (set nodeName (Sequence (items ++ [leaf])) branch)
  | Own temp => ret (set nodeName (Sequence [temp; leaf]) branch)
  | Undefined =>
      if forceArrays (opts st) && negb top
      then ret (set nodeName (Sequence [leaf]) branch)
      else ret (set nodeName leaf branch)
  | Inherited => unmodelled
  end.

(** [name || ''] and the text of [name] in a message. *)
Definition name_or_empty (name : option string) : string :=
  match name with Some n => n | None => "" end.

Definition name_text (name : option string) : string :=
  match name with Some n => n | None => "null" end.

(** What [parse(branch, name)] does after its loop.  [top] says that
    [branch] is [this.tree]. *)
Definition parse_finish (top : bool) (name : option string)
    (r : hash * bool) : M hash :=
  let (branch, foundClosing) := r in
  (if negb (String.eqb (name_or_empty name) "") && negb foundClosing
   then throwParseError
          ("Missing closing tag (expected </" ++ name_text name ++ ">)")
          (name_or_empty name)
   else ret tt) ;;;
  if top then
    st <- this ;;
    let o := opts st in
    let tree := delete (dataKey o) branch in
    if (1 <? numKeys tree)%nat then
      match firstKey tree with
      | Some k => throwParseError "Only one top-level node is allowed in document" k
      | None => unmodelled
      end
    else
      match firstKey tree with
      | Some k =>
          if negb (String.eqb k "") && negb (preserveDocumentNode o) then
            match get k tree with
            | Some v => set_document (Some k) v ;;; ret tree
            | None => unmodelled
            end
          else set_document (Some k) (Element tree) ;;; ret tree
      | None => set_document None (Element tree) ;;; ret tree
      end
  else ret branch.

(** One round of the [while] loop of [parse(branch, name)], from the call
    of [patTag.exec] on.  The result is the hash at the end of the loop and
    [foundClosing].  [child nodeName leaf] stands for the nested call
    [this.parse(leaf, nodeName)] and [next branch] for the rounds that
    follow. *)
Definition loop_body (c : copy)
    (child : string -> hash -> M hash) (next : hash -> M (hash * bool))
    (top : bool) (name : option string) (branch : hash) : M (hash * bool) :=
  st <- this ;;
  match patTag_exec (text st) (lastIndex st) with
  | None => set_lastIndex 0 ;;; ret (branch, false)
  | Some (before, tag, index) =>
      set_lastIndex index ;;;
      branch <- (if patNonSpace before then add_data before branch
                 else ret branch) ;;
      if patSpecialTag tag then
        if patPITag tag then
          parsePINode tag ;;; next branch
        else if patCommentTag tag then
          parseCommentNode tag ;;; next branch
        else if patDTDTag tag then
          parseDTDNode tag ;;; next branch
        else if patCDATATag tag then
          payload <- parseCDATANode tag ;;
          branch <- add_data payload branch ;;
          next branch
        else throwParseError "Malformed special tag" tag
      else
        match patStandardTag tag with
        | None => throwParseError "Malformed tag" tag
        | Some (closing, matches2, attribsRaw) =>
            let nodeName :=
              if lowerCase (opts st) then toLowerCase matches2 else matches2 in
            if closing then
              if String.eqb nodeName (name_or_empty name)
              then ret (branch, true)
              else throwParseError
                     ("Mismatched closing tag (expected </"
                      ++ name_text name ++ ">)") tag
            else
              let selfClosing := patSelfClosing attribsRaw in
              leaf <- new_leaf attribsRaw ;;
              leaf <- (if negb selfClosing then child nodeName leaf
                       else ret leaf) ;;
              st1 <- this ;;
              if negb selfClosing && negb (error st1 =? 0)%nat
              then ret (branch, false)
              else
                leaf <- compress c leaf ;;
                branch <- attach top nodeName leaf branch ;;
                st2 <- this ;;
                if negb (error st2 =? 0)%nat || top
                then ret (branch, false)
                else next branch
        end
  end.

(** The loop of [parse(branch, name)].  Each round and each nested call
    takes one unit of fuel. *)
Fixpoint parse_loop (c : copy) (fuel : nat) (top : bool) (name : option string)
    (branch : hash) {struct fuel} : M (hash * bool) :=
  match fuel with
  | O => fun _ => OutOfFuel
  | S fuel =>
      loop_body c
        (fun nodeName leaf =>
           r <- parse_loop c fuel false (Some nodeName) leaf ;;
           parse_finish false (Some nodeName) r)
        (fun branch => parse_loop c fuel top name branch)
        top name branch
  end.

(** [parse(branch, name)] *)
Definition parse (c : copy) (fuel : nat) (top : bool) (name : option string)
    (branch : hash) : M hash :=
  r <- parse_loop c fuel top name branch ;;
  parse_finish top name r.

(** [new XML(args)] for the hash [args] that the entry point passes: the
    text and the options.  The first call of [parse] gets the empty
    [this.tree] as its branch and no name. *)
Definition create (c : copy) (txt : string) (o : options) : outcome unit :=
  let o' :=
    if lowerCase o then
      {| preserveDocumentNode := preserveDocumentNode o;
         preserveAttributes := preserveAttributes o;
         preserveWhitespace := preserveWhitespace o;
         lowerCase := lowerCase o;
         forceArrays := forceArrays o;
         attribsKey := toLowerCase (attribsKey o);
         dataKey := toLowerCase (dataKey o) |}
    else o in
  let st := {| text := txt; opts := o'; tree := Element []; errors := [];
               piNodeList := []; dtdNodeList := [];
               documentNodeName := Some ""; lastIndex := 0 |} in
  if String.eqb txt "" then Done tt st
  else (parse c (S (length txt)) true None [] ;;; ret tt) st.

(** [getTree()] *)
Definition getTree (st : parser) : node := tree st.

End XML.

(** [parse(text, opts)], the entry point: the tree, or the text of the
    last error when the parser has recorded one. *)
Definition parse (c : copy) (txt : string) (o : options) : outcome node :=
  match XML.create c txt o with
  | Done _ parser =>
      Done (if negb (XML.error parser =? 0)%nat
            then Text (XML.getLastError parser)
            else XML.getTree parser) parser
  | Thrown msg st => Thrown msg st
  | Unmodelled => Unmodelled
  | OutOfFuel => OutOfFuel
  end.

(** ** The serializer *)

Definition xml_header : string :=
  Eval cbv in "<?xml version=" ++ dq ++ "1.0" ++ dq ++ "?>".

(** [n] copies of [s]: the indent text. *)
Fixpoint repeat_string (s : string) (n : nat) : string :=
  match n with
  | O => ""
  | S k => s ++ repeat_string s k
  end.

(** [Array.prototype.sort] on strings: ascending in the order of the code
    units. *)
Fixpoint insert_key (k : string) (l : list string) : list string :=
  match l with
  | [] => [k]
  | x :: l' => if String.leb k x then k :: l else x :: insert_key k l'
  end.

Definition sort_keys (l : list string) : list string := fold_right insert_key [] l.

(** The own enumerable properties of a node: the entries of a hash, the
    items of an array and the characters of a string under their indices. *)
Definition indexed (l : list node) : hash :=
  combine (map string_of_nat (seq 0 (List.length l))) l.

Definition own_entries (v : node) : hash :=
  match v with
  | Element h => h
  | Sequence l => indexed l
  | Text s => indexed (map (fun c => Text (String c "")) (list_ascii_of_string s))
  end.

(** [encodeEntities(v)] and [encodeAttribEntities(v)] inside a string
    concatenation, for a node [v]: a string is encoded; a hash or an array
    has no [replace] function and is made a string by the concatenation.  A
    hash with a truthy own [replace] entry is outside the model: the codec
    would call the entry. *)
Definition encode_node (enc : string -> string) (v : node) : option string :=
  match v with
  | Text s => Some (enc s)
  | Element h =>
      match get "replace" h with
      | Some r => if truthy r then None else to_primitive v
      | None => to_primitive v
      end
  | Sequence _ => to_primitive v
  end.

(** The attributes of an opening tag, from the value of [_Attribs]. *)
Definition stringify_attribs (sort : bool) (a : node) : option string :=
  let entries := own_entries a in
  let sorted_keys :=
    if sort then sort_keys (hashKeysToArray entries) else hashKeysToArray entries in
  parts <~ sequence_options
    (map (fun key =>
            v <~ get key entries ;;
            s <~ encode_node encodeAttribEntities v ;;
            Some (" " ++ key ++ "=" ++ dq ++ s ++ dq))
         sorted_keys) ;;
  Some (String.concat "" parts).

(** [stringify(node, name, indent, indent_string, eol, sort)] for a name
    that is given.  The call without a name at indent 0, which takes the
    first key of the node as the name, is not modelled.  The children of a
    hash are composed in the order of [sorted_keys]; [composed] holds the
    text of each entry under its key. *)
Fixpoint stringify (n : node) (name : string) (indent : nat)
    (indent_string eol : string) (sort : bool) {struct n} : option string :=
  if (indent =? 0)%nat && String.eqb name "" then None
  else
    let xml := if (indent =? 0)%nat then xml_header ++ eol else "" in
    let indent_text := repeat_string indent_string indent in
    match n with
    | Element h =>
        let num_keys := numKeys h in
        let has_attribs := match get "_Attribs" h with Some _ => 1 | None => 0 end in
        attribs <~ match get "_Attribs" h with
                   | Some a => stringify_attribs sort a
                   | None => Some ""
                   end ;;
        let open := xml ++ indent_text ++ "<" ++ name ++ attribs in
        if (has_attribs <? num_keys)%nat then
          if match get "_Data" h with Some d => truthy d | None => false end then
            data <~ (d <~ get "_Data" h ;; encode_node encodeEntities d) ;;
            Some (open ++ ">" ++ data ++ "</" ++ name ++ ">" ++ eol)
          else
            let composed :=
              map (fun kv => let (key, child) := kv : string * node in
                             (key, stringify child key (indent + 1)
                                     indent_string eol sort)) h in
            let sorted_keys :=
              if sort then sort_keys (hashKeysToArray h) else hashKeysToArray h in
            children <~ sequence_options
              (map (fun key =>
                      match find (fun kv => String.eqb key (fst kv)) composed with
                      | Some (_, xml) => xml
                      | None => None
                      end)
                 (filter (fun key => negb (String.eqb key "_Attribs")
                                     && re_valid_tag_name key)
                    sorted_keys)) ;;
            Some (open ++ ">" ++ eol ++ String.concat "" children
                  ++ indent_text ++ "</" ++ name ++ ">" ++ eol)
        else Some (open ++ "/>" ++ eol)
    | Sequence items =>
        parts <~ sequence_options
          (map (fun item => stringify item name indent indent_string eol sort)
               items) ;;
        Some (xml ++ String.concat "" parts)
    | Text s =>
        Some (xml ++ indent_text ++ "<" ++ name ++ ">" ++ encodeEntities s
              ++ "</" ++ name ++ ">" ++ eol)
    end.

(** ** The document wrapper *)

(** The rest of [s] behind the first [?>] that stands behind characters
    that are no line terminators: the lazy [.+?] of the pattern below has
    taken one character already. *)
Fixpoint after_declaration (s : string) : option string :=
  match s with
  | "" => None
  | String c s' =>
      match strip "?>" s with
      | Some rest => Some rest
      | None => if is_line_terminator c then None else after_declaration s'
      end
  end.

(** [raw.replace(/^\s*<\?.+?\?>\s*/, '')]: the text without its leading
    processing instruction and the white space around it; the text itself
    when the pattern does not match. *)
Definition strip_declaration (raw : string) : string :=
  match strip "<?" (skip_spaces raw) with
  | Some (String c s) =>
      if is_line_terminator c then raw
      else match after_declaration s with
           | Some rest => skip_spaces rest
           | None => raw
           end
  | _ => raw
  end.

(** [stringify(node, name, 0, indent_string, eol)] as [compose] calls it,
    for the value [node] of an expression [h[k]] and the name of the
    document node, which is [null] or the empty string when the document
    has no node.  An undefined node under a name is written like the empty
    string.  Without a name the serializer takes the first key of the node
    as the name: of the empty hash this is [null], and the text is that of
    an undefined node under the name [null]; other nodes without a name
    are not modelled.
    [[
      if (!name) { name = firstKey(node); node = node[name]; }
      ...
      xml += indent_text + "<" + name + ">" + encodeEntities(node)
             + "</" + name + ">" + eol;
    ]] *)
Definition stringify_document (node : property) (name : option string)
    (indent_string eol : string) : option string :=
  match name with
  | Some (String c n) =>
      match node with
      | Own v => stringify v (String c n) 0 indent_string eol true
      | Undefined => stringify (Text "") (String c n) 0 indent_string eol true
      | Inherited => None
      end
  | _ =>
      match node with
      | Own (Element []) => Some (xml_header ++ eol ++ "<null></null>" ++ eol)
      | _ => None
      end
  end.

(** [compose(indent_string, eol)]: the tree of the parser as text, with the
    processing instructions and the document types that the parser has
    recorded in the place of the declaration of the serializer.
    [[
      let tree = this.tree;
      if (this.preserveDocumentNode) tree = tree[this.documentNodeName];
      const raw = stringify(tree, this.documentNodeName, 0, indent_string, eol);
      const body = raw.replace(/^\s*<\?.+?\?>\s*/, '');
      let xml = '';
      if (this.piNodeList.length > 0)
          for (...) xml += '<' + this.piNodeList[idx] + '>' + eol;
      else xml += xml_header + eol;
      if (this.dtdNodeList.length > 0)
          for (...) xml += '<' + this.dtdNodeList[idx] + '>' + eol;
      xml += body;
    ]] *)
Definition compose (st : parser) (indent_string eol : string) : option string :=
  node <~ (if preserveDocumentNode (opts st) then
             match tree st with
             | Element h => Some (read (XML.name_text (documentNodeName st)) h)
             | _ => None
             end
           else Some (Own (tree st))) ;;
  raw <~ stringify_document node (documentNodeName st) indent_string eol ;;
  let body := strip_declaration raw in
  let lines := fun tags =>
    String.concat "" (map (fun tag => "<" ++ tag ++ ">" ++ eol) tags) in
  let preamble :=
    match piNodeList st with
    | [] => xml_header ++ eol
    | tags => lines tags
    end in
  Some ((preamble ++ lines (dtdNodeList st)) ++ body).

(** ** The utilities *)

(** [isaArray(arg)] and [isaHash(arg)] *)
Definition isaArray (arg : node) : bool :=
  match arg with Sequence _ => true | _ => false end.

Definition isaHash (arg : node) : bool :=
  match arg with Element _ => true | _ => false end.

(** What a call of [alwaysArray] leaves: with a key the object is changed
    in place and [null] is returned, without one a value is returned. *)
Inductive always_array : Type :=
| Changed (obj : hash)
| Returned (v : node).

(** [alwaysArray(obj, key)] of [xml.js].  The empty string is no key.  A
    key of an array or of a string, and a key that the hash inherits, are
    not modelled.
    [[
      if (key) {
          const v = obj[key];
          if (v && !Array.isArray(v)) obj[key] = [v];
          return null;
      }
      return obj && !Array.isArray(obj) ? [obj] : obj;
    ]] *)
Definition alwaysArray (obj : node) (key : string) : option always_array :=
  if String.eqb key "" then
    Some (Returned (if truthy obj && negb (isaArray obj) then Sequence [obj]
                    else obj))
  else
    match obj with
    | Element h =>
        match read key h with
        | Own v =>
            if truthy v && negb (isaArray v)
            then option_map Changed (write key (Sequence [v]) h)
            else Some (Changed h)
        | Undefined => Some (Changed h)
        | Inherited => None
        end
    | _ => None
    end.

(** [stringify] of the other copy.  It takes a node for an array when its
    [length] is truthy, so the empty array is written like the empty hash,
    and a hash with a truthy [length] entry is outside the model; it
    writes the attributes when [_Attribs] is truthy.
    [[
      if (!node.length) { // what about zero-length array?
          ...
          if (node["_Attribs"]) { has_attribs = 1; ... }
    ]] *)
Fixpoint stringify_part000 (n : node) (name : string) (indent : nat)
    (indent_string eol : string) (sort : bool) {struct n} : option string :=
  if (indent =? 0)%nat && String.eqb name "" then None
  else
    let xml := if (indent =? 0)%nat then xml_header ++ eol else "" in
    let indent_text := repeat_string indent_string indent in
    let write_hash := fun (h : hash) (composed : list (string * option string)) =>
      let num_keys := numKeys h in
      let has_attribs :=
        match get "_Attribs" h with
        | Some a => if truthy a then 1 else 0
        | None => 0
        end in
      attribs <~ match get "_Attribs" h with
                 | Some a => if truthy a then stringify_attribs sort a else Some ""
                 | None => Some ""
                 end ;;
      let open := xml ++ indent_text ++ "<" ++ name ++ attribs in
      if (has_attribs <? num_keys)%nat then
        if match get "_Data" h with Some d => truthy d | None => false end then
          data <~ (d <~ get "_Data" h ;; encode_node encodeEntities d) ;;
          Some (open ++ ">" ++ data ++ "</" ++ name ++ ">" ++ eol)
        else
          let sorted_keys :=
            if sort then sort_keys (hashKeysToArray h) else hashKeysToArray h in
          children <~ sequence_options
            (map (fun key =>
                    match find (fun kv => String.eqb key (fst kv)) composed with
                    | Some (_, xml) => xml
                    | None => None
                    end)
               (filter (fun key => negb (String.eqb key "_Attribs")
                                   && re_valid_tag_name key)
                  sorted_keys)) ;;
          Some (open ++ ">" ++ eol ++ String.concat "" children
                ++ indent_text ++ "</" ++ name ++ ">" ++ eol)
      else Some (open ++ "/>" ++ eol) in
    match n with
    | Element h =>
        if match get "length" h with Some l => truthy l | None => false end
        then None
        else
          write_hash h
            (map (fun kv => let (key, child) := kv : string * node in
                            (key, stringify_part000 child key (indent + 1)
                                    indent_string eol sort)) h)
    | Sequence [] => write_hash [] []
    | Sequence items =>
        parts <~ sequence_options
          (map (fun item => stringify_part000 item name indent indent_string
                              eol sort)
               items) ;;
        Some (xml ++ String.concat "" parts)
    | Text s =>
        Some (xml ++ indent_text ++ "<" ++ name ++ ">" ++ encodeEntities s
              ++ "</" ++ name ++ ">" ++ eol)
    end.
(** A string in which every character is replaced by a token. *)
Fixpoint subst (f : ascii -> string) (s : string) : string :=
  match s with
  | "" => ""
  | String c s' => f c ++ subst f s'
  end.


(** The entity that stands for a character in encoded text;
    [attr] adds the two quotes, which only attribute values escape. *)
Definition entity (attr : bool) (c : ascii) : string :=
  if Ascii.eqb c "&" then "&amp;"
  else if Ascii.eqb c "<" then "&lt;"
  else if Ascii.eqb c ">" then "&gt;"
  else if attr && Ascii.eqb c dquote then "&quot;"
  else if attr && Ascii.eqb c "'" then "&apos;"
  else String c "".

(** The token of a character after the first [n] of the five replacements
    of [decodeEntities] have run over encoded text. *)
Definition decoding (n : nat) (attr : bool) (c : ascii) : string :=
  if Ascii.eqb c "&" then (if (5 <=? n)%nat then "&" else "&amp;")
  else if Ascii.eqb c "<" then (if (1 <=? n)%nat then "<" else "&lt;")
  else if Ascii.eqb c ">" then (if (2 <=? n)%nat then ">" else "&gt;")
  else if Ascii.eqb c dquote then (if attr && (n <? 3)%nat then "&quot;" else dq)
  else if Ascii.eqb c "'" then (if attr && (n <? 4)%nat then "&apos;" else "'")
  else String c "".

(** What a caller sees of an outcome: the value that is returned, the
    message of the [Error] that is thrown. *)
Definition returned {A : Type} (o : outcome A) : option A :=
  match o with Done a _ => Some a | _ => None end.

Definition thrown {A : Type} (o : outcome A) : option string :=
  match o with Thrown msg _ => Some msg | _ => None end.

Definition final {A : Type} (o : outcome A) : option parser :=
  match o with Done _ st => Some st | Thrown _ st => Some st | _ => None end.

Definition set_preserveDocumentNode (b : bool) (o : options) : options :=
  {| preserveDocumentNode := b;
     preserveAttributes := preserveAttributes o;
     preserveWhitespace := preserveWhitespace o;
     lowerCase := lowerCase o;
     forceArrays := forceArrays o;
     attribsKey := attribsKey o;
     dataKey := dataKey o |}.


Definition set_preserveAttributes (b : bool) (o : options) : options :=
  {| preserveDocumentNode := preserveDocumentNode o;
     preserveAttributes := b;
     preserveWhitespace := preserveWhitespace o;
     lowerCase := lowerCase o;
     forceArrays := forceArrays o;
     attribsKey := attribsKey o;
     dataKey := dataKey o |}.

Definition set_preserveWhitespace (b : bool) (o : options) : options :=
  {| preserveDocumentNode := preserveDocumentNode o;
     preserveAttributes := preserveAttributes o;
     preserveWhitespace := b;
     lowerCase := lowerCase o;
     forceArrays := forceArrays o;
     attribsKey := attribsKey o;
     dataKey := dataKey o |}.

(** [lit] occurs in [s]. *)
Fixpoint contains (lit s : string) : bool :=
  starts_with lit s
  || match s with
     | "" => false
     | String _ s' => contains lit s'
     end.

(** The call throws the parse error of the given key: the error is the
    last one recorded, and its text is the message. *)
Definition raises {A : Type} (key : string) (o : outcome A) : Prop :=
  exists st e,
    o = Thrown (XML.getError (Some e)) st
    /\ XML.getLastError st = XML.getError (Some e)
    /\ In e (errors st)
    /\ e_type e = "Parse"
    /\ e_key e = key.


(** ** Invariants of a run of the parser *)

(** A parser that reads [txt] with the options [o], has recorded no error
    and has its cursor inside the text. *)
Definition ok (txt : string) (o : options) (st : parser) : Prop :=
  text st = txt /\ opts st = o /\ errors st = []
  /\ lastIndex st <= length txt.

(** What a step of an ok parser leads to: it returns with an ok parser and
    [Q], or it throws the text of the one error that it has recorded, or it
    leaves the model.  The fuel is not used up. *)
Definition post {A : Type} (txt : string) (o : options)
    (Q : A -> parser -> Prop) (r : outcome A) : Prop :=
  match r with
  | Done a st => ok txt o st /\ Q a st
  | Thrown msg st => (exists e, errors st = [e]) /\ msg = XML.getLastError st
  | Unmodelled => True
  | OutOfFuel => False
  end.

(** The characters that the matches of [patNextClose] take up. *)
Definition pieces_length (segs : list string) : nat :=
  fold_right (fun seg n => length seg + 1 + n) 0 segs.

(** ** The two copies side by side *)

(** [erase s1 s2]: [s2] is [s1] without some occurrences of
    [[object Object]], the string that concatenation makes of a hash. *)
Inductive erase : string -> string -> Prop :=
| erase_nil : erase "" ""
| erase_keep (c : ascii) (s1 s2 : string) :
    erase s1 s2 -> erase (String c s1) (String c s2)
| erase_drop (s1 s2 : string) :
    erase s1 s2 -> erase ("[object Object]" ++ s1) s2.

(** [similar v1 v2]: the node [v1] of [XmlJs] and the node [v2] of
    [Part000] are the same but for the leaves without keys, which are the
    empty hash in [v1] and the empty string in [v2], and for the strings
    that were concatenated onto such a leaf. *)
#[local] Unset Elimination Schemes.
Inductive similar : node -> node -> Prop :=
| similar_text (s1 s2 : string) :
    erase s1 s2 -> similar (Text s1) (Text s2)
| similar_empty : similar (Element []) (Text "")
| similar_element (h1 h2 : hash) :
    h1 <> [] ->
    Forall2 (fun e1 e2 => fst e1 = fst e2 /\ similar (snd e1) (snd e2)) h1 h2 ->
    similar (Element h1) (Element h2)
| similar_sequence (l1 l2 : list node) :
    Forall2 similar l1 l2 -> similar (Sequence l1) (Sequence l2).
#[local] Set Elimination Schemes.

Definition similar_hash (h1 h2 : hash) : Prop :=
  Forall2 (fun e1 e2 => fst e1 = fst e2 /\ similar (snd e1) (snd e2)) h1 h2.

(** The trees of the two copies: similar, or the empty hash in both when
    the text has no tag at its top level. *)
Definition similar_tree (v1 v2 : node) : Prop :=
  similar v1 v2 \/ (v1 = Element [] /\ v2 = Element []).

(** Two outcomes that agree up to [R] on the value. *)
Definition sim_outcome {A : Type} (R : A -> A -> Prop) (o1 o2 : outcome A) : Prop :=
  match o1, o2 with
  | Done a1 st1, Done a2 st2 => R a1 a2 /\ st1 = st2
  | Thrown m1 st1, Thrown m2 st2 => m1 = m2 /\ st1 = st2
  | Unmodelled, Unmodelled => True
  | OutOfFuel, OutOfFuel => True
  | _, _ => False
  end.

Definition similar_result (r1 r2 : hash * bool) : Prop :=
  similar_hash (fst r1) (fst r2) /\ snd r1 = snd r2.

(** A hash of strings is similar to itself. *)
Definition all_text (h : hash) : Prop :=
  Forall (fun e => exists s, snd e = Text s) h.


(** Two parsers that are the same but for their trees, which are similar. *)
Definition same_but_tree (st1 st2 : parser) : Prop :=
  text st1 = text st2 /\ opts st1 = opts st2 /\ errors st1 = errors st2
  /\ piNodeList st1 = piNodeList st2 /\ dtdNodeList st1 = dtdNodeList st2
  /\ documentNodeName st1 = documentNodeName st2
  /\ lastIndex st1 = lastIndex st2
  /\ similar_tree (tree st1) (tree st2).

(** ** Trees that come back from a round trip *)

Definition has (a : ascii) (s : string) : bool := exists_char (Ascii.eqb a) s.

(** White space only. *)
Definition blank (s : string) : bool := forall_chars is_space s.

(** A text with a character that is no white space, and without white
    space at its ends unless the parser preserves it. *)
Definition text_ok (pw : bool) (s : string) : bool :=
  patNonSpace s && (pw || String.eqb (trim s) s).

(** The name of a child: a valid tag name that no object inherits and that
    is none of the two reserved keys. *)
Definition valid_key (k : string) : bool :=
  re_valid_tag_name k && negb (inherited k)
  && negb (String.eqb k "_Attribs") && negb (String.eqb k "_Data").

(** An attribute: its name is made of name characters and is not
    [__proto__]; its value is a string without the character of code 2,
    which the pattern of attribute values does not match. *)
Definition attribute_ok (e : string * node) : bool :=
  negb (String.eqb (fst e) "") && forall_chars is_name_char (fst e)
  && negb (String.eqb (fst e) "__proto__")
  && match snd e with
     | Text s => negb (exists_char (fun c => (code c =? 2)%nat) s)
     | _ => false
     end.

(** Strictly ascending in the order of the code units: each name is less
    than all that follow. *)
Fixpoint ascending (l : list string) : bool :=
  match l with
  | k :: l' => forallb (String.ltb k) l' && ascending l'
  | [] => true
  end.

Definition attribs_ok (pa : bool) (attribs : hash) : bool :=
  pa && negb (numKeys attribs =? 0)%nat
  && ascending (keys attribs) && forallb attribute_ok attribs.

(** The children of a hash: their names ascend; a child is an item, or an
    array of two or more items. *)
Definition children_ok (item_ok : node -> bool) (h : hash) : bool :=
  ascending (keys h)
  && forallb (fun e => valid_key (fst e)
                       && match snd e with
                          | Sequence items =>
                              (2 <=? List.length items)%nat && forallb item_ok items
                          | _ => item_ok (snd e)
                          end) h.

(** A hash: its attributes, if any, come first under [_Attribs]; behind
    them stands the data alone, or stand the children. *)
Definition element_ok (pa pw : bool) (item_ok : node -> bool) (h : hash) : bool :=
  match h with
  | (k, Element attribs) :: rest =>
      if String.eqb k "_Attribs" then
        attribs_ok pa attribs
        && match rest with
           | [(k', Text s)] =>
               if String.eqb k' "_Data" then text_ok pw s
               else children_ok item_ok rest
           | _ => children_ok item_ok rest
           end
      else children_ok item_ok h
  | _ => children_ok item_ok h
  end.

(** The trees in normal form, which the parser builds from their own text:
    [pa] and [pw] are the options [preserveAttributes] and
    [preserveWhitespace] of the parser. *)
Fixpoint canonical (pa pw : bool) (v : node) {struct v} : bool :=
  match v with
  | Text s => text_ok pw s
  | Sequence _ => false
  | Element h => element_ok pa pw (canonical pa pw) h
  end.

(** The hash after [attach] has put [v] under [k], for a name that is not
    inherited and without [forceArrays]. *)
Definition attached (k : string) (v : node) (branch : hash) : hash :=
  match get k branch with
  | Some (Sequence items) => set k (Sequence (items ++ [v])) branch
  | Some temp => set k (Sequence [temp; v]) branch
  | None => set k v branch
  end.

(** The parser with its cursor at [n]. *)
Definition advance (st : parser) (n : nat) : parser :=
  {| text := text st; opts := opts st; tree := tree st;
     errors := errors st; piNodeList := piNodeList st;
     dtdNodeList := dtdNodeList st;
     documentNodeName := documentNodeName st; lastIndex := n |}.

Definition round_trip_options (pa pw : bool) : options :=
  {| preserveDocumentNode := false;
     preserveAttributes := pa;
     preserveWhitespace := pw;
     lowerCase := false;
     forceArrays := false;
     attribsKey := "_Attribs";
     dataKey := "_Data" |}.

(** The tree that the entry point makes of the text of a tree. *)
Definition round_trip (c : copy) (o : options) (t : node) (name : string)
    (indent_string eol : string) : option node :=
  match stringify t name 0 indent_string eol true with
  | Some xml => returned (parse c xml o)
  | None => None
  end.

(** The text of the attributes of a hash of strings in an opening tag. *)
Definition attribs_text (attribs : hash) : string :=
  String.concat ""
    (map (fun e => " " ++ fst e ++ "=" ++ dq
                   ++ match snd e with
                      | Text s => encodeAttribEntities s
                      | _ => ""
                      end ++ dq)
       attribs).

(** The text of one attribute behind its leading space, and the pair that
    [patAttrib] makes of it. *)
Definition attrib_inner (e : string * node) : string :=
  fst e ++ "=" ++ dq
  ++ match snd e with Text s => encodeAttribEntities s | _ => "" end ++ dq.

Definition attrib_match (e : string * node) : string * string :=
  (fst e, match snd e with Text s => encodeAttribEntities s | _ => "" end).

(** The first entries of a leaf with the attributes [attribs]. *)
Definition attribs_leaf (attribs : hash) : hash :=
  match attribs with
  | [] => []
  | _ => [("_Attribs", Element attribs)]
  end.

(** A parser without errors that reads [pre ++ rest] with the options [o]
    and has its cursor behind [pre]. *)
Definition reads (o : options) (st : parser) (pre rest : string) : Prop :=
  text st = pre ++ rest /\ lastIndex st = length pre
  /\ errors st = [] /\ opts st = o.

(** The nested call [this.parse(leaf, nodeName)] with the fuel [f]. *)
Definition child_call (f : nat) (nodeName : string) (leaf : hash) : M hash :=
  r <- XML.parse_loop XmlJs f false (Some nodeName) leaf ;;
  XML.parse_finish false (Some nodeName) r.

(** One round of the loop reads [core] behind white space and attaches
    [v] under [k]; the nested call needs the fuel [f0]. *)
Definition item_step (o : options) (core k : string) (v : node) (f0 : nat) : Prop :=
  forall st pre ws post,
    reads o st pre (ws ++ core ++ post) -> blank ws = true ->
    forall f, f0 <= f ->
    forall top name branch next,
      XML.loop_body XmlJs (child_call f) next top name branch st
      = (if top then ret (attached k v branch, false)
         else next (attached k v branch))
          (advance st (length (pre ++ ws ++ core))).

(** The nested call for the tag [k] reads [inner] and the closing tag, and
    makes [leaf'] of [leaf]. *)
Definition child_loop (o : options) (inner k : string) (leaf leaf' : hash)
    (f0 : nat) : Prop :=
  forall st pre post,
    reads o st pre (inner ++ "</" ++ k ++ ">" ++ post) ->
    forall f, f0 <= f ->
      XML.parse_loop XmlJs f false (Some k) leaf st
      = Done (leaf', true) (advance st (length (pre ++ inner ++ "</" ++ k ++ ">"))).

(** [n] rounds of the loop read [body] and turn the hash [branch] into
    [trans branch], when [P branch] holds; the nested calls need the fuel
    [f0]. *)
Definition loop_steps (o : options) (body : string) (P : hash -> Prop)
    (trans : hash -> hash) (n f0 : nat) : Prop :=
  forall st pre post,
    reads o st pre (body ++ post) ->
    forall f, f0 <= f ->
    forall name branch, P branch ->
      XML.parse_loop XmlJs (n + f) false name branch st
      = XML.parse_loop XmlJs f false name (trans branch)
          (advance st (length (pre ++ body))).

(** The declaration that the serializer writes at indent 0. *)
Definition header (eol : string) (d : nat) : string :=
  if (d =? 0)%nat then xml_header ++ eol else "".

(** The text of a tree of the normal form and the round that reads it
    back: what the induction on the tree shows of an item [v]. *)
Definition item_round_trip (pa pw : bool) (ind eol : string) (v : node) : Prop :=
  canonical pa pw v = true ->
  forall k d, valid_key k = true ->
  exists core f0,
    stringify v k d ind eol true
    = Some (header eol d ++ repeat_string ind d ++ core ++ eol)
    /\ item_step (round_trip_options pa pw) core k v f0.

Definition node_round_trip (pa pw : bool) (ind eol : string) (v : node) : Prop :=
  match v with
  | Sequence items => Forall (item_round_trip pa pw ind eol) items
  | _ => item_round_trip pa pw ind eol v
  end.

(** The same of the children [rest] of a hash at the depth [d]: the text
    of each item stands between the indent and the end of its line, and
    the rounds that read the items behind any white space [ws] append
    the children to the leaf. *)
Definition children_round_trip (pa pw : bool) (ind eol : string) (d : nat)
    (rest : hash) : Prop :=
  exists bodies cores n f0,
    sequence_options
      (map (fun e => stringify (snd e) (fst e) d ind eol true) rest)
    = Some bodies
    /\ String.concat "" bodies
       = String.concat ""
           (map (fun c => repeat_string ind d ++ c ++ eol) cores)
    /\ forall ws, blank ws = true ->
         loop_steps (round_trip_options pa pw)
           (String.concat "" (map (fun c => ws ++ c) cores))
           (fun b => forall x, In x (keys rest) -> get x b = None)
           (fun b => (b ++ rest)%list) n f0.

(** The run [r1] has used up its fuel, or it is the run [r2]: what more
    fuel makes of a run. *)
Definition fuel_le {A : Type} (r1 r2 : outcome A) : Prop :=
  r1 = OutOfFuel \/ r1 = r2.

(** The text of the declaration between its angle brackets. *)
Definition declaration : string :=
  Eval cbv in "?xml version=" ++ dq ++ "1.0" ++ dq ++ "?".

(** ** The error of a second top-level node *)

Definition many_roots : string := "Only one top-level node is allowed in document".

(** A hash that holds nothing but data. *)
Definition only_data (o : options) (branch : hash) : Prop :=
  forall k, In k (keys branch) -> k = dataKey o.

(** The value of the self-closed element in the two copies. *)
Definition empty_leaf (c : copy) : node :=
  match c with
  | XmlJs => Element []
  | Part000 => Text ""
  end.

(** ** The parser at work on a document *)

(** The options of a new parser: with [lowerCase] the constructor
    lower-cases the two reserved keys. *)
Definition constructed (o : options) : options :=
  if lowerCase o then
    {| preserveDocumentNode := preserveDocumentNode o;
       preserveAttributes := preserveAttributes o;
       preserveWhitespace := preserveWhitespace o;
       lowerCase := lowerCase o;
       forceArrays := forceArrays o;
       attribsKey := toLowerCase (attribsKey o);
       dataKey := toLowerCase (dataKey o) |}
  else o.

(** The parser that [new XML] makes of a text before it parses. *)
Definition fresh (txt : string) (o : options) : parser :=
  {| text := txt; opts := constructed o; tree := Element []; errors := [];
     piNodeList := []; dtdNodeList := [];
     documentNodeName := Some ""; lastIndex := 0 |}.

(** The parser with its tree and the name of its document node set. *)
Definition with_document (st : parser) (name : option string) (t : node)
    : parser :=
  {| text := text st; opts := opts st; tree := t; errors := errors st;
     piNodeList := piNodeList st; dtdNodeList := dtdNodeList st;
     documentNodeName := name; lastIndex := lastIndex st |}.

(** The name of a tag as the parser takes it. *)
Definition node_name (o : options) (k : string) : string :=
  if lowerCase o then toLowerCase k else k.

(** The number of line feeds in a text. *)
Definition line_feeds (s : string) : Z := Z.of_nat (count_char newline s).

(** The message of a parse error. *)
Definition parse_error (key : string) (line : Z) (tag : string) : string :=
  XML.getError (Some {| e_type := "Parse"; e_key := key;
                        e_text := "<" ++ tag ++ ">"; e_line := line |}).

(** The options with the default keys and without [lowerCase]. *)
Definition plain_options (pdn pa pw fa : bool) : options :=
  {| preserveDocumentNode := pdn;
     preserveAttributes := pa;
     preserveWhitespace := pw;
     lowerCase := false;
     forceArrays := fa;
     attribsKey := "_Attribs";
     dataKey := "_Data" |}.

(** The data that the parser makes of a text between tags. *)
Definition data_of (pw : bool) (s : string) : string :=
  if pw then decodeEntities s else trim (decodeEntities s).

(** The tree of a document whose node [k] has the value [v]. *)
Definition document (pdn : bool) (k : string) (v : node) : node :=
  if pdn then Element [(k, v)] else v.

(** The nested call [this.parse(leaf, nodeName)] of either copy with the
    fuel [f]. *)
Definition nested (c : copy) (f : nat) (nodeName : string) (leaf : hash)
    : M hash :=
  r <- XML.parse_loop c f false (Some nodeName) leaf ;;
  XML.parse_finish false (Some nodeName) r.

(** The value of an element that holds the texts [pieces] between its
    tags and comments: the pieces that are not blank, joined by spaces. *)
Definition content (c : copy) (pw : bool) (pieces : list string) : node :=
  match filter patNonSpace pieces with
  | [] => empty_leaf c
  | l => Text (String.concat " " (map (data_of pw) l))
  end.

(** The options with the default keys and with [lowerCase]. *)
Definition lower_options (pdn pa pw fa : bool) : options :=
  {| preserveDocumentNode := pdn;
     preserveAttributes := pa;
     preserveWhitespace := pw;
     lowerCase := true;
     forceArrays := fa;
     attribsKey := "_Attribs";
     dataKey := "_Data" |}.

(** A name that is a valid tag name and whose lower-case form no object
    inherits and is not the lower-case data key. *)
Definition lower_key (k : string) : bool :=
  re_valid_tag_name k && negb (inherited (toLowerCase k))
  && negb (String.eqb (toLowerCase k) "_data").

(** The trees that both serializers write alike: no array is empty, no
    hash has a truthy [length] of its own, and the attributes of a hash
    are not the empty string.  The attributes themselves are no node. *)
Fixpoint portable (v : node) {struct v} : bool :=
  match v with
  | Text _ => true
  | Element h =>
      negb (match get "length" h with Some l => truthy l | None => false end)
      && match get "_Attribs" h with Some a => truthy a | None => true end
      && forallb (fun e => String.eqb (fst e) "_Attribs" || portable (snd e)) h
  | Sequence items =>
      negb (Nat.eqb (List.length items) 0) && forallb portable items
  end.

(** The parser with its two lists of tags and its cursor set. *)
Definition with_lists (st : parser) (pis dtds : list string) (n : nat)
    : parser :=
  {| text := text st; opts := opts st; tree := tree st; errors := errors st;
     piNodeList := pis; dtdNodeList := dtds;
     documentNodeName := documentNodeName st; lastIndex := n |}.

(** The key of the error that the loop makes of a tag that it cannot
    read, when the tag is malformed by itself: a tag that opens a
    comment, an inline document type or a CDATA section is read further
    and is none of these. *)
Definition malformation (tag : string) : option string :=
  if patSpecialTag tag then
    if patPITag tag then
      if patPINode tag then None else Some "Malformed processor instruction"
    else if patCommentTag tag then None
    else if patDTDTag tag then
      if patExternalDTDNode tag || patInlineDTDNode tag then None
      else Some "Malformed DTD tag"
    else if patCDATATag tag then None
    else Some "Malformed special tag"
  else
    match patStandardTag tag with
    | None => Some "Malformed tag"
    | Some _ => None
    end.

(** The parser with [preserveDocumentNode] set to [b], and an outcome
    with a function applied to its parser. *)
Definition preserving (b : bool) (st : parser) : parser :=
  {| text := text st; opts := set_preserveDocumentNode b (opts st);
     tree := tree st; errors := errors st; piNodeList := piNodeList st;
     dtdNodeList := dtdNodeList st;
     documentNodeName := documentNodeName st; lastIndex := lastIndex st |}.

Definition on_state {A : Type} (f : parser -> parser) (r : outcome A)
    : outcome A :=
  match r with
  | Done a st => Done a (f st)
  | Thrown msg st => Thrown msg (f st)
  | Unmodelled => Unmodelled
  | OutOfFuel => OutOfFuel
  end.

(** A step that does not look at [preserveDocumentNode]. *)
Definition commutes {A : Type} (b : bool) (m : M A) : Prop :=
  forall st, m (preserving b st) = on_state (preserving b) (m st).




(** ** Children of one name *)





(** ** Facts about strings *)

Lemma append_nil_r (s : string) : s ++ "" = s.
Proof. induction s; simpl; congruence. Qed.

Lemma append_assoc (a b c : string) : (a ++ b) ++ c = a ++ (b ++ c).
Proof. induction a; simpl; congruence. Qed.

Lemma length_append (a b : string) : length (a ++ b) = length a + length b.
Proof. induction a; simpl; auto. Qed.

Lemma strip_append (lit t : string) : strip lit (lit ++ t) = Some t.
Proof.
  induction lit as [|a lit IH]; simpl; [reflexivity|].
  now rewrite Ascii.eqb_refl.
Qed.

Lemma starts_with_append (lit t : string) : starts_with lit (lit ++ t) = true.
Proof. unfold starts_with. now rewrite strip_append. Qed.

Lemma replace_from_skip (pat rep p t : string) :
  replace_from pat rep (length p) (p ++ t) = replace_from pat rep 0 t.
Proof.
  induction p as [|a p IH]; simpl; [|exact IH].
  destruct t; reflexivity.
Qed.

Lemma replace_all_hit (pat rep t : string) :
  pat <> "" -> replace_all pat rep (pat ++ t) = rep ++ replace_all pat rep t.
Proof.
  destruct pat as [|a p]; [congruence|intros _].
  unfold replace_all.
  change (replace_from (String a p) rep 0 (String a p ++ t))
    with (if starts_with (String a p) (String a p ++ t)
          then rep ++ replace_from (String a p) rep (length (String a p) - 1) (p ++ t)
          else String a (replace_from (String a p) rep 0 (p ++ t))).
  rewrite starts_with_append.
  replace (length (String a p) - 1) with (length p) by (simpl; lia).
  now rewrite replace_from_skip.
Qed.

Lemma replace_all_miss (pat rep : string) (c : ascii) (s : string) :
  starts_with pat (String c s) = false ->
  replace_all pat rep (String c s) = String c (replace_all pat rep s).
Proof. unfold replace_all; simpl; intros ->; reflexivity. Qed.

Lemma subst_id (s : string) : subst (fun c => String c "") s = s.
Proof. induction s; simpl; congruence. Qed.

(** A replacement pass acts token by token when no match straddles two
    tokens. *)
Lemma replace_all_subst (pat rep : string) (f f' : ascii -> string) :
  (forall c t, replace_all pat rep (f c ++ t) = f' c ++ replace_all pat rep t) ->
  forall s, replace_all pat rep (subst f s) = subst f' s.
Proof.
  intros H s; induction s as [|c s IH]; simpl; [reflexivity|].
  now rewrite H, IH.
Qed.

Lemma rev_string_app (s acc : string) : rev_string acc s = reverse s ++ acc.
Proof.
  unfold reverse. revert acc.
  induction s as [|c s IH]; intros acc; simpl; [reflexivity|].
  rewrite IH, (IH (String c "")), append_assoc. reflexivity.
Qed.

Lemma reverse_cons (c : ascii) (s : string) : reverse (String c s) = reverse s ++ String c "".
Proof. unfold reverse at 1. simpl. apply rev_string_app. Qed.

Lemma reverse_app (a b : string) : reverse (a ++ b) = reverse b ++ reverse a.
Proof.
  induction a as [|c a IH]; simpl.
  - now rewrite append_nil_r.
  - now rewrite !reverse_cons, IH, append_assoc.
Qed.

Lemma reverse_involutive (s : string) : reverse (reverse s) = s.
Proof.
  induction s as [|c s IH]; [reflexivity|].
  now rewrite reverse_cons, reverse_app, IH.
Qed.

Lemma strip_some (lit s t : string) : strip lit s = Some t -> s = lit ++ t.
Proof.
  revert s; induction lit as [|a lit IH]; intros s; simpl.
  - congruence.
  - destruct s as [|b s]; [discriminate|].
    destruct (Ascii.eqb_spec a b) as [->|]; [|discriminate].
    intros H. now rewrite (IH _ H).
Qed.

Lemma starts_with_true (lit s : string) :
  starts_with lit s = true <-> exists t, s = lit ++ t.
Proof.
  unfold starts_with. split.
  - destruct (strip lit s) as [t|] eqn:E; [|discriminate].
    intros _. exists t. now apply strip_some.
  - intros [t ->]. now rewrite strip_append.
Qed.

Lemma ends_with_true (lit s : string) :
  ends_with lit s = true <-> exists x, s = x ++ lit.
Proof.
  unfold ends_with. rewrite starts_with_true. split.
  - intros [t H]. exists (reverse t).
    rewrite <- (reverse_involutive s), H, reverse_app.
    now rewrite reverse_involutive.
  - intros [x ->]. exists (reverse x). apply reverse_app.
Qed.


Lemma exists_char_app (p : ascii -> bool) (a b : string) :
  exists_char p (a ++ b) = exists_char p a || exists_char p b.
Proof.
  induction a as [|c a IH]; simpl; [reflexivity|].
  now rewrite IH, orb_assoc.
Qed.



Lemma contains_here (lit t : string) : contains lit (lit ++ t) = true.
Proof.
  destruct (lit ++ t) eqn:E; simpl; rewrite <- E, starts_with_append; reflexivity.
Qed.

Lemma contains_later (lit a b : string) :
  contains lit b = true -> contains lit (a ++ b) = true.
Proof.
  intros H. induction a as [|c a IH]; simpl; [exact H|].
  rewrite IH. apply orb_true_r.
Qed.




(** ** Facts about hashes *)

Lemma get_set_same (k : string) (v : node) (h : hash) : get k (set k v h) = Some v.
Proof.
  induction h as [|[k' v'] h IH]; simpl.
  - now rewrite String.eqb_refl.
  - destruct (String.eqb k k') eqn:E; simpl; now rewrite E.
Qed.

Lemma set_set (k : string) (v w : node) (h : hash) : set k w (set k v h) = set k w h.
Proof.
  induction h as [|[k' v'] h IH]; simpl.
  - now rewrite String.eqb_refl.
  - destruct (String.eqb k k') eqn:E; simpl; rewrite E; [reflexivity|].
    now rewrite IH.
Qed.

Lemma find_composed {B : Type} (f : string -> node -> B) (key : string) (h : hash) :
  find (fun kv => String.eqb key (fst kv))
       (map (fun kv => let (k, child) := kv : string * node in (k, f k child)) h)
  = option_map (fun child => (key, f key child)) (get key h).
Proof.
  induction h as [|[k v] h IH]; simpl; [reflexivity|].
  destruct (String.eqb_spec key k) as [->|n]; [reflexivity|exact IH].
Qed.

(** ** The entity codec *)

Lemma replace_all_other (a : ascii) (p rep : string) (c : ascii) (t : string) :
  c <> a ->
  replace_all (String a p) rep (String c "" ++ t)
  = String c "" ++ replace_all (String a p) rep t.
Proof.
  intros n. cbn [append]. apply replace_all_miss.
  unfold starts_with. cbn [strip].
  now rewrite (proj2 (Ascii.eqb_neq a c)) by congruence.
Qed.

(** The token that each character becomes in [encodeEntities] and, when
    [attr] is set, in [encodeAttribEntities]. *)
Lemma encode_subst (attr : bool) (s : string) :
  (if attr then encodeAttribEntities s else encodeEntities s)
  = subst (entity attr) s.
Proof.
  assert (P1 : replace_all "&" "&amp;" s
               = subst (fun c => if Ascii.eqb c "&" then "&amp;" else String c "") s).
  { rewrite <- (subst_id s) at 1. apply replace_all_subst; intros c t.
    destruct (Ascii.eqb_spec c "&") as [->|n]; [reflexivity|].
    now apply replace_all_other. }
  assert (P2 : replace_all "<" "&lt;" (replace_all "&" "&amp;" s)
               = subst (fun c => if Ascii.eqb c "&" then "&amp;"
                                 else if Ascii.eqb c "<" then "&lt;"
                                 else String c "") s).
  { rewrite P1. apply replace_all_subst; intros c t.
    destruct (Ascii.eqb_spec c "&") as [->|n]; [reflexivity|].
    destruct (Ascii.eqb_spec c "<") as [->|n1]; [reflexivity|].
    now apply replace_all_other. }
  assert (P3 : encodeEntities s = subst (entity false) s).
  { unfold encodeEntities. rewrite P2. apply replace_all_subst; intros c t.
    unfold entity.
    destruct (Ascii.eqb_spec c "&") as [->|n]; [reflexivity|].
    destruct (Ascii.eqb_spec c "<") as [->|n1]; [reflexivity|].
    destruct (Ascii.eqb_spec c ">") as [->|n2]; [reflexivity|].
    now apply replace_all_other. }
  destruct attr; [|exact P3].
  assert (P4 : replace_all dq "&quot;" (encodeEntities s)
               = subst (fun c => if Ascii.eqb c "&" then "&amp;"
                                 else if Ascii.eqb c "<" then "&lt;"
                                 else if Ascii.eqb c ">" then "&gt;"
                                 else if Ascii.eqb c dquote then "&quot;"
                                 else String c "") s).
  { rewrite P3. apply replace_all_subst; intros c t. unfold entity.
    destruct (Ascii.eqb_spec c "&") as [->|n]; [reflexivity|].
    destruct (Ascii.eqb_spec c "<") as [->|n1]; [reflexivity|].
    destruct (Ascii.eqb_spec c ">") as [->|n2]; [reflexivity|].
    simpl.
    destruct (Ascii.eqb_spec c dquote) as [->|n3]; [reflexivity|].
    now apply (replace_all_other dquote ""). }
  unfold encodeAttribEntities. fold (encodeEntities s). rewrite P4.
  apply replace_all_subst; intros c t. unfold entity.
  destruct (Ascii.eqb_spec c "&") as [->|n]; [reflexivity|].
  destruct (Ascii.eqb_spec c "<") as [->|n1]; [reflexivity|].
  destruct (Ascii.eqb_spec c ">") as [->|n2]; [reflexivity|].
  destruct (Ascii.eqb_spec c dquote) as [->|n3]; [reflexivity|].
  simpl.
  destruct (Ascii.eqb_spec c "'") as [->|n4]; [reflexivity|].
  now apply replace_all_other.
Qed.

Ltac token_cases c :=
  destruct (Ascii.eqb_spec c "&") as [->|?]; [reflexivity|];
  destruct (Ascii.eqb_spec c "<") as [->|?]; [reflexivity|];
  destruct (Ascii.eqb_spec c ">") as [->|?]; [reflexivity|];
  destruct (Ascii.eqb_spec c dquote) as [->|?]; [reflexivity|];
  destruct (Ascii.eqb_spec c "'") as [->|?]; [reflexivity|].

Lemma decoding_start (attr : bool) (c : ascii) : entity attr c = decoding 0 attr c.
Proof. unfold entity, decoding. destruct attr; token_cases c; reflexivity. Qed.

Lemma decoding_end (attr : bool) (c : ascii) : decoding 5 attr c = String c "".
Proof. unfold decoding. destruct attr; token_cases c; reflexivity. Qed.

Lemma decoding_pass (attr : bool) (n : nat) (pat rep : string) :
  In (n, pat, rep)
     [(0, "&lt;", "<"); (1, "&gt;", ">"); (2, "&quot;", dq);
      (3, "&apos;", "'"); (4, "&amp;", "&")] ->
  forall s, replace_all pat rep (subst (decoding n attr) s)
            = subst (decoding (S n) attr) s.
Proof.
  intros H. apply replace_all_subst; intros c t. unfold decoding.
  simpl in H.
  repeat (destruct H as [H|H];
          [injection H as <- <- <-; destruct attr; token_cases c;
           now apply replace_all_other|]).
  destruct H.
Qed.

Lemma replace_all_absent (a : ascii) (p rep s : string) :
  exists_char (Ascii.eqb a) s = false -> replace_all (String a p) rep s = s.
Proof.
  induction s as [|c s IH]; simpl; [reflexivity|].
  intros H. apply orb_false_iff in H as [Hc Hs].
  rewrite replace_all_miss, IH; auto.
  unfold starts_with. cbn [strip]. now rewrite Hc.
Qed.

(** The test for an ampersand in [decodeEntities] only saves time. *)
Lemma decodeEntities_always (x : string) :
  decodeEntities x
  = replace_all "&amp;" "&"
      (replace_all "&apos;" "'"
         (replace_all "&quot;" dq
            (replace_all "&gt;" ">" (replace_all "&lt;" "<" x)))).
Proof.
  unfold decodeEntities.
  destruct (exists_char (Ascii.eqb "&") x) eqn:E; [reflexivity|].
  rewrite (replace_all_absent "&" "lt;" "<" x E).
  rewrite (replace_all_absent "&" "gt;" ">" x E).
  rewrite (replace_all_absent "&" "quot;" dq x E).
  rewrite (replace_all_absent "&" "apos;" "'" x E).
  now rewrite (replace_all_absent "&" "amp;" "&" x E).
Qed.

Lemma decode_entity_tokens (attr : bool) (s : string) :
  decodeEntities (subst (entity attr) s) = s.
Proof.
  rewrite decodeEntities_always.
  replace (subst (entity attr) s) with (subst (decoding 0 attr) s).
  2:{ induction s as [|c s IH]; simpl; [reflexivity|].
      now rewrite IH, decoding_start. }
  rewrite (decoding_pass attr 0) by (simpl; auto).
  rewrite (decoding_pass attr 1) by (simpl; auto).
  rewrite (decoding_pass attr 2) by (simpl; auto).
  rewrite (decoding_pass attr 3) by (simpl; auto).
  rewrite (decoding_pass attr 4) by (simpl; auto 6).
  rewrite <- (subst_id s) at 2.
  induction s as [|c s IH]; simpl; [reflexivity|].
  now rewrite IH, decoding_end.
Qed.

(** C2.  Decoding undoes encoding: for every string [s], which may hold the
    five special characters and ordinary ones in any order,
    [decodeEntities (encodeEntities s) = s], and the same holds for the
    encoding of attribute text, [encodeAttribEntities]. *)
Theorem entity_codec_round_trip (s : string) :
  decodeEntities (encodeEntities s) = s
  /\ decodeEntities (encodeAttribEntities s) = s.
Proof.
  split.
  - rewrite (encode_subst false). apply decode_entity_tokens.
  - rewrite (encode_subst true). apply decode_entity_tokens.
Qed.

(** ** The parser on the documents of the specification *)

(** C4, as the specification states it, fails: the content of the CDATA
    section of [<a><![CDATA[<b>&amp;]]></a>] does not come back as it
    stands. *)
Lemma cdata_is_not_literal :
  returned (parse XmlJs "<a><![CDATA[<b>&amp;]]></a>" default_options)
  <> Some (Text "<b>&amp;").
Proof. vm_compute. discriminate. Qed.

(** C10.  The empty text is not parsed at all: the entry point returns the
    empty hash, no error is recorded and the name of the document node is
    the empty string, whatever the options are. *)
Theorem parse_empty_text (c : copy) (o : options) :
  returned (parse c "" o) = Some (Element [])
  /\ thrown (parse c "" o) = None
  /\ option_map XML.error (final (parse c "" o)) = Some 0
  /\ option_map documentNodeName (final (parse c "" o)) = Some (Some "").
Proof. repeat split. Qed.

(** ** The serializer on hashes *)

(** C7, as the specification states it, fails.  The hash below has a
    data entry and a child [b], whose name is a valid tag name; it is
    neither without content nor content of data alone, so by the claim the
    child is composed.  The text of the hash is the data alone and the
    text of the child does not occur in it. *)
Lemma data_entry_hides_children :
  re_valid_tag_name "b" = true
  /\ stringify (Element [("_Data", Text "x"); ("b", Text "y")]) "n" 1
       (String tab "") (String newline "") true
     = Some (String tab ("<n>x</n>" ++ String newline ""))
  /\ stringify (Text "y") "b" 2 (String tab "") (String newline "") true
     = Some (String tab (String tab ("<b>y</b>" ++ String newline "")))
  /\ contains (String tab (String tab ("<b>y</b>" ++ String newline "")))
       (String tab ("<n>x</n>" ++ String newline "")) = false.
Proof. vm_compute. repeat split. Qed.

(** The serializer on a hash, with its children looked up by their keys. *)
Lemma stringify_hash (h : hash) (name : string) (indent : nat)
    (indent_string eol : string) (sort : bool) :
  stringify (Element h) name indent indent_string eol sort
  = if (indent =? 0)%nat && String.eqb name "" then None
    else
      attribs <~ match get "_Attribs" h with
                 | Some a => stringify_attribs sort a
                 | None => Some ""
                 end ;;
      let open := (if (indent =? 0)%nat then xml_header ++ eol else "")
                  ++ repeat_string indent_string indent ++ "<" ++ name ++ attribs in
      if (numKeys h <=? match get "_Attribs" h with Some _ => 1 | None => 0 end)%nat
      then Some (open ++ "/>" ++ eol)
      else
        match get "_Data" h with
        | Some (Text "") | None =>
            children <~ sequence_options
              (map (fun key =>
                      child <~ get key h ;;
                      stringify child key (indent + 1) indent_string eol sort)
                 (filter (fun key => negb (String.eqb key "_Attribs")
                                     && re_valid_tag_name key)
                    (if sort then sort_keys (hashKeysToArray h)
                     else hashKeysToArray h))) ;;
            Some (open ++ ">" ++ eol ++ String.concat "" children
                  ++ repeat_string indent_string indent ++ "</" ++ name ++ ">" ++ eol)
        | Some d =>
            data <~ encode_node encodeEntities d ;;
            Some (open ++ ">" ++ data ++ "</" ++ name ++ ">" ++ eol)
        end.
Proof.
  cbn [stringify].
  destruct ((indent =? 0)%nat && String.eqb name "") eqn:G; [reflexivity|].
  destruct (match get "_Attribs" h with
            | Some a => stringify_attribs sort a
            | None => Some ""
            end) as [attribs|]; [|reflexivity].
  cbn [and_then].
  rewrite Nat.ltb_antisym.
  destruct (numKeys h <=? _)%nat; [reflexivity|]. cbn [negb].
  assert (E : forall keys,
    map (fun key =>
           match find (fun kv => String.eqb key (fst kv))
                   (map (fun kv => let (key0, child) := kv : string * node in
                                   (key0, stringify child key0 (indent + 1)
                                            indent_string eol sort)) h) with
           | Some (_, xml) => xml
           | None => None
           end) keys
    = map (fun key => child <~ get key h ;;
                      stringify child key (indent + 1) indent_string eol sort) keys).
  { intros l. apply map_ext. intros key. rewrite find_composed.
    now destruct (get key h). }
  rewrite E.
  destruct (get "_Data" h) as [[[|c s]|h'|l]|]; reflexivity.
Qed.

(** C7, amended.  A hash is composed in one of three ways.  With no key
    besides [_Attribs] the tag closes itself.  With a data entry that is
    truthy the encoded data stands between the opening and the closing tag,
    whatever other keys there are.  Otherwise every key that is not
    [_Attribs] and is a valid tag name is composed, in the order of
    [sorted_keys], one level deeper; this takes in a data entry that is an
    empty string, and leaves out every key that is no valid tag name. *)
Theorem stringify_element (h : hash) (name : string) (indent : nat)
    (indent_string eol : string) (sort : bool) :
  stringify (Element h) name indent indent_string eol sort
  = if (indent =? 0)%nat && String.eqb name "" then None
    else
      attribs <~ match get "_Attribs" h with
                 | Some a => stringify_attribs sort a
                 | None => Some ""
                 end ;;
      let open := (if (indent =? 0)%nat then xml_header ++ eol else "")
                  ++ repeat_string indent_string indent ++ "<" ++ name ++ attribs in
      if (numKeys h <=? match get "_Attribs" h with Some _ => 1 | None => 0 end)%nat
      then Some (open ++ "/>" ++ eol)
      else
        match get "_Data" h with
        | Some (Text "") | None =>
            children <~ sequence_options
              (map (fun key =>
                      child <~ get key h ;;
                      stringify child key (indent + 1) indent_string eol sort)
                 (filter (fun key => negb (String.eqb key "_Attribs")
                                     && re_valid_tag_name key)
                    (if sort then sort_keys (hashKeysToArray h)
                     else hashKeysToArray h))) ;;
            Some (open ++ ">" ++ eol ++ String.concat "" children
                  ++ repeat_string indent_string indent ++ "</" ++ name ++ ">" ++ eol)
        | Some d =>
            data <~ encode_node encodeEntities d ;;
            Some (open ++ ">" ++ data ++ "</" ++ name ++ ">" ++ eol)
        end.
Proof. apply stringify_hash. Qed.

(** ** The scanners of comments, CDATA sections and inline DTDs *)

Lemma getLastError_last (st : parser) (l : list error) (e : error) :
  errors st = (l ++ [e])%list -> XML.getLastError st = XML.getError (Some e).
Proof.
  intros E. unfold XML.getLastError, XML.error. rewrite E, length_app.
  cbn [List.length].
  replace (List.length l + 1 =? 0)%nat with false
    by (symmetry; apply Nat.eqb_neq; lia).
  replace (List.length l + 1 - 1) with (List.length l) by lia.
  now rewrite nth_error_app2, Nat.sub_diag by lia.
Qed.




(** ** The cursor of the tag scanner *)

Lemma length_drop (n : nat) (s : string) : length (drop n s) = length s - n.
Proof.
  revert s; induction n as [|n IH]; intros [|c s]; simpl; auto.
Qed.

Lemma split_at_some (a : ascii) (s x y : string) :
  split_at a s = Some (x, y) -> s = x ++ String a y.
Proof.
  revert x; induction s as [|c s IH]; intros x; simpl; [discriminate|].
  destruct (Ascii.eqb_spec c a) as [->|n].
  - intros H; injection H as <- <-. reflexivity.
  - destruct (split_at a s) as [[x' y']|]; [|discriminate].
    intros H; injection H as <- <-. now rewrite (IH x' eq_refl).
Qed.

Lemma patTag_at_some (s before tag rest : string) :
  patTag_at s = Some (before, tag, rest) ->
  s = before ++ "<" ++ tag ++ ">" ++ rest /\ tag <> "".
Proof.
  unfold patTag_at.
  destruct (split_at "<" s) as [[b s1]|] eqn:E1; [|discriminate].
  destruct (split_at ">" s1) as [[t r]|] eqn:E2; [|discriminate].
  apply split_at_some in E1, E2. subst.
  destruct t; [discriminate|].
  intros H; injection H as <- <- <-. split; [reflexivity|discriminate].
Qed.

Lemma patTag_from_length (s before tag rest : string) :
  patTag_from s = Some (before, tag, rest) -> length rest + 3 <= length s.
Proof.
  induction s as [|c s IH]; cbn [patTag_from].
  - destruct (patTag_at "") eqn:E; [discriminate E|discriminate].
  - destruct (patTag_at (String c s)) as [[[b t] r]|] eqn:E.
    + intros H; injection H as -> -> ->.
      apply patTag_at_some in E as [E N]. rewrite E.
      rewrite !length_append. destruct tag; [congruence|]. simpl. lia.
    + intros H. apply IH in H. simpl. lia.
Qed.

Lemma patTag_exec_bounds (txt before tag : string) (li index : nat) :
  patTag_exec txt li = Some (before, tag, index) ->
  li <= length txt -> li < index <= length txt.
Proof.
  unfold patTag_exec.
  destruct (patTag_from (drop li txt)) as [[[b t] rest]|] eqn:E; [|discriminate].
  intros H L; injection H as <- <- <-.
  apply patTag_from_length in E. rewrite length_drop in E. lia.
Qed.

Lemma patNextClose_all_pieces (s : string) :
  pieces_length (patNextClose_all s) <= length s.
Proof.
  induction s as [|c s IH]; simpl; [lia|].
  destruct (Ascii.eqb c ">"); simpl; [lia|].
  destruct (patNextClose_all s); simpl in *; lia.
Qed.

Lemma swallow_bounds (closed : string -> bool) (segs : list string) :
  forall tag index tag' index',
    XML.swallow closed tag index segs = (tag', Some index') ->
    index <= index' <= index + pieces_length segs.
Proof.
  induction segs as [|seg segs IH]; intros tag index tag' index';
    cbn [XML.swallow]; destruct (closed tag).
  - intros H; injection H as <- <-. simpl. lia.
  - discriminate.
  - intros H; injection H as <- <-. simpl. lia.
  - intros H. apply IH in H. simpl. lia.
Qed.

Lemma next_close_bounds (closed : string -> bool) (tag : string) (st : parser)
    (tag' : string) (index : nat) :
  XML.next_close closed tag st = (tag', Some index) ->
  lastIndex st <= length (text st) ->
  lastIndex st <= index <= length (text st).
Proof.
  unfold XML.next_close. intros H L. apply swallow_bounds in H.
  pose proof (patNextClose_all_pieces (drop (lastIndex st) (text st))) as P.
  rewrite length_drop in P. lia.
Qed.

(** ** The steps of the parser keep it ok *)

Section Steps.

Variables (txt : string) (o : options).

Lemma post_bind {A B : Type} (m : M A) (f : A -> M B) (st : parser)
    (Q : A -> parser -> Prop) (Q' : B -> parser -> Prop) :
  post txt o Q (m st) ->
  (forall a st', ok txt o st' -> Q a st' -> post txt o Q' (f a st')) ->
  post txt o Q' (bind m f st).
Proof.
  unfold bind. destruct (m st) as [a st'| | |]; simpl; auto.
  intros [H1 H2] H. now apply H.
Qed.

Lemma post_weaken {A : Type} (Q Q' : A -> parser -> Prop) (r : outcome A) :
  post txt o Q r -> (forall a st, ok txt o st -> Q a st -> Q' a st) ->
  post txt o Q' r.
Proof. destruct r; simpl; auto. intros [H1 H2] H. auto. Qed.

Lemma post_ret {A : Type} (a : A) (st : parser) (Q : A -> parser -> Prop) :
  ok txt o st -> Q a st -> post txt o Q (ret a st).
Proof. simpl. auto. Qed.

Lemma post_this (st : parser) :
  ok txt o st -> post txt o (fun a st' => a = st /\ st' = st) (this st).
Proof. simpl. auto. Qed.

Lemma post_unmodelled {A : Type} (Q : A -> parser -> Prop) (st : parser) :
  post txt o Q (unmodelled st).
Proof. exact I. Qed.

Lemma post_set_lastIndex (n : nat) (st : parser) :
  ok txt o st -> n <= length txt ->
  post txt o (fun _ st' => lastIndex st' = n) (set_lastIndex n st).
Proof.
  intros (A & B & C & D) L. unfold set_lastIndex, post, ok. cbn.
  repeat split; auto.
Qed.

Lemma post_throwParseError {A : Type} (key tag : string) (st : parser)
    (Q : A -> parser -> Prop) :
  ok txt o st -> post txt o Q (XML.throwParseError key tag st).
Proof.
  intros (_ & _ & E & _).
  unfold XML.throwParseError, bind, this, push_error. simpl. rewrite E.
  split; [eexists; reflexivity|reflexivity].
Qed.

Lemma post_push_pi (tag : string) (st : parser) :
  ok txt o st ->
  post txt o (fun _ st' => lastIndex st' = lastIndex st) (push_pi tag st).
Proof.
  intros (A & B & C & D). unfold push_pi, post, ok. cbn. repeat split; auto.
Qed.

Lemma post_push_dtd (tag : string) (st : parser) :
  ok txt o st ->
  post txt o (fun _ st' => lastIndex st' = lastIndex st) (push_dtd tag st).
Proof.
  intros (A & B & C & D). unfold push_dtd, post, ok. cbn. repeat split; auto.
Qed.

Lemma post_parsePINode (tag : string) (st : parser) :
  ok txt o st ->
  post txt o (fun _ st' => lastIndex st' = lastIndex st) (XML.parsePINode tag st).
Proof.
  intros H. unfold XML.parsePINode. destruct (negb (patPINode tag)).
  - now apply post_throwParseError.
  - eapply post_bind; [now apply post_push_pi|].
    intros ? st' H' E. now apply post_ret.
Qed.

Lemma post_parseCommentNode (tag : string) (st : parser) :
  ok txt o st ->
  post txt o (fun _ st' => lastIndex st <= lastIndex st')
    (XML.parseCommentNode tag st).
Proof.
  intros H. unfold XML.parseCommentNode.
  eapply post_bind; [now apply post_this|]. intros ? ? _ [-> ->].
  destruct (XML.next_close patEndComment tag st) as [tag' [index|]] eqn:E.
  - apply next_close_bounds in E; [|destruct H as (-> & _ & _ & L); exact L].
    destruct H as (Ht & Ho & He & L). rewrite Ht in E.
    eapply post_bind; [apply post_set_lastIndex; [repeat split; auto|lia]|].
    intros ? st' H' E'. apply post_ret; auto; cbn beta in *; lia.
  - now apply post_throwParseError.
Qed.

Lemma post_parseCDATANode (tag : string) (st : parser) :
  ok txt o st ->
  post txt o (fun _ st' => lastIndex st <= lastIndex st')
    (XML.parseCDATANode tag st).
Proof.
  intros H. unfold XML.parseCDATANode.
  eapply post_bind; [now apply post_this|]. intros ? ? _ [-> ->].
  destruct (XML.next_close patEndCDATA tag st) as [tag' [index|]] eqn:E.
  - apply next_close_bounds in E; [|destruct H as (-> & _ & _ & L); exact L].
    destruct H as (Ht & Ho & He & L). rewrite Ht in E.
    eapply post_bind; [apply post_set_lastIndex; [repeat split; auto|lia]|].
    intros ? st' H' E'.
    destruct (patCDATANode tag').
    + apply post_ret; auto; cbn beta in *; lia.
    + now apply post_throwParseError.
  - now apply post_throwParseError.
Qed.

Lemma post_parseDTDNode (tag : string) (st : parser) :
  ok txt o st ->
  post txt o (fun _ st' => lastIndex st <= lastIndex st')
    (XML.parseDTDNode tag st).
Proof.
  intros H. unfold XML.parseDTDNode.
  destruct (patExternalDTDNode tag).
  { eapply post_bind; [now apply post_push_dtd|].
    intros ? st' H' E. apply post_ret; auto; cbn beta in *; lia. }
  destruct (patInlineDTDNode tag); [|now apply post_throwParseError].
  eapply post_bind; [now apply post_this|]. intros ? ? _ [-> ->].
  destruct (XML.next_close patEndDTD tag st) as [tag' [index|]] eqn:E.
  - apply next_close_bounds in E; [|destruct H as (-> & _ & _ & L); exact L].
    destruct H as (Ht & Ho & He & L). rewrite Ht in E.
    eapply post_bind; [apply post_set_lastIndex; [repeat split; auto|lia]|].
    intros ? st' H' E'.
    destruct (patDTDNode tag').
    + eapply post_bind; [now apply post_push_dtd|].
      intros ? st'' H'' E''. apply post_ret; auto; cbn beta in *; lia.
    + now apply post_throwParseError.
  - now apply post_throwParseError.
Qed.

(** The steps that build hashes leave the parser as it is. *)
Lemma post_add_data (s : string) (branch : hash) (st : parser) :
  ok txt o st -> post txt o (fun _ st' => st' = st) (XML.add_data s branch st).
Proof.
  intros H. unfold XML.add_data, bind, this.
  destruct (read _ branch) as [v| |]; [destruct (to_primitive v)| |]; simpl; auto.
Qed.

Lemma post_new_leaf (attribsRaw : string) (st : parser) :
  ok txt o st -> post txt o (fun _ st' => st' = st) (XML.new_leaf attribsRaw st).
Proof.
  intros H. unfold XML.new_leaf, bind, this.
  destruct (preserveAttributes _); [|simpl; auto].
  destruct (write _ _ _); [|exact I].
  destruct (numKeys _ =? 0)%nat; simpl; auto.
Qed.

Lemma post_compress (c : copy) (leaf : hash) (st : parser) :
  ok txt o st -> post txt o (fun _ st' => st' = st) (XML.compress c leaf st).
Proof.
  intros H. unfold XML.compress, bind, this.
  destruct (read _ leaf) as [v| |]; cbn [andb];
    destruct (numKeys leaf =? 1)%nat; cbn [andb];
    destruct c; try destruct (numKeys leaf =? 0)%nat; simpl; auto.
Qed.

Lemma post_attach (top : bool) (nodeName : string) (leaf : node)
    (branch : hash) (st : parser) :
  ok txt o st ->
  post txt o (fun _ st' => st' = st) (XML.attach top nodeName leaf branch st).
Proof.
  intros H. unfold XML.attach, bind, this.
  destruct (read _ branch) as [[]| |]; try destruct (forceArrays _ && negb top);
    simpl; auto.
Qed.

End Steps.

(** ** Every run ends, and an error is always thrown *)

Lemma toLowerCase_empty (s : string) : toLowerCase s = "" -> s = "".
Proof. destruct s; simpl; [reflexivity|discriminate]. Qed.

Lemma patStandardTag_name (tag : string) (closing : bool) (name rest : string) :
  patStandardTag tag = Some (closing, name, rest) -> name <> "".
Proof.
  unfold patStandardTag.
  destruct (match skip_spaces tag with
            | String "/" r => (true, r)
            | _ => (false, skip_spaces tag)
            end) as [cl s1].
  destruct (span is_name_char s1) as [n s2].
  destruct (String.eqb_spec n "") as [->|N]; [discriminate|].
  intros H; injection H as _ <- _. exact N.
Qed.

Section Run.

Variables (txt : string) (o : options).

Lemma post_parse_finish_child (name : string) (r : hash * bool) (st : parser) :
  ok txt o st -> name <> "" ->
  post txt o (fun _ st' => snd r = true /\ st' = st)
    (XML.parse_finish false (Some name) r st).
Proof.
  intros H N. unfold XML.parse_finish. destruct r as [branch found].
  cbn [XML.name_or_empty XML.name_text snd].
  destruct (String.eqb_spec name "") as [->|_]; [congruence|]. cbn [negb andb].
  destruct found; cbn [negb].
  - eapply post_bind; [apply post_ret with (Q := fun _ st' => st' = st); auto|].
    intros ? ? _ ->. now apply post_ret.
  - eapply post_bind; [now apply post_throwParseError with (Q := fun _ _ => False)|].
    intros ? ? _ [].
Qed.

Lemma post_set_document (name : option string) (t : node) (st : parser) :
  ok txt o st ->
  post txt o (fun _ st' => tree st' = t /\ documentNodeName st' = name)
    (set_document name t st).
Proof.
  intros (A & B & C & D). unfold set_document, post, ok. cbn. repeat split; auto.
Qed.

Lemma post_parse_finish_top (r : hash * bool) (st : parser) :
  ok txt o st ->
  post txt o (fun _ _ => True) (XML.parse_finish true None r st).
Proof.
  intros H. unfold XML.parse_finish. destruct r as [branch found].
  cbn [XML.name_or_empty String.eqb negb andb].
  eapply post_bind; [apply post_ret with (Q := fun _ st' => st' = st); auto|].
  intros ? ? _ ->.
  eapply post_bind; [now apply post_this|]. intros ? ? _ [-> ->].
  destruct (1 <? numKeys _)%nat.
  { destruct (firstKey _); [now apply post_throwParseError|exact I]. }
  destruct (firstKey _) as [k|].
  - destruct (negb (String.eqb k "") && negb (preserveDocumentNode (opts st))).
    + destruct (get k _); [|exact I].
      eapply post_bind; [now apply post_set_document|].
      intros ? st' H' _. now apply post_ret.
    + eapply post_bind; [now apply post_set_document|].
      intros ? st' H' _. now apply post_ret.
  - eapply post_bind; [now apply post_set_document|].
    intros ? st' H' _. now apply post_ret.
Qed.

(** One round of the loop, when the nested call and the rounds that follow
    behave: the cursor has moved on when the closing tag is found. *)
Lemma post_loop_body (c : copy)
    (child : string -> hash -> M hash) (next : hash -> M (hash * bool))
    (top : bool) (name : option string) (branch : hash) (st : parser) :
  ok txt o st ->
  (forall n leaf st1,
      n <> "" -> ok txt o st1 -> lastIndex st < lastIndex st1 ->
      post txt o (fun _ st' => lastIndex st1 <= lastIndex st') (child n leaf st1)) ->
  (forall b st1,
      ok txt o st1 -> lastIndex st < lastIndex st1 ->
      post txt o (fun r st' => snd r = true -> lastIndex st1 <= lastIndex st')
        (next b st1)) ->
  post txt o (fun r st' => snd r = true -> lastIndex st <= lastIndex st')
    (XML.loop_body c child next top name branch st).
Proof.
  intros H Hchild Hnext. unfold XML.loop_body.
  assert (Hnext' : forall b st1,
             ok txt o st1 -> lastIndex st < lastIndex st1 ->
             post txt o (fun r st' => snd r = true -> lastIndex st <= lastIndex st')
               (next b st1)).
  { intros b st1 H1 L. eapply post_weaken; [now apply Hnext|].
    cbn beta. intros a st' _ Q F. specialize (Q F). lia. }
  eapply post_bind; [now apply post_this|]. intros ? ? _ [-> ->].
  pose proof H as (Ht & Ho & He & Hl).
  destruct (patTag_exec (text st) (lastIndex st)) as [[[before tag] index]|] eqn:E.
  2:{ eapply post_bind; [apply post_set_lastIndex; [exact H|lia]|].
      intros ? st' H' _. apply post_ret; [exact H'|]. discriminate. }
  apply patTag_exec_bounds in E; [|now rewrite Ht]. rewrite Ht in E.
  eapply post_bind; [apply post_set_lastIndex; [exact H|lia]|].
  intros ? st1 H1 E1. cbn beta in E1.
  eapply post_bind with (Q := fun _ st' => st' = st1).
  { destruct (patNonSpace before); [now apply post_add_data|now apply post_ret]. }
  intros branch1 ? _ ->.
  destruct (patSpecialTag tag).
  - destruct (patPITag tag).
    { eapply post_bind; [now apply post_parsePINode|].
      intros ? st2 H2 E2. cbn beta in E2. apply Hnext'; [exact H2|lia]. }
    destruct (patCommentTag tag).
    { eapply post_bind; [now apply post_parseCommentNode|].
      intros ? st2 H2 E2. cbn beta in E2. apply Hnext'; [exact H2|lia]. }
    destruct (patDTDTag tag).
    { eapply post_bind; [now apply post_parseDTDNode|].
      intros ? st2 H2 E2. cbn beta in E2. apply Hnext'; [exact H2|lia]. }
    destruct (patCDATATag tag); [|now apply post_throwParseError].
    eapply post_bind; [now apply post_parseCDATANode|].
    intros payload st2 H2 E2. cbn beta in E2.
    eapply post_bind; [now apply post_add_data|].
    intros branch2 ? _ ->. apply Hnext'; [exact H2|lia].
  - destruct (patStandardTag tag) as [[[closing matches2] attribsRaw]|] eqn:T;
      [|now apply post_throwParseError].
    apply patStandardTag_name in T.
    set (nodeName := if lowerCase (opts st) then toLowerCase matches2 else matches2).
    assert (N : nodeName <> "").
    { unfold nodeName. destruct (lowerCase (opts st)); [|exact T].
      intros Z. now apply toLowerCase_empty in Z. }
    destruct closing.
    { destruct (String.eqb nodeName (XML.name_or_empty name)).
      - apply post_ret; [exact H1|]. intros _. lia.
      - now apply post_throwParseError. }
    eapply post_bind; [now apply post_new_leaf|].
    intros leaf ? _ ->.
    eapply post_bind with (Q := fun _ st' => lastIndex st1 <= lastIndex st').
    { destruct (negb (patSelfClosing attribsRaw)).
      - apply Hchild; [exact N|exact H1|lia].
      - apply post_ret; [exact H1|]. cbn beta. lia. }
    intros leaf1 st2 H2 E2. cbn beta in E2.
    eapply post_bind; [now apply post_this|]. intros ? ? _ [-> ->].
    destruct (negb (patSelfClosing attribsRaw) && negb (XML.error st2 =? 0)%nat).
    { apply post_ret; [exact H2|]. discriminate. }
    eapply post_bind; [now apply post_compress|]. intros leaf2 ? _ ->.
    eapply post_bind; [now apply post_attach|]. intros branch2 ? _ ->.
    eapply post_bind; [now apply post_this|]. intros ? ? _ [-> ->].
    destruct (negb (XML.error st2 =? 0)%nat || top).
    + apply post_ret; [exact H2|]. discriminate.
    + apply Hnext'; [exact H2|lia].
Qed.

(** The loop with fuel for the text that is left. *)
Lemma post_parse_loop (c : copy) (fuel : nat) :
  forall top name branch st,
    ok txt o st ->
    length txt - lastIndex st < fuel ->
    post txt o (fun r st' => snd r = true -> lastIndex st <= lastIndex st')
      (XML.parse_loop c fuel top name branch st).
Proof.
  induction fuel as [|fuel IH]; intros top name branch st H F; [lia|].
  cbn [XML.parse_loop]. pose proof H as (_ & _ & _ & L).
  apply post_loop_body; [exact H| |].
  - intros n leaf st1 N H1 L1. pose proof H1 as (_ & _ & _ & L1').
    eapply post_bind; [apply IH; [exact H1|lia]|].
    intros r st2 H2 Q.
    eapply post_weaken; [now apply post_parse_finish_child|].
    cbn beta. intros ? st3 _ [Q1 ->]. auto.
  - intros b st1 H1 L1. pose proof H1 as (_ & _ & _ & L1').
    apply IH; [exact H1|lia].
Qed.

End Run.

(** The fuel that [new XML] gives to the first call of [parse] is enough,
    in both copies and for every text and all options: the run returns
    with no error recorded, or throws the text of the one error that it
    recorded, or leaves the model. *)
Lemma parse_total (c : copy) (txt : string) (o : options) :
  XML.create c txt o <> OutOfFuel
  /\ match XML.create c txt o with
     | Done _ st => errors st = []
     | Thrown msg st => (exists e, errors st = [e]) /\ msg = XML.getLastError st
     | _ => True
     end.
Proof.
  unfold XML.create.
  set (o' := if lowerCase o then _ else o).
  set (st := {| text := txt; opts := o'; tree := Element []; errors := [];
                piNodeList := []; dtdNodeList := [];
                documentNodeName := Some ""; lastIndex := 0 |}).
  destruct (String.eqb txt ""); [split; [discriminate|reflexivity]|].
  assert (H : ok txt o' st) by (repeat split; simpl; lia).
  assert (P : post txt o' (fun _ _ => True)
                ((XML.parse c (S (length txt)) true None [] ;;; ret tt) st)).
  { eapply post_bind.
    - unfold XML.parse. eapply post_bind.
      + apply post_parse_loop; [exact H|simpl; lia].
      + intros r st1 H1 _. now apply post_parse_finish_top.
    - intros ? st1 H1 _. now apply post_ret. }
  destruct ((XML.parse c (S (length txt)) true None [] ;;; ret tt) st)
    as [a st'|msg st'| |]; simpl in P.
  - split; [discriminate|]. now destruct P as [(_ & _ & E & _) _].
  - split; [discriminate|exact P].
  - split; [discriminate|exact I].
  - destruct P.
Qed.

(** ** The entry point *)

(** C6, as the specification states it, fails: on the text [<a>], whose
    tag is never closed, the entry point returns nothing; the error leaves
    it as an exception. *)
Lemma failed_parse_does_not_return :
  returned (parse XmlJs "<a>" default_options) = None
  /\ thrown (parse XmlJs "<a>" default_options)
     = Some "Parse Error: Missing closing tag (expected </a>) on line 1: <a>".
Proof. vm_compute. split; reflexivity. Qed.

(** C6, amended.  For every text and all options, in both copies: when the
    parser records an error, the entry point throws, and the message of the
    exception is the formatted last error, which is the only one recorded;
    when the entry point returns, no error is recorded and the value is the
    tree.  So the entry point never returns the text of an error, and the
    fuel of the model is never used up. *)
Theorem parse_throws_its_errors (c : copy) (txt : string) (o : options) :
  match parse c txt o with
  | Done v st => errors st = [] /\ v = XML.getTree st
  | Thrown msg st =>
      (exists e, errors st = [e] /\ msg = XML.getError (Some e))
      /\ msg = XML.getLastError st
  | Unmodelled => True
  | OutOfFuel => False
  end.
Proof.
  unfold parse. destruct (parse_total c txt o) as [F P].
  destruct (XML.create c txt o) as [a st|msg st| |].
  - split; [exact P|]. unfold XML.error. now rewrite P.
  - destruct P as [[e E] ->]. split; [|reflexivity].
    exists e. split; [exact E|].
    apply (getLastError_last st []). exact E.
  - exact I.
  - congruence.
Qed.

(** ** The two copies side by side *)

(** Induction on nodes, through the entries of a hash and the items of an
    array. *)
Section NodeInduction.

Variable P : node -> Prop.
Hypothesis P_text : forall s, P (Text s).
Hypothesis P_element : forall h, Forall (fun e => P (snd e)) h -> P (Element h).
Hypothesis P_sequence : forall l, Forall P l -> P (Sequence l).

Fixpoint node_induction (v : node) : P v :=
  match v with
  | Text s => P_text s
  | Element h =>
      P_element h
        ((fix entries (h : hash) : Forall (fun e => P (snd e)) h :=
            match h with
            | [] => Forall_nil _
            | (k, child) :: h' =>
                Forall_cons (k, child) (node_induction child) (entries h')
            end) h)
  | Sequence l =>
      P_sequence l
        ((fix items (l : list node) : Forall P l :=
            match l with
            | [] => Forall_nil _
            | child :: l' => Forall_cons child (node_induction child) (items l')
            end) l)
  end.

End NodeInduction.

Lemma erase_refl (s : string) : erase s s.
Proof. induction s; constructor; auto. Qed.

Lemma erase_app (a b c d : string) : erase a b -> erase c d -> erase (a ++ c) (b ++ d).
Proof.
  intros H K. induction H.
  - exact K.
  - cbn [append]. now constructor.
  - rewrite append_assoc. now constructor.
Qed.

Lemma erase_join (sep : string) (l1 l2 : list string) :
  Forall2 erase l1 l2 -> erase (join sep l1) (join sep l2).
Proof.
  unfold join. induction 1 as [|a b l1 l2 H F IH]; [constructor|].
  cbn [String.concat]. destruct F as [|a' b' l1' l2' H' F'].
  - exact H.
  - apply erase_app; [exact H|]. apply erase_app; [apply erase_refl|exact IH].
Qed.

Lemma similar_hash_keys (h1 h2 : hash) : similar_hash h1 h2 -> keys h1 = keys h2.
Proof.
  unfold keys. induction 1 as [|[k1 v1] [k2 v2] h1 h2 [E _] F IH]; simpl in *;
    congruence.
Qed.

(** Similar nodes become strings together, and the strings differ by
    erased hashes only. *)
Lemma similar_primitive (v1 : node) :
  forall v2, similar v1 v2 ->
  match to_primitive v1, to_primitive v2 with
  | Some a, Some b => erase a b
  | None, None => True
  | _, _ => False
  end.
Proof.
  induction v1 as [s1|h1 IH|l1 IH] using node_induction; intros v2 S;
    inversion S; subst; cbn [to_primitive].
  - assumption.
  - cbn. apply (erase_drop "" ""). constructor.
  - match goal with F : Forall2 _ h1 _ |- _ =>
      rewrite <- (similar_hash_keys _ _ F) end.
    destruct (existsb _ (keys h1)); [exact I|apply erase_refl].
  - match goal with F0 : Forall2 similar l1 _ |- _ => revert F0 end. intros F.
    assert (G : match sequence_options (map to_primitive l1),
                      sequence_options (map to_primitive l2) with
                | Some p1, Some p2 => Forall2 erase p1 p2
                | None, None => True
                | _, _ => False
                end).
    { clear S. induction F as [|x y l1 l2 Hxy F IHF]; [constructor|].
      inversion IH as [|? ? Hx Hl]; subst. specialize (Hx _ Hxy).
      cbn [map sequence_options].
      destruct (to_primitive x), (to_primitive y); try contradiction; [|exact I].
      specialize (IHF Hl).
      destruct (sequence_options (map to_primitive l1)),
               (sequence_options (map to_primitive l2)); try contradiction;
        [|exact I].
      now constructor. }
    destruct (sequence_options (map to_primitive l1)),
             (sequence_options (map to_primitive l2)); try contradiction;
      [|exact I].
    now apply erase_join.
Qed.

Lemma similar_hash_get (k : string) (h1 h2 : hash) :
  similar_hash h1 h2 ->
  match get k h1, get k h2 with
  | Some v1, Some v2 => similar v1 v2
  | None, None => True
  | _, _ => False
  end.
Proof.
  induction 1 as [|[k1 v1] [k2 v2] h1 h2 [E S] F IH]; simpl in *; [exact I|].
  subst k2. destruct (String.eqb k k1); [exact S|exact IH].
Qed.

Lemma similar_hash_set (k : string) (v1 v2 : node) (h1 h2 : hash) :
  similar_hash h1 h2 -> similar v1 v2 ->
  similar_hash (set k v1 h1) (set k v2 h2).
Proof.
  intros F S. induction F as [|[k1 w1] [k2 w2] h1 h2 [E Sw] F IH]; simpl in *.
  - constructor; [split; auto|constructor].
  - subst k2. destruct (String.eqb k k1); constructor; auto; split; auto.
Qed.

Lemma similar_hash_delete (k : string) (h1 h2 : hash) :
  similar_hash h1 h2 -> similar_hash (delete k h1) (delete k h2).
Proof.
  induction 1 as [|[k1 w1] [k2 w2] h1 h2 [E Sw] F IH]; simpl in *; [constructor|].
  subst k2. destruct (String.eqb k k1); [exact IH|]. constructor; auto.
Qed.

Lemma similar_hash_numKeys (h1 h2 : hash) :
  similar_hash h1 h2 -> numKeys h1 = numKeys h2.
Proof. unfold numKeys. induction 1; simpl; congruence. Qed.

Lemma similar_hash_firstKey (h1 h2 : hash) :
  similar_hash h1 h2 -> firstKey h1 = firstKey h2.
Proof. destruct 1 as [|[k1 v1] [k2 v2] h1 h2 [E _] _]; simpl in *; congruence. Qed.

Lemma similar_hash_read (k : string) (h1 h2 : hash) :
  similar_hash h1 h2 ->
  match read k h1, read k h2 with
  | Own v1, Own v2 => similar v1 v2
  | Undefined, Undefined => True
  | Inherited, Inherited => True
  | _, _ => False
  end.
Proof.
  intros F. pose proof (similar_hash_get k _ _ F) as G. unfold read.
  destruct (get k h1), (get k h2); try contradiction; [exact G|].
  destruct (inherited k); exact I.
Qed.

Lemma all_text_similar (h : hash) : all_text h -> similar_hash h h.
Proof.
  induction 1 as [|[k v] h [s E] F IH]; constructor; auto.
  simpl in *. subst v. split; [reflexivity|]. constructor. apply erase_refl.
Qed.

Lemma all_text_set (k : string) (s : string) (h : hash) :
  all_text h -> all_text (set k (Text s) h).
Proof.
  induction 1 as [|[k1 v1] h E F IH]; simpl.
  - constructor; [now exists s|constructor].
  - destruct (String.eqb k k1); constructor; auto. now exists s.
Qed.

Lemma all_text_add_attribs (o : options) (attribsRaw : string) (h : hash) :
  all_text h -> all_text (XML.add_attribs o attribsRaw h).
Proof.
  unfold XML.add_attribs. generalize (patAttrib_all 0 attribsRaw). intros l.
  revert h. induction l as [|m l IH]; intros h H; simpl; [exact H|].
  apply IH. destruct (String.eqb _ "__proto__"); [exact H|].
  now apply all_text_set.
Qed.

Lemma sim_bind {A B : Type} (R : A -> A -> Prop) (R' : B -> B -> Prop)
    (m1 m2 : M A) (f1 f2 : A -> M B) (st : parser) :
  sim_outcome R (m1 st) (m2 st) ->
  (forall a1 a2 st', R a1 a2 -> sim_outcome R' (f1 a1 st') (f2 a2 st')) ->
  sim_outcome R' (bind m1 f1 st) (bind m2 f2 st).
Proof.
  unfold bind, sim_outcome.
  destruct (m1 st), (m2 st); try contradiction; auto.
  intros [H ->] K. now apply K.
Qed.

Lemma sim_same {A : Type} (m : M A) (st : parser) : sim_outcome eq (m st) (m st).
Proof. unfold sim_outcome. destruct (m st); auto. Qed.

Lemma sim_throw {A : Type} (R : A -> A -> Prop) (key tag : string) (st : parser) :
  sim_outcome R (XML.throwParseError key tag st) (XML.throwParseError key tag st).
Proof. unfold XML.throwParseError, bind, this, push_error. simpl. auto. Qed.

Lemma sim_add_data (s : string) (b1 b2 : hash) (st : parser) :
  similar_hash b1 b2 ->
  sim_outcome similar_hash (XML.add_data s b1 st) (XML.add_data s b2 st).
Proof.
  intros F. unfold XML.add_data, bind, this.
  pose proof (similar_hash_read (dataKey (opts st)) _ _ F) as R.
  destruct (read _ b1) as [v1| |], (read _ b2) as [v2| |]; try contradiction.
  - pose proof (similar_primitive _ _ R) as P.
    destruct (to_primitive v1), (to_primitive v2); try contradiction; [|exact I].
    split; [|reflexivity]. apply similar_hash_set; [exact F|].
    constructor. apply erase_app; [|apply erase_refl].
    apply erase_app; [exact P|apply erase_refl].
  - split; [|reflexivity]. apply similar_hash_set; [exact F|].
    constructor. apply erase_refl.
  - exact I.
Qed.

Lemma sim_new_leaf (attribsRaw : string) (st : parser) :
  sim_outcome similar_hash (XML.new_leaf attribsRaw st) (XML.new_leaf attribsRaw st).
Proof.
  unfold XML.new_leaf, bind, this.
  assert (T : all_text (XML.add_attribs (opts st) attribsRaw []))
    by (apply all_text_add_attribs; constructor).
  destruct (preserveAttributes (opts st)).
  - unfold write. destruct (String.eqb (attribsKey (opts st)) "__proto__"); [exact I|].
    destruct (numKeys _ =? 0)%nat eqn:N; (split; [|reflexivity]).
    + cbn [set delete]. rewrite String.eqb_refl. constructor.
    + cbn [set]. rewrite String.eqb_refl. constructor; [|constructor].
      split; [reflexivity|]. cbn [snd]. constructor.
      * intros Z. rewrite Z in N. discriminate.
      * now apply all_text_similar.
  - split; [|reflexivity]. now apply all_text_similar.
Qed.

Lemma sim_compress (l1 l2 : hash) (st : parser) :
  similar_hash l1 l2 ->
  sim_outcome similar (XML.compress XmlJs l1 st) (XML.compress Part000 l2 st).
Proof.
  intros F. unfold XML.compress, bind, this.
  pose proof (similar_hash_read (dataKey (opts st)) _ _ F) as R.
  rewrite <- (similar_hash_numKeys _ _ F).
  destruct (read _ l1) as [v1| |], (read _ l2) as [v2| |]; try contradiction;
    cbn [andb]; destruct (numKeys l1 =? 1)%nat eqn:N1; cbn [andb];
    try exact I; try (split; [exact R|reflexivity]);
    (destruct (numKeys l1 =? 0)%nat eqn:N0; split; try reflexivity;
     [ destruct l1; [|discriminate]; inversion F; subst; constructor
     | constructor; [intros Z; now rewrite Z in N0|exact F] ]).
Qed.

Lemma sim_attach (top : bool) (nodeName : string) (v1 v2 : node)
    (b1 b2 : hash) (st : parser) :
  similar v1 v2 -> similar_hash b1 b2 ->
  sim_outcome similar_hash (XML.attach top nodeName v1 b1 st)
    (XML.attach top nodeName v2 b2 st).
Proof.
  intros S F. unfold XML.attach, bind, this.
  pose proof (similar_hash_read nodeName _ _ F) as R.
  destruct (read _ b1) as [w1| |], (read _ b2) as [w2| |]; try contradiction.
  - inversion R; subst; (split; [|reflexivity]); apply similar_hash_set; auto;
      constructor.
    + constructor; [now constructor|]. constructor; [exact S|constructor].
    + constructor; [constructor|]. constructor; [exact S|constructor].
    + constructor; [now constructor|]. constructor; [exact S|constructor].
    + apply Forall2_app; [assumption|]. constructor; [exact S|constructor].
  - destruct (forceArrays (opts st) && negb top); (split; [|reflexivity]);
      apply similar_hash_set; auto.
    constructor. constructor; [exact S|constructor].
  - exact I.
Qed.

Lemma sim_parse_finish_child (name : option string) (r1 r2 : hash * bool)
    (st : parser) :
  similar_result r1 r2 ->
  sim_outcome similar_hash (XML.parse_finish false name r1 st)
    (XML.parse_finish false name r2 st).
Proof.
  destruct r1 as [b1 f1], r2 as [b2 f2]. intros [F E]. simpl in F, E. subst f2.
  unfold XML.parse_finish.
  eapply sim_bind with (R := eq).
  - destruct (_ && negb f1); [apply sim_throw|apply sim_same].
  - intros ? ? st' _. simpl. auto.
Qed.

(** One round of the loop in the two copies. *)
Lemma sim_loop_body
    (child1 child2 : string -> hash -> M hash)
    (next1 next2 : hash -> M (hash * bool))
    (top : bool) (name : option string) (b1 b2 : hash) (st : parser) :
  similar_hash b1 b2 ->
  (forall n l1 l2 st', similar_hash l1 l2 ->
      sim_outcome similar_hash (child1 n l1 st') (child2 n l2 st')) ->
  (forall c1 c2 st', similar_hash c1 c2 ->
      sim_outcome similar_result (next1 c1 st') (next2 c2 st')) ->
  sim_outcome similar_result
    (XML.loop_body XmlJs child1 next1 top name b1 st)
    (XML.loop_body Part000 child2 next2 top name b2 st).
Proof.
  intros F Hchild Hnext. unfold XML.loop_body.
  eapply sim_bind; [apply sim_same|]. intros st0 ? st1 <-. clear st.
  destruct (patTag_exec (text st0) (lastIndex st0)) as [[[before tag] index]|].
  2:{ eapply sim_bind; [apply sim_same|]. intros ? ? st' _.
      simpl. repeat split; auto. }
  eapply sim_bind; [apply sim_same|]. intros ? ? st2 _.
  eapply sim_bind with (R := similar_hash).
  { destruct (patNonSpace before); [now apply sim_add_data|].
    simpl. auto. }
  intros c1 c2 st3 F3.
  destruct (patSpecialTag tag).
  - destruct (patPITag tag).
    { eapply sim_bind; [apply sim_same|]. intros ? ? st' _. now apply Hnext. }
    destruct (patCommentTag tag).
    { eapply sim_bind; [apply sim_same|]. intros ? ? st' _. now apply Hnext. }
    destruct (patDTDTag tag).
    { eapply sim_bind; [apply sim_same|]. intros ? ? st' _. now apply Hnext. }
    destruct (patCDATATag tag); [|apply sim_throw].
    eapply sim_bind; [apply sim_same|]. intros payload ? st' <-.
    eapply sim_bind; [now apply sim_add_data|]. intros d1 d2 st'' F'.
    now apply Hnext.
  - destruct (patStandardTag tag) as [[[closing matches2] attribsRaw]|];
      [|apply sim_throw].
    destruct closing.
    { destruct (String.eqb _ (XML.name_or_empty name)); [|apply sim_throw].
      simpl. repeat split; auto. }
    eapply sim_bind; [apply sim_new_leaf|]. intros l1 l2 st4 L.
    eapply sim_bind with (R := similar_hash).
    { destruct (negb (patSelfClosing attribsRaw)); [now apply Hchild|].
      simpl. auto. }
    intros m1 m2 st5 L'.
    eapply sim_bind; [apply sim_same|]. intros st6 ? st7 <-.
    destruct (negb (patSelfClosing attribsRaw) && negb (XML.error st6 =? 0)%nat).
    { simpl. repeat split; auto. }
    eapply sim_bind; [now apply sim_compress|]. intros v1 v2 st8 S.
    eapply sim_bind; [now apply sim_attach|]. intros d1 d2 st9 F'.
    eapply sim_bind; [apply sim_same|]. intros st10 ? st11 <-.
    destruct (negb (XML.error st10 =? 0)%nat || top).
    + simpl. repeat split; auto.
    + now apply Hnext.
Qed.

Lemma sim_parse_loop (fuel : nat) :
  forall top name b1 b2 st,
    similar_hash b1 b2 ->
    sim_outcome similar_result
      (XML.parse_loop XmlJs fuel top name b1 st)
      (XML.parse_loop Part000 fuel top name b2 st).
Proof.
  induction fuel as [|fuel IH]; intros top name b1 b2 st F; [exact I|].
  cbn [XML.parse_loop]. apply sim_loop_body; [exact F| |].
  - intros n l1 l2 st' L. eapply sim_bind; [now apply IH|].
    intros r1 r2 st'' R. now apply sim_parse_finish_child.
  - intros c1 c2 st' F'. now apply IH.
Qed.

Lemma sim_parse_finish_top (r1 r2 : hash * bool) (st : parser) :
  similar_result r1 r2 ->
  match XML.parse_finish true None r1 st, XML.parse_finish true None r2 st with
  | Done _ st1, Done _ st2 => same_but_tree st1 st2
  | Thrown m1 st1, Thrown m2 st2 => m1 = m2 /\ st1 = st2
  | Unmodelled, Unmodelled => True
  | _, _ => False
  end.
Proof.
  destruct r1 as [b1 f1], r2 as [b2 f2]. intros [F E]. simpl in F, E. subst f2.
  unfold XML.parse_finish, bind, ret, this.
  cbn [XML.name_or_empty String.eqb negb andb].
  pose proof (similar_hash_delete (dataKey (opts st)) _ _ F) as D.
  rewrite <- (similar_hash_numKeys _ _ D), <- (similar_hash_firstKey _ _ D).
  destruct (1 <? numKeys _)%nat.
  { destruct (firstKey _); [|exact I].
    unfold XML.throwParseError, bind, this, push_error. simpl. auto. }
  destruct (firstKey (delete (dataKey (opts st)) b1)) as [k|] eqn:K.
  - destruct (negb (String.eqb k "") && negb (preserveDocumentNode (opts st))).
    + pose proof (similar_hash_get k _ _ D) as G.
      destruct (get k (delete _ b1)), (get k (delete _ b2)); try contradiction;
        [|exact I].
      unfold set_document, same_but_tree. simpl. repeat split. now left.
    + unfold set_document, same_but_tree. simpl. repeat split. left.
      constructor; [|exact D]. intros Z. rewrite Z in K. discriminate.
  - unfold set_document, same_but_tree. simpl. repeat split. right.
    destruct (delete _ b1); [|destruct p; discriminate].
    inversion D; subst. auto.
Qed.

(** C9, as the specification states it, fails: for the text [<a/>] the
    copy [XmlJs] returns the empty hash and the copy [Part000] the empty
    string; and for [<a><_Data/>text</a>] the strings differ as well. *)
Lemma copies_differ_on_empty_element :
  returned (parse XmlJs "<a/>" default_options)
  <> returned (parse Part000 "<a/>" default_options)
  /\ returned (parse XmlJs "<a><_Data/>text</a>" default_options)
     <> returned (parse Part000 "<a><_Data/>text</a>" default_options).
Proof. vm_compute. split; discriminate. Qed.

(** C9, amended.  For every text and all options the two copies end in
    the same way: both return, both throw the same message, or both leave
    the model.  When they return, they have the same document name and the
    same lists of processing instructions and DTDs, and their trees are
    similar: they differ only where a leaf without keys is the empty hash
    in one copy and the empty string in the other, and in the strings that
    were concatenated onto such a leaf. *)
Theorem copies_agree_up_to_empty_leaves (txt : string) (o : options) :
  match parse XmlJs txt o, parse Part000 txt o with
  | Done v1 st1, Done v2 st2 =>
      similar_tree v1 v2
      /\ errors st1 = errors st2
      /\ piNodeList st1 = piNodeList st2
      /\ dtdNodeList st1 = dtdNodeList st2
      /\ documentNodeName st1 = documentNodeName st2
  | Thrown m1 st1, Thrown m2 st2 => m1 = m2 /\ errors st1 = errors st2
  | Unmodelled, Unmodelled => True
  | _, _ => False
  end.
Proof.
  pose proof (parse_total XmlJs txt o) as [F1 P1].
  pose proof (parse_total Part000 txt o) as [F2 P2].
  unfold parse. revert F1 P1 F2 P2. unfold XML.create.
  set (o' := if lowerCase o then _ else o).
  set (st := {| text := txt; opts := o'; tree := Element []; errors := [];
                piNodeList := []; dtdNodeList := [];
                documentNodeName := Some ""; lastIndex := 0 |}).
  destruct (String.eqb txt "").
  { intros _ _ _ _. simpl. repeat split. now right. }
  unfold XML.parse, bind, ret.
  pose proof (sim_parse_loop (S (length txt)) true None [] [] st
                (Forall2_nil _)) as L.
  destruct (XML.parse_loop XmlJs _ true None [] st) as [r1 s1|m1 s1| |],
           (XML.parse_loop Part000 _ true None [] st) as [r2 s2|m2 s2| |];
    try contradiction; simpl in L.
  - destruct L as [R <-].
    pose proof (sim_parse_finish_top r1 r2 s1 R) as T.
    destruct (XML.parse_finish true None r1 s1) as [? t1|? t1| |],
             (XML.parse_finish true None r2 s1) as [? t2|? t2| |];
      try contradiction.
    + intros _ E1 _ E2. unfold XML.error, XML.getTree. rewrite E1, E2. simpl.
      destruct T as (_ & _ & _ & Tp & Td & Tn & _ & Tt). auto.
    + intros _ _ _ _. destruct T as [-> ->]. auto.
    + auto.
  - intros _ _ _ _. destruct L as [-> ->]. auto.
  - auto.
Qed.

(** ** Scanning the text of a tree *)

Ltac all_chars c := destruct c as [[] [] [] [] [] [] [] []].

Lemma space_facts (c : ascii) :
  is_space c = true ->
  Ascii.eqb "<" c = false /\ is_name_char c = false.
Proof. all_chars c; vm_compute; intros H; try discriminate H; auto. Qed.

Lemma name_char_facts (c : ascii) :
  is_name_char c = true ->
  is_space c = false /\ Ascii.eqb c ">" = false /\ Ascii.eqb ">" c = false
  /\ Ascii.eqb c "/" = false /\ Ascii.eqb c "=" = false
  /\ Ascii.eqb c "!" = false /\ Ascii.eqb c "?" = false.
Proof. all_chars c; vm_compute; intros H; try discriminate H; repeat split. Qed.

Lemma word_name_char (c : ascii) : is_word c = true -> is_name_char c = true.
Proof. unfold is_name_char. now intros ->. Qed.

Lemma drop_app (a b : string) : drop (length a) (a ++ b) = b.
Proof. induction a; simpl; auto. Qed.

Lemma blank_app (a b : string) : blank (a ++ b) = blank a && blank b.
Proof.
  unfold blank. induction a as [|c a IH]; simpl; [reflexivity|].
  now rewrite IH, andb_assoc.
Qed.

Lemma blank_no_tag (ws : string) : blank ws = true -> has "<" ws = false.
Proof.
  unfold blank, has.
  induction ws as [|c ws IH]; cbn [forall_chars exists_char]; [reflexivity|].
  intros H. apply andb_true_iff in H as [Hc Hw].
  apply space_facts in Hc as [-> _]. now apply IH.
Qed.

Lemma blank_patNonSpace (ws : string) : blank ws = true -> patNonSpace ws = false.
Proof.
  unfold blank, patNonSpace. induction ws as [|c ws IH]; simpl; [reflexivity|].
  intros H. apply andb_true_iff in H as [-> Hw]. now apply IH.
Qed.

Lemma has_app (a : ascii) (x y : string) : has a (x ++ y) = has a x || has a y.
Proof. apply exists_char_app. Qed.

Lemma split_at_app (a : ascii) (x y : string) :
  has a x = false -> split_at a (x ++ String a y) = Some (x, y).
Proof.
  unfold has. induction x as [|c x IH]; cbn [exists_char split_at append].
  - now rewrite Ascii.eqb_refl.
  - intros H. apply orb_false_iff in H as [Hc Hx].
    rewrite Ascii.eqb_sym, Hc, IH; auto.
Qed.

Lemma patTag_from_at (s : string) (m : string * string * string) :
  patTag_at s = Some m -> patTag_from s = Some m.
Proof. intros H. destruct s; cbn [patTag_from]; now rewrite H. Qed.

(** The tag scanner on a text that goes on with white space and a tag. *)
Lemma patTag_exec_at (pre ws tag rest : string) :
  has "<" ws = false -> has ">" tag = false -> tag <> "" ->
  patTag_exec (pre ++ ws ++ "<" ++ tag ++ ">" ++ rest) (length pre)
  = Some (ws, tag, length (pre ++ ws ++ "<" ++ tag ++ ">")).
Proof.
  intros W T N. unfold patTag_exec. rewrite drop_app.
  rewrite (patTag_from_at _ (ws, tag, rest)).
  - f_equal. f_equal. rewrite !length_append. simpl. lia.
  - unfold patTag_at. cbn [append]. rewrite split_at_app by exact W.
    rewrite split_at_app by exact T. destruct tag; [congruence|reflexivity].
Qed.

(** Names. *)
Lemma span_all (p : ascii -> bool) (k t : string) :
  forall_chars p k = true ->
  match t with String c _ => p c = false | "" => True end ->
  span p (k ++ t) = (k, t).
Proof.
  intros K T. induction k as [|c k IH]; simpl in *.
  - destruct t as [|c t]; [reflexivity|]. simpl. now rewrite T.
  - apply andb_true_iff in K as [-> K]. now rewrite IH.
Qed.

Lemma skip_spaces_none (s : string) :
  match s with String c _ => is_space c = false | "" => True end ->
  skip_spaces s = s.
Proof.
  unfold skip_spaces. destruct s as [|c s]; [reflexivity|].
  simpl. now intros ->.
Qed.

Lemma skip_spaces_blank (ws s : string) :
  blank ws = true ->
  match s with String c _ => is_space c = false | "" => True end ->
  skip_spaces (ws ++ s) = s.
Proof.
  intros W S. unfold skip_spaces. now rewrite (span_all is_space ws s W).
Qed.

Lemma valid_name_chars (k : string) :
  re_valid_tag_name k = true ->
  forall_chars is_name_char k = true /\ k <> ""
  /\ match k with String c _ => is_space c = false | "" => True end
  /\ patSpecialTag k = false.
Proof.
  destruct k as [|c k]; [discriminate|]. cbn [re_valid_tag_name].
  intros H. apply andb_true_iff in H as [Hc Hk].
  pose proof (name_char_facts c (word_name_char c Hc)) as (S & _ & _ & _ & _ & E & Q).
  repeat split.
  - simpl. now rewrite (word_name_char c Hc).
  - discriminate.
  - exact S.
  - unfold patSpecialTag, skip_spaces. simpl. rewrite S. simpl. now rewrite E, Q.
Qed.

Lemma name_chars_no_close (k : string) :
  forall_chars is_name_char k = true -> has ">" k = false.
Proof.
  unfold has. induction k as [|c k IH]; cbn [forall_chars exists_char];
    [reflexivity|].
  intros H. apply andb_true_iff in H as [Hc Hk].
  apply name_char_facts in Hc as (_ & _ & -> & _). now apply IH.
Qed.

(** ** Encoded text *)

Lemma exists_char_subst (p : ascii -> bool) (f : ascii -> string) (s : string) :
  exists_char p (subst f s) = exists_char (fun c => exists_char p (f c)) s.
Proof.
  induction s as [|c s IH]; cbn [subst exists_char]; [reflexivity|].
  now rewrite exists_char_app, IH.
Qed.

Lemma exists_char_ext (p q : ascii -> bool) (s : string) :
  (forall c, p c = q c) -> exists_char p s = exists_char q s.
Proof.
  intros E. induction s as [|c s IH]; cbn [exists_char]; [reflexivity|].
  now rewrite E, IH.
Qed.

Lemma exists_char_never (p : ascii -> bool) (s : string) :
  (forall c, p c = false) -> exists_char p s = false.
Proof.
  intros E. induction s as [|c s IH]; cbn [exists_char]; [reflexivity|].
  now rewrite E, IH.
Qed.

Ltac entity_case c a :=
  destruct (Ascii.eqb_spec c a) as [->|?]; [reflexivity|].

Ltac entity_cases c :=
  unfold entity; cbn [andb];
  (entity_case c "&"%char); (entity_case c "<"%char); (entity_case c ">"%char);
  try (entity_case c dquote); try (entity_case c "'"%char).

Lemma entity_no_open (attr : bool) (c : ascii) : has "<" (entity attr c) = false.
Proof.
  unfold has. destruct attr; entity_cases c; cbn [exists_char];
    rewrite (proj2 (Ascii.eqb_neq "<" c)) by congruence; reflexivity.
Qed.

Lemma entity_no_close (attr : bool) (c : ascii) : has ">" (entity attr c) = false.
Proof.
  unfold has. destruct attr; entity_cases c; cbn [exists_char];
    rewrite (proj2 (Ascii.eqb_neq ">" c)) by congruence; reflexivity.
Qed.

Lemma entity_no_dquote (c : ascii) : has dquote (entity true c) = false.
Proof.
  unfold has. entity_cases c; cbn [exists_char];
    rewrite (proj2 (Ascii.eqb_neq dquote c)) by congruence; reflexivity.
Qed.

Lemma entity_control (attr : bool) (c : ascii) :
  exists_char (fun x => (code x =? 2)%nat) (entity attr c) = (code c =? 2)%nat.
Proof.
  destruct attr; entity_cases c; cbn [exists_char]; now rewrite orb_false_r.
Qed.

Lemma entity_non_space (c : ascii) :
  exists_char (fun x => negb (is_space x)) (entity false c) = negb (is_space c).
Proof.
  entity_cases c; cbn [exists_char]; now rewrite orb_false_r.
Qed.

Lemma encodeEntities_no_open (s : string) : has "<" (encodeEntities s) = false.
Proof.
  rewrite (encode_subst false). unfold has. rewrite exists_char_subst.
  apply exists_char_never. apply entity_no_open.
Qed.

Lemma encodeAttribEntities_no_close (s : string) :
  has ">" (encodeAttribEntities s) = false.
Proof.
  rewrite (encode_subst true). unfold has. rewrite exists_char_subst.
  apply exists_char_never. apply entity_no_close.
Qed.

Lemma encodeAttribEntities_no_dquote (s : string) :
  has dquote (encodeAttribEntities s) = false.
Proof.
  rewrite (encode_subst true). unfold has. rewrite exists_char_subst.
  apply exists_char_never. apply entity_no_dquote.
Qed.

Lemma encodeAttribEntities_control (s : string) :
  exists_char (fun x => (code x =? 2)%nat) (encodeAttribEntities s)
  = exists_char (fun x => (code x =? 2)%nat) s.
Proof.
  rewrite (encode_subst true), exists_char_subst.
  apply exists_char_ext. apply entity_control.
Qed.

Lemma encodeEntities_non_space (s : string) :
  patNonSpace (encodeEntities s) = patNonSpace s.
Proof.
  unfold patNonSpace. rewrite (encode_subst false), exists_char_subst.
  apply exists_char_ext. apply entity_non_space.
Qed.

Lemma decode_encode (s : string) : decodeEntities (encodeEntities s) = s.
Proof. rewrite (encode_subst false). apply decode_entity_tokens. Qed.

Lemma decode_encode_attrib (s : string) :
  decodeEntities (encodeAttribEntities s) = s.
Proof. rewrite (encode_subst true). apply decode_entity_tokens. Qed.

(** ** Sorted keys *)

Lemma ltb_leb (a b : string) : String.ltb a b = true -> String.leb a b = true.
Proof.
  unfold String.ltb, String.leb. destruct (String.compare a b); auto.
Qed.

Lemma compare_same (s : string) : String.compare s s = Eq.
Proof.
  induction s as [|c s IH]; cbn [String.compare]; [reflexivity|].
  unfold Ascii.compare. now rewrite N.compare_refl.
Qed.

Lemma ltb_neq (a b : string) : String.ltb a b = true -> a <> b.
Proof.
  unfold String.ltb. intros H ->. rewrite compare_same in H. discriminate.
Qed.

Lemma sort_keys_ascending (l : list string) : ascending l = true -> sort_keys l = l.
Proof.
  induction l as [|k l IH]; cbn [ascending sort_keys fold_right]; [reflexivity|].
  intros H. apply andb_true_iff in H as [Hk Hl].
  fold (sort_keys l). rewrite (IH Hl).
  destruct l as [|k2 l]; [reflexivity|]. cbn [insert_key].
  cbn [forallb] in Hk. apply andb_true_iff in Hk as [Hk _].
  now rewrite (ltb_leb _ _ Hk).
Qed.

Lemma filter_insert_key (p : string -> bool) (a : string) (l : list string) :
  p a = false -> filter p (insert_key a l) = filter p l.
Proof.
  intros H. induction l as [|x l IH]; cbn [insert_key filter].
  - now rewrite H.
  - destruct (String.leb a x); cbn [filter]; [now rewrite H|].
    now rewrite IH.
Qed.

Lemma ascending_fresh (k : string) (l : list string) :
  forallb (String.ltb k) l = true -> forall x, In x l -> x <> k.
Proof.
  intros H x I. rewrite forallb_forall in H.
  intros ->. exact (ltb_neq k k (H k I) eq_refl).
Qed.

Lemma get_fresh (k : string) (h : hash) :
  (forall x, In x (keys h) -> x <> k) -> get k h = None.
Proof.
  induction h as [|[k' v] h IH]; cbn [get keys map]; [reflexivity|].
  intros H. destruct (String.eqb_spec k k') as [->|N].
  - exfalso. apply (H k'); [now left|reflexivity].
  - apply IH. intros x I. apply H. now right.
Qed.

(** Looking up the keys of a hash with ascending keys gives its entries in
    their order. *)
Lemma map_get_entries {B : Type} (F : string -> option node -> B) (h : hash) :
  ascending (keys h) = true ->
  map (fun key => F key (get key h)) (keys h)
  = map (fun e => F (fst e) (Some (snd e))) h.
Proof.
  induction h as [|[k v] h IH]; cbn [keys map ascending]; [reflexivity|].
  intros H. apply andb_true_iff in H as [Hk Hl].
  cbn [get fst snd]. rewrite String.eqb_refl. f_equal.
  rewrite <- (IH Hl). apply map_ext_in. intros x I.
  pose proof (ascending_fresh k _ Hk x I) as N.
  now rewrite (proj2 (String.eqb_neq x k) N).
Qed.

(** ** The attributes of an opening tag *)

Lemma concat_cons (x : string) (l : list string) :
  String.concat "" (x :: l) = x ++ String.concat "" l.
Proof.
  cbn [String.concat]. destruct l; [now rewrite append_nil_r|reflexivity].
Qed.

Lemma concat_app (l1 l2 : list string) :
  String.concat "" (l1 ++ l2) = String.concat "" l1 ++ String.concat "" l2.
Proof.
  induction l1 as [|x l1 IH]; [reflexivity|].
  rewrite <- app_comm_cons, !concat_cons, IH. now rewrite append_assoc.
Qed.

Lemma attribs_text_cons (e : string * node) (attribs : hash) :
  attribs_text (e :: attribs) = " " ++ attrib_inner e ++ attribs_text attribs.
Proof.
  unfold attribs_text. cbn [map]. rewrite concat_cons.
  unfold attrib_inner. now rewrite !append_assoc.
Qed.

Lemma sequence_options_some {A B : Type} (f : A -> option B) (g : A -> B)
    (l : list A) :
  (forall x, In x l -> f x = Some (g x)) ->
  sequence_options (map f l) = Some (map g l).
Proof.
  induction l as [|x l IH]; intros H; cbn [map sequence_options]; [reflexivity|].
  rewrite (H x (or_introl eq_refl)), IH; [reflexivity|].
  intros y I. apply H. now right.
Qed.

Lemma attribute_ok_text (e : string * node) :
  attribute_ok e = true ->
  exists s, snd e = Text s
            /\ exists_char (fun c => (code c =? 2)%nat) s = false
            /\ fst e <> "" /\ forall_chars is_name_char (fst e) = true
            /\ fst e <> "__proto__".
Proof.
  unfold attribute_ok. intros H.
  apply andb_true_iff in H as [H V]. apply andb_true_iff in H as [H P].
  apply andb_true_iff in H as [E N].
  destruct (snd e) as [s| |]; try discriminate. exists s.
  repeat split; auto.
  - now apply negb_true_iff in V.
  - apply negb_true_iff in E. now apply String.eqb_neq in E.
  - apply negb_true_iff in P. now apply String.eqb_neq in P.
Qed.

(** The serializer writes the attributes in their order. *)
Lemma stringify_attribs_text (attribs : hash) :
  ascending (keys attribs) = true -> forallb attribute_ok attribs = true ->
  stringify_attribs true (Element attribs) = Some (attribs_text attribs).
Proof.
  intros A F. unfold stringify_attribs, hashKeysToArray. cbn [own_entries].
  rewrite (sort_keys_ascending _ A).
  rewrite (map_get_entries
             (fun key o => v <~ o ;; s <~ encode_node encodeAttribEntities v ;;
                           Some (" " ++ key ++ "=" ++ dq ++ s ++ dq)) _ A).
  rewrite (sequence_options_some _
             (fun e => " " ++ fst e ++ "=" ++ dq
                       ++ match snd e with
                          | Text s => encodeAttribEntities s
                          | _ => ""
                          end ++ dq)).
  - reflexivity.
  - intros e I. rewrite forallb_forall in F.
    destruct (attribute_ok_text e (F e I)) as (s & -> & _). reflexivity.
Qed.

Lemma attrib_inner_no_close (e : string * node) :
  attribute_ok e = true -> has ">" (attrib_inner e) = false.
Proof.
  intros H. destruct (attribute_ok_text e H) as (s & E & _ & _ & N & _).
  unfold attrib_inner. rewrite E, !has_app.
  rewrite (name_chars_no_close _ N), encodeAttribEntities_no_close. reflexivity.
Qed.

Lemma attribs_text_no_close (attribs : hash) :
  forallb attribute_ok attribs = true -> has ">" (attribs_text attribs) = false.
Proof.
  induction attribs as [|e attribs IH]; cbn [forallb]; [reflexivity|].
  intros H. apply andb_true_iff in H as [He Ha].
  rewrite attribs_text_cons, !has_app, (attrib_inner_no_close e He), (IH Ha).
  reflexivity.
Qed.

Lemma value_until_app (q : ascii) (v rest : string) :
  has q v = false -> exists_char (fun c => (code c =? 2)%nat) v = false ->
  value_until q (v ++ String q rest) = Some (v, rest).
Proof.
  unfold has. induction v as [|c v IH]; cbn [append value_until exists_char].
  - now rewrite Ascii.eqb_refl.
  - intros H C. apply orb_false_iff in H as [Hc Hv].
    apply orb_false_iff in C as [Cc Cv].
    rewrite Ascii.eqb_sym, Hc, Cc, IH; auto.
Qed.

(** [patAttrib] at the start of an attribute. *)
Lemma patAttrib_at_inner (e : string * node) (rest : string) :
  attribute_ok e = true ->
  patAttrib_at (attrib_inner e ++ rest) = Some (fst (attrib_match e), snd (attrib_match e), rest).
Proof.
  intros H. destruct (attribute_ok_text e H) as (s & E & C & N0 & N & _).
  unfold attrib_inner, attrib_match, patAttrib_at. rewrite E. cbn [fst snd].
  rewrite !append_assoc.
  rewrite (span_all is_name_char (fst e)) by (auto; reflexivity).
  rewrite (proj2 (String.eqb_neq _ _) N0).
  cbn [append]. rewrite skip_spaces_none by reflexivity.
  cbn [strip and_then Ascii.eqb Bool.eqb]. cbn [append].
  rewrite skip_spaces_none by reflexivity.
  change (is_quote dquote) with true. cbv iota.
  unfold dq. cbn [append].
  rewrite value_until_app; [reflexivity| |].
  - apply encodeAttribEntities_no_dquote.
  - now rewrite encodeAttribEntities_control.
Qed.

Lemma patAttrib_all_skip (m rest : string) :
  patAttrib_all (length m) (m ++ rest) = patAttrib_all 0 rest.
Proof.
  induction m as [|c m IH]; cbn [length append patAttrib_all]; [|exact IH].
  destruct rest; reflexivity.
Qed.

Lemma patAttrib_all_space (x : string) :
  patAttrib_all 0 (String " " x) = patAttrib_all 0 x.
Proof. reflexivity. Qed.

Lemma patAttrib_all_inner (e : string * node) (rest : string) :
  attribute_ok e = true ->
  patAttrib_all 0 (attrib_inner e ++ rest)
  = attrib_match e :: patAttrib_all 0 rest.
Proof.
  intros H. pose proof (patAttrib_at_inner e rest H) as P.
  destruct (attribute_ok_text e H) as (s & E & C & N0 & N & _).
  destruct (attrib_inner e) as [|c m] eqn:I.
  { unfold attrib_inner in I. destruct (fst e); [congruence|discriminate]. }
  cbn [append] in *. cbn [patAttrib_all]. rewrite P.
  destruct (attrib_match e) as [key v]. cbn [fst snd]. f_equal.
  replace (length (String c (m ++ rest)) - length rest - 1) with (length m)
    by (cbn [length]; rewrite length_append; lia).
  apply patAttrib_all_skip.
Qed.

(** All matches of [patAttrib] in the attributes of a tag. *)
Lemma patAttrib_all_text (attribs : hash) (sc : string) :
  forallb attribute_ok attribs = true ->
  sc = "" \/ sc = "/" ->
  patAttrib_all 0 (attribs_text attribs ++ sc) = map attrib_match attribs.
Proof.
  intros F S. induction attribs as [|e attribs IH].
  - destruct S as [-> | ->]; reflexivity.
  - cbn [forallb] in F. apply andb_true_iff in F as [He Ha].
    rewrite attribs_text_cons. cbn [append]. rewrite patAttrib_all_space.
    rewrite append_assoc, patAttrib_all_inner by exact He.
    cbn [map]. now rewrite IH.
Qed.

(** ** The opening tag of a hash *)

Lemma not_slash {A : Type} (c : ascii) (x : string) (a : string -> A) (b : A) :
  Ascii.eqb c "/" = false ->
  match String c x with String "/" r => a r | _ => b end = b.
Proof. all_chars c; intros H; try reflexivity; discriminate H. Qed.

Lemma attribs_text_start (attribs : hash) (sc : string) :
  forallb attribute_ok attribs = true -> sc = "" \/ sc = "/" ->
  match attribs_text attribs ++ sc with
  | String c _ => is_name_char c = false
  | "" => True
  end.
Proof.
  intros F S. destruct attribs as [|e attribs].
  - destruct S as [-> | ->]; [exact I|reflexivity].
  - rewrite attribs_text_cons. reflexivity.
Qed.

Lemma attrib_inner_start (e : string * node) (rest : string) :
  attribute_ok e = true ->
  exists c x, attrib_inner e ++ rest = String c x /\ is_name_char c = true.
Proof.
  intros H. destruct (attribute_ok_text e H) as (s & E & C & N0 & N & _).
  unfold attrib_inner. destruct (fst e) as [|c k]; [congruence|].
  cbn [forall_chars] in N. apply andb_true_iff in N as [Nc _].
  now exists c, ((k ++ "=" ++ dq ++ match snd e with
                                    | Text s0 => encodeAttribEntities s0
                                    | _ => ""
                                    end ++ dq) ++ rest).
Qed.

(** The text behind the name of the tag, as [patStandardTag] gives it. *)
Lemma attribs_raw (attribs : hash) (sc : string) :
  forallb attribute_ok attribs = true -> sc = "" \/ sc = "/" ->
  skip_spaces (attribs_text attribs ++ sc)
  = match attribs with
    | [] => sc
    | e :: es => attrib_inner e ++ attribs_text es ++ sc
    end.
Proof.
  intros F S. destruct attribs as [|e es].
  - destruct S as [-> | ->]; reflexivity.
  - cbn [forallb] in F. apply andb_true_iff in F as [He _].
    rewrite attribs_text_cons, !append_assoc.
    destruct (attrib_inner_start e (attribs_text es ++ sc) He) as (c & x & E & N).
    rewrite E. apply name_char_facts in N as (S' & _).
    unfold skip_spaces. cbn. now rewrite S'.
Qed.

Lemma patStandardTag_open (k : string) (attribs : hash) (sc : string) :
  re_valid_tag_name k = true ->
  forallb attribute_ok attribs = true -> sc = "" \/ sc = "/" ->
  patStandardTag (k ++ attribs_text attribs ++ sc)
  = Some (false, k, skip_spaces (attribs_text attribs ++ sc)).
Proof.
  intros K F S. pose proof (valid_name_chars k K) as (N & N0 & Sp & _).
  unfold patStandardTag.
  destruct k as [|c k]; [congruence|]. cbn [append].
  rewrite skip_spaces_none by exact Sp.
  cbn [re_valid_tag_name] in K. apply andb_true_iff in K as [Kc _].
  pose proof (name_char_facts c (word_name_char c Kc)) as (_ & _ & _ & Sl & _).
  rewrite (not_slash c _ _ _ Sl).
  change (String c (k ++ attribs_text attribs ++ sc))
    with (String c k ++ attribs_text attribs ++ sc).
  rewrite (span_all is_name_char (String c k)); [reflexivity|exact N|].
  now apply attribs_text_start.
Qed.

Lemma attribs_end (es : hash) :
  forall e, exists y, attrib_inner e ++ attribs_text es = y ++ dq.
Proof.
  induction es as [|e' es IH]; intros e.
  - unfold attribs_text. cbn [map String.concat]. rewrite append_nil_r.
    unfold attrib_inner. eexists. rewrite <- !append_assoc. reflexivity.
  - rewrite attribs_text_cons. destruct (IH e') as [y E]. rewrite E.
    exists (attrib_inner e ++ " " ++ y). now rewrite !append_assoc.
Qed.

Lemma patSelfClosing_raw (attribs : hash) (sc : string) :
  forallb attribute_ok attribs = true -> sc = "" \/ sc = "/" ->
  patSelfClosing (skip_spaces (attribs_text attribs ++ sc)) = String.eqb sc "/".
Proof.
  intros F S. rewrite attribs_raw by assumption.
  destruct attribs as [|e es].
  - destruct S as [-> | ->]; reflexivity.
  - destruct (attribs_end es e) as [y E]. rewrite <- append_assoc, E.
    unfold patSelfClosing.
    destruct S as [-> | ->]; rewrite ?append_nil_r, !reverse_app; reflexivity.
Qed.

Lemma get_app (k : string) (a b : hash) :
  get k (a ++ b)%list = match get k a with Some v => Some v | None => get k b end.
Proof.
  induction a as [|[k' v] a IH]; cbn [get app]; [reflexivity|].
  destruct (String.eqb k k'); [reflexivity|exact IH].
Qed.

Lemma set_fresh (k : string) (v : node) (h : hash) :
  get k h = None -> set k v h = (h ++ [(k, v)])%list.
Proof.
  induction h as [|[k' v'] h IH]; cbn [get set app]; [reflexivity|].
  destruct (String.eqb k k'); [discriminate|]. intros H. now rewrite IH.
Qed.

Lemma add_attribs_matches (pa pw : bool) (attribs : hash) :
  forall acc,
    ascending (keys attribs) = true -> forallb attribute_ok attribs = true ->
    (forall x, In x (keys attribs) -> get x acc = None) ->
    fold_left
      (fun acc m =>
         let key := if lowerCase (round_trip_options pa pw)
                    then toLowerCase (fst m) else fst m in
         if String.eqb key "__proto__" then acc
         else set key (Text (decodeEntities (snd m))) acc)
      (map attrib_match attribs) acc
    = (acc ++ attribs)%list.
Proof.
  induction attribs as [|e es IH]; intros acc A F G; cbn [map fold_left].
  - now rewrite app_nil_r.
  - cbn [keys map ascending forallb] in A, F.
    apply andb_true_iff in A as [Ak As]. apply andb_true_iff in F as [Fe Fs].
    destruct (attribute_ok_text e Fe) as (s & E & C & N0 & N & P).
    cbn [lowerCase round_trip_options]. unfold attrib_match. cbn [fst snd].
    rewrite (proj2 (String.eqb_neq _ _) P), E, decode_encode_attrib.
    rewrite set_fresh by (apply G; now left).
    rewrite IH; auto.
    + rewrite <- app_assoc. cbn [app]. destruct e as [k v]. cbn in E.
      now subst v.
    + intros x I. rewrite get_app, (G x (or_intror I)). cbn [get].
      pose proof (ascending_fresh (fst e) _ Ak x I) as D.
      now rewrite (proj2 (String.eqb_neq _ _) D).
Qed.

(** The leaf that the parser makes of an opening tag. *)
Lemma new_leaf_attribs (pa pw : bool) (attribs : hash) (sc : string)
    (st : parser) :
  opts st = round_trip_options pa pw ->
  attribs = [] \/ attribs_ok pa attribs = true ->
  sc = "" \/ sc = "/" ->
  XML.new_leaf (skip_spaces (attribs_text attribs ++ sc)) st
  = Done (attribs_leaf attribs) st.
Proof.
  intros O A S.
  assert (F : forallb attribute_ok attribs = true).
  { destruct A as [-> | A]; [reflexivity|].
    unfold attribs_ok in A. now apply andb_true_iff in A as [_ A]. }
  assert (M : patAttrib_all 0 (skip_spaces (attribs_text attribs ++ sc))
              = map attrib_match attribs).
  { rewrite attribs_raw by assumption.
    rewrite <- (patAttrib_all_text attribs sc F S).
    destruct attribs as [|e es]; [reflexivity|].
    now rewrite attribs_text_cons, !append_assoc. }
  assert (G : XML.add_attribs (round_trip_options pa pw)
                (skip_spaces (attribs_text attribs ++ sc)) [] = attribs).
  { unfold XML.add_attribs. rewrite M.
    destruct A as [-> | A]; [reflexivity|].
    unfold attribs_ok in A. apply andb_true_iff in A as [A _].
    apply andb_true_iff in A as [_ A].
    apply (add_attribs_matches pa pw attribs []); auto. }
  unfold XML.new_leaf, bind, this. rewrite O, G.
  cbn [preserveAttributes round_trip_options attribsKey].
  destruct pa.
  - cbn. destruct attribs; reflexivity.
  - destruct A as [-> | A]; [reflexivity|]. discriminate A.
Qed.

(** ** One round of the loop on the text of a tree *)

Lemma reads_advance (o : options) (st : parser) (pre a rest : string) :
  reads o st pre (a ++ rest) ->
  reads o (advance st (length (pre ++ a))) (pre ++ a) rest.
Proof.
  intros (T & L & E & O). unfold reads. cbn [advance text lastIndex errors opts].
  rewrite T, append_assoc. auto.
Qed.

Lemma advance_advance (st : parser) (n m : nat) :
  advance (advance st n) m = advance st m.
Proof. reflexivity. Qed.

Lemma patSpecialTag_name (k t : string) :
  re_valid_tag_name k = true -> patSpecialTag (k ++ t) = false.
Proof.
  intros K. destruct k as [|c k]; [discriminate|].
  cbn [re_valid_tag_name] in K. apply andb_true_iff in K as [Kc _].
  pose proof (name_char_facts c (word_name_char c Kc)) as (S & _ & _ & _ & _ & E & Q).
  unfold patSpecialTag, skip_spaces. cbn [append span]. rewrite S. cbn [snd].
  now rewrite E, Q.
Qed.

(** Strings that are equal up to the nesting of [++]. *)
Ltac norm_app := repeat (progress (cbn [append]; rewrite ?append_assoc)).

Section Rounds.

Variables (pa pw : bool).

Let o : options := round_trip_options pa pw.

Lemma compress_plain (leaf : hash) (st : parser) :
  opts st = o -> get "_Data" leaf = None ->
  XML.compress XmlJs leaf st = Done (Element leaf) st.
Proof.
  intros O G. unfold XML.compress, bind, this, read. rewrite O.
  cbn [dataKey o round_trip_options]. now rewrite G.
Qed.

Lemma attach_attached (top : bool) (k : string) (v : node) (branch : hash)
    (st : parser) :
  opts st = o -> inherited k = false ->
  XML.attach top k v branch st = Done (attached k v branch) st.
Proof.
  intros O I. unfold XML.attach, attached, bind, this, read. rewrite O, I.
  cbn [forceArrays o round_trip_options andb].
  destruct (get k branch) as [[]|]; reflexivity.
Qed.

Lemma add_data_fresh (s : string) (branch : hash) (st : parser) :
  opts st = o -> text_ok pw s = true -> get "_Data" branch = None ->
  XML.add_data (encodeEntities s) branch st
  = Done (branch ++ [("_Data", Text s)])%list st.
Proof.
  intros O T G. unfold XML.add_data, bind, this, read. rewrite O.
  cbn [dataKey preserveWhitespace o round_trip_options]. rewrite G.
  cbn [inherited existsb object_prototype_keys String.eqb Ascii.eqb Bool.eqb orb].
  rewrite decode_encode, set_fresh by exact G.
  unfold text_ok in T. apply andb_true_iff in T as [_ T]. unfold ret.
  destruct pw; cbn [negb].
  - reflexivity.
  - cbn [orb] in T. apply String.eqb_eq in T. now rewrite T.
Qed.

(** The round that reads an opening tag. *)
Lemma loop_open (c : copy) (child : string -> hash -> M hash) (next : hash -> M (hash * bool))
    (top : bool) (name : option string) (branch : hash)
    (st : parser) (pre ws k : string) (attribs : hash) (sc post : string) :
  reads o st pre (ws ++ "<" ++ k ++ attribs_text attribs ++ sc ++ ">" ++ post) ->
  blank ws = true -> re_valid_tag_name k = true ->
  attribs = [] \/ attribs_ok pa attribs = true ->
  sc = "" \/ sc = "/" ->
  XML.loop_body c child next top name branch st
  = (leaf <- (if negb (String.eqb sc "/") then child k (attribs_leaf attribs)
              else ret (attribs_leaf attribs)) ;;
     st1 <- this ;;
     if negb (String.eqb sc "/") && negb (XML.error st1 =? 0)%nat
     then ret (branch, false)
     else
       leaf <- XML.compress c leaf ;;
       branch <- XML.attach top k leaf branch ;;
       st2 <- this ;;
       if negb (XML.error st2 =? 0)%nat || top
       then ret (branch, false)
       else next branch)
      (advance st (length (pre ++ ws ++ "<" ++ k ++ attribs_text attribs
                           ++ sc ++ ">"))).
Proof.
  intros (T & L & E & O) W K A S.
  assert (F : forallb attribute_ok attribs = true).
  { destruct A as [-> | A]; [reflexivity|].
    unfold attribs_ok in A. now apply andb_true_iff in A as [_ A]. }
  pose proof (valid_name_chars k K) as (N & N0 & _ & _).
  set (tag := k ++ attribs_text attribs ++ sc).
  assert (X : patTag_exec (text st) (lastIndex st)
              = Some (ws, tag, length (pre ++ ws ++ "<" ++ tag ++ ">"))).
  { rewrite T, L.
    replace (ws ++ "<" ++ k ++ attribs_text attribs ++ sc ++ ">" ++ post)
      with (ws ++ "<" ++ tag ++ ">" ++ post)
      by (unfold tag; now rewrite !append_assoc).
    apply patTag_exec_at.
    - now apply blank_no_tag.
    - unfold tag. rewrite !has_app, (name_chars_no_close k N),
        (attribs_text_no_close attribs F).
      destruct S as [-> | ->]; reflexivity.
    - unfold tag. destruct k; [congruence|discriminate]. }
  replace (length (pre ++ ws ++ "<" ++ k ++ attribs_text attribs ++ sc ++ ">"))
    with (length (pre ++ ws ++ "<" ++ tag ++ ">"))
    by (unfold tag; now rewrite !append_assoc).
  unfold XML.loop_body.
  unfold bind at 1. unfold this at 1. rewrite X.
  unfold bind at 1. unfold set_lastIndex at 1. fold (advance st (length (pre ++ ws ++ "<" ++ tag ++ ">"))).
  rewrite (blank_patNonSpace ws W).
  unfold bind at 1. unfold ret at 1.
  unfold tag at 1. rewrite (patSpecialTag_name k _ K).
  unfold tag at 1. rewrite (patStandardTag_open k attribs sc K F S).
  rewrite O. cbn [lowerCase o round_trip_options].
  rewrite (patSelfClosing_raw attribs sc F S).
  unfold bind at 1.
  rewrite (new_leaf_attribs pa pw attribs sc) by (auto; exact O).
  reflexivity.
Qed.

(** The round that reads the closing tag of the element under way. *)
Lemma loop_close (c : copy) (child : string -> hash -> M hash) (next : hash -> M (hash * bool))
    (top : bool) (branch : hash)
    (st : parser) (pre before k post : string) :
  reads o st pre (before ++ "</" ++ k ++ ">" ++ post) ->
  has "<" before = false -> re_valid_tag_name k = true ->
  XML.loop_body c child next top (Some k) branch st
  = (branch <- (if patNonSpace before then XML.add_data before branch
                else ret branch) ;;
     ret (branch, true))
      (advance st (length (pre ++ before ++ "</" ++ k ++ ">"))).
Proof.
  intros (T & L & E & O) W K.
  pose proof (valid_name_chars k K) as (N & N0 & _ & _).
  assert (X : patTag_exec (text st) (lastIndex st)
              = Some (before, "/" ++ k,
                      length (pre ++ before ++ "<" ++ ("/" ++ k) ++ ">"))).
  { rewrite T, L.
    change (before ++ "</" ++ k ++ ">" ++ post)
      with (before ++ "<" ++ String "/" (k ++ ">" ++ post)).
    change (String "/" (k ++ ">" ++ post)) with (("/" ++ k) ++ ">" ++ post).
    apply patTag_exec_at; [exact W| |discriminate].
    rewrite has_app, (name_chars_no_close k N). reflexivity. }
  unfold XML.loop_body.
  unfold bind at 1. unfold this at 1. rewrite X.
  unfold bind at 1. unfold set_lastIndex at 1.
  fold (advance st (length (pre ++ before ++ "<" ++ ("/" ++ k) ++ ">"))).
  change (pre ++ before ++ "<" ++ ("/" ++ k) ++ ">")
    with (pre ++ before ++ "</" ++ k ++ ">").
  change (patSpecialTag ("/" ++ k)) with false. cbv iota.
  assert (P : patStandardTag ("/" ++ k) = Some (true, k, "")).
  { unfold patStandardTag. cbn [append]. rewrite skip_spaces_none by reflexivity.
    rewrite <- (append_nil_r k) at 1.
    rewrite (span_all is_name_char k "" N I).
    now rewrite (proj2 (String.eqb_neq _ _) N0). }
  rewrite P, O. cbn [lowerCase o round_trip_options XML.name_or_empty].
  rewrite String.eqb_refl. reflexivity.
Qed.

(** The nested call finds its closing tag. *)
Lemma child_call_done (f : nat) (k : string) (leaf leaf' : hash)
    (st st' : parser) :
  k <> "" ->
  XML.parse_loop XmlJs f false (Some k) leaf st = Done (leaf', true) st' ->
  child_call f k leaf st = Done leaf' st'.
Proof.
  intros N H. unfold child_call, bind. rewrite H.
  unfold XML.parse_finish. cbn [XML.name_or_empty negb].
  rewrite (proj2 (String.eqb_neq _ _) N). reflexivity.
Qed.

(** An element that closes itself. *)
Lemma item_self_closed (k : string) (attribs : hash) :
  valid_key k = true -> attribs = [] \/ attribs_ok pa attribs = true ->
  item_step o ("<" ++ k ++ attribs_text attribs ++ "/>") k
    (Element (attribs_leaf attribs)) 0.
Proof.
  intros K A st pre ws post R W f _ top name branch next.
  unfold valid_key in K. apply andb_true_iff in K as [K _].
  apply andb_true_iff in K as [K _]. apply andb_true_iff in K as [K I].
  apply negb_true_iff in I.
  assert (R' : reads o st pre
                 (ws ++ "<" ++ k ++ attribs_text attribs ++ "/" ++ ">" ++ post)).
  { destruct R as (T & R). split; [|exact R]. rewrite T.
    norm_app. reflexivity. }
  rewrite (loop_open _ _ _ _ _ _ _ _ _ _ _ _ _ R' W K A (or_intror eq_refl)).
  replace (length (pre ++ ws ++ "<" ++ k ++ attribs_text attribs ++ "/>"))
    with (length (pre ++ ws ++ "<" ++ k ++ attribs_text attribs ++ "/" ++ ">"))
    by reflexivity.
  set (st1 := advance st _).
  assert (O1 : opts st1 = o) by apply R.
  assert (E1 : XML.error st1 = 0) by (unfold XML.error; cbn; now rewrite (proj1 (proj2 (proj2 R)))).
  cbn [String.eqb Ascii.eqb Bool.eqb negb andb].
  unfold bind at 1. unfold ret at 1. unfold bind at 1. unfold this at 1.
  unfold bind at 1.
  rewrite compress_plain; [|exact O1|].
  2:{ destruct A as [-> | A]; [reflexivity|]. destruct attribs; reflexivity. }
  unfold bind at 1. rewrite attach_attached by assumption.
  unfold bind at 1. unfold this at 1. rewrite E1. cbn [Nat.eqb negb orb].
  destruct top; reflexivity.
Qed.

(** An element with a nested call. *)
Lemma item_element (k : string) (attribs : hash) (inner : string)
    (leaf' : hash) (v : node) (f0 : nat) :
  valid_key k = true -> attribs = [] \/ attribs_ok pa attribs = true ->
  child_loop o inner k (attribs_leaf attribs) leaf' f0 ->
  (forall st, opts st = o -> XML.compress XmlJs leaf' st = Done v st) ->
  item_step o ("<" ++ k ++ attribs_text attribs ++ ">" ++ inner
               ++ "</" ++ k ++ ">") k v f0.
Proof.
  intros K A C V st pre ws post R W f F top name branch next.
  unfold valid_key in K. apply andb_true_iff in K as [K _].
  apply andb_true_iff in K as [K _]. apply andb_true_iff in K as [K I].
  apply negb_true_iff in I.
  pose proof (valid_name_chars k K) as (_ & N0 & _ & _).
  assert (R' : reads o st pre
                 (ws ++ "<" ++ k ++ attribs_text attribs ++ "" ++ ">"
                  ++ inner ++ "</" ++ k ++ ">" ++ post)).
  { destruct R as (T & R). split; [|exact R]. rewrite T.
    norm_app. reflexivity. }
  rewrite (loop_open _ _ _ _ _ _ _ _ _ _ _ _ _ R' W K A (or_introl eq_refl)).
  cbn [String.eqb negb andb].
  assert (R1 : reads o (advance st (length (pre ++ ws ++ "<" ++ k
                                            ++ attribs_text attribs ++ "" ++ ">")))
                 (pre ++ ws ++ "<" ++ k ++ attribs_text attribs ++ "" ++ ">")
                 (inner ++ "</" ++ k ++ ">" ++ post)).
  { destruct R' as (T & L & E & O). unfold reads.
    cbn [advance text lastIndex errors opts]. rewrite T.
    repeat split; auto. norm_app. reflexivity. }
  set (st1 := advance st _) in *.
  unfold bind at 1.
  rewrite (child_call_done f k _ leaf' st1 _ N0 (C st1 _ _ R1 f F)).
  set (st2 := advance st1 _).
  assert (O2 : opts st2 = o) by apply R.
  assert (E2 : XML.error st2 = 0)
    by (unfold XML.error; cbn; now rewrite (proj1 (proj2 (proj2 R)))).
  unfold bind at 1. unfold this at 1. rewrite E2. cbn [Nat.eqb negb andb].
  unfold bind at 1. rewrite (V st2 O2).
  unfold bind at 1. rewrite attach_attached by assumption.
  unfold bind at 1. unfold this at 1. rewrite E2. cbn [Nat.eqb negb orb].
  replace (advance st (length (pre ++ ws ++ "<" ++ k ++ attribs_text attribs
                               ++ ">" ++ inner ++ "</" ++ k ++ ">")))
    with st2; [destruct top; reflexivity|].
  unfold st2, st1. rewrite advance_advance. f_equal. f_equal.
  norm_app. reflexivity.
Qed.

(** The nested call of an element that holds data only. *)
Lemma child_loop_data (k s : string) (leaf : hash) :
  re_valid_tag_name k = true -> text_ok pw s = true ->
  get "_Data" leaf = None ->
  child_loop o (encodeEntities s) k leaf (leaf ++ [("_Data", Text s)])%list 1.
Proof.
  intros K T G st pre post R f F.
  destruct f as [|f]; [lia|]. cbn [XML.parse_loop].
  rewrite (loop_close _ _ _ _ _ _ _ _ _ _ R (encodeEntities_no_open s) K).
  rewrite encodeEntities_non_space.
  unfold text_ok in T. pose proof T as T'. apply andb_true_iff in T' as [-> _].
  unfold bind. rewrite add_data_fresh; auto. apply R.
Qed.

(** ** Rounds in a row *)

Lemma advance_same (st : parser) : advance st (lastIndex st) = st.
Proof. destruct st; reflexivity. Qed.

Lemma loop_steps_nil (P : hash -> Prop) :
  loop_steps o "" P (fun b => b) 0 0.
Proof.
  intros st pre post (T & L & E & O) f _ name branch _.
  rewrite append_nil_r, <- L, advance_same. reflexivity.
Qed.

Lemma loop_steps_item (core k : string) (v : node) (f0 : nat) (ws : string) :
  item_step o core k v f0 -> blank ws = true ->
  loop_steps o (ws ++ core) (fun _ => True) (attached k v) 1 f0.
Proof.
  intros H W st pre post R f F name branch _.
  rewrite append_assoc in R.
  exact (H st pre ws post R W f F false name branch
           (fun b => XML.parse_loop XmlJs f false name b)).
Qed.

Lemma loop_steps_app (b1 b2 : string) (P1 P2 : hash -> Prop)
    (t1 t2 : hash -> hash) (n1 n2 f1 f2 : nat) :
  loop_steps o b1 P1 t1 n1 f1 -> loop_steps o b2 P2 t2 n2 f2 ->
  (forall b, P1 b -> P2 (t1 b)) ->
  loop_steps o (b1 ++ b2) P1 (fun b => t2 (t1 b)) (n1 + n2) (Nat.max f1 f2).
Proof.
  intros H1 H2 HP st pre post R f F name branch P.
  rewrite append_assoc in R.
  rewrite <- Nat.add_assoc, (H1 st pre _ R (n2 + f)) by (auto; lia).
  rewrite (H2 _ (pre ++ b1) post (reads_advance _ _ _ _ _ R) f) by (auto; lia).
  rewrite advance_advance, append_assoc. reflexivity.
Qed.

Lemma loop_steps_weaken (body : string) (P P' : hash -> Prop)
    (t t' : hash -> hash) (n f0 f0' : nat) :
  loop_steps o body P t n f0 ->
  (forall b, P' b -> P b /\ t' b = t b) -> f0 <= f0' ->
  loop_steps o body P' t' n f0'.
Proof.
  intros H W L st pre post R f F name branch P0.
  destruct (W branch P0) as [Pb ->]. apply (H st pre post R f); auto. lia.
Qed.

(** ** The shape of a tree in normal form *)

Lemma children_ok_entries (item_ok : node -> bool) (rest : hash) :
  children_ok item_ok rest = true ->
  ascending (keys rest) = true
  /\ forall e, In e rest ->
       valid_key (fst e) = true
       /\ match snd e with
          | Sequence items =>
              2 <= List.length items /\ forallb item_ok items = true
          | _ => item_ok (snd e) = true
          end.
Proof.
  unfold children_ok. intros H. apply andb_true_iff in H as [A F].
  split; [exact A|]. intros e I. rewrite forallb_forall in F.
  specialize (F e I). apply andb_true_iff in F as [K V]. split; [exact K|].
  destruct (snd e); auto.
  apply andb_true_iff in V as [L V]. split; [now apply Nat.leb_le|exact V].
Qed.

Lemma valid_key_facts (k : string) :
  valid_key k = true ->
  re_valid_tag_name k = true /\ inherited k = false
  /\ k <> "_Attribs" /\ k <> "_Data" /\ k <> "".
Proof.
  unfold valid_key. intros H.
  apply andb_true_iff in H as [H D]. apply andb_true_iff in H as [H A].
  apply andb_true_iff in H as [K I].
  apply negb_true_iff in D, A, I.
  apply String.eqb_neq in D, A.
  repeat split; auto. intros ->. discriminate K.
Qed.

Lemma children_no_reserved (item_ok : node -> bool) (rest : hash) (k : string) :
  children_ok item_ok rest = true -> valid_key k = false -> get k rest = None.
Proof.
  intros H V. apply children_ok_entries in H as [_ H].
  apply get_fresh. intros x I ->. unfold keys in I.
  apply in_map_iff in I as [e [E I]]. subst.
  destruct (H e I) as [K _]. congruence.
Qed.

(** The three shapes of a hash in normal form. *)
Lemma canonical_element (h : hash) :
  canonical pa pw (Element h) = true ->
  exists attribs rest,
    h = (attribs_leaf attribs ++ rest)%list
    /\ (attribs = [] \/ attribs_ok pa attribs = true)
    /\ ((attribs <> [] /\ exists s, rest = [("_Data", Text s)]
                                    /\ text_ok pw s = true)
        \/ children_ok (canonical pa pw) rest = true).
Proof.
  cbn [canonical]. unfold element_ok.
  assert (D : children_ok (canonical pa pw) h = true ->
              exists attribs rest,
                h = (attribs_leaf attribs ++ rest)%list
                /\ (attribs = [] \/ attribs_ok pa attribs = true)
                /\ ((attribs <> [] /\ exists s, rest = [("_Data", Text s)]
                                                /\ text_ok pw s = true)
                    \/ children_ok (canonical pa pw) rest = true)).
  { intros H. exists [], h. auto. }
  destruct h as [|[k [s|attribs|l]] rest]; auto.
  destruct (String.eqb_spec k "_Attribs") as [->|N]; auto.
  intros H. apply andb_true_iff in H as [A H].
  assert (NE : attribs <> []).
  { intros ->. unfold attribs_ok in A. cbn in A.
    now rewrite andb_false_r in A. }
  exists attribs, rest. split; [destruct attribs; [congruence|reflexivity]|].
  split; [now right|].
  destruct rest as [|[k' [s| |]] [|]]; auto.
  destruct (String.eqb_spec k' "_Data") as [->|N']; auto.
  left. split; [exact NE|]. now exists s.
Qed.

Lemma text_ok_truthy (s : string) : text_ok pw s = true -> truthy (Text s) = true.
Proof.
  unfold text_ok. intros H. apply andb_true_iff in H as [H _].
  destruct s; [discriminate H|reflexivity].
Qed.

Lemma attribs_leaf_get (attribs : hash) (k : string) :
  k <> "_Attribs" -> get k (attribs_leaf attribs) = None.
Proof.
  intros N. destruct attribs; [reflexivity|]. cbn [attribs_leaf get].
  now rewrite (proj2 (String.eqb_neq _ _) N).
Qed.

Lemma attribs_ok_facts (attribs : hash) :
  attribs = [] \/ attribs_ok pa attribs = true ->
  ascending (keys attribs) = true /\ forallb attribute_ok attribs = true.
Proof.
  intros [-> | A]; [split; reflexivity|].
  unfold attribs_ok in A. apply andb_true_iff in A as [A F].
  apply andb_true_iff in A as [_ A]. auto.
Qed.

(** The opening of the tag that the serializer writes for a hash. *)
Lemma stringify_open (attribs rest : hash) :
  attribs = [] \/ attribs_ok pa attribs = true ->
  get "_Attribs" rest = None ->
  match get "_Attribs" (attribs_leaf attribs ++ rest)%list with
  | Some a => stringify_attribs true a
  | None => Some ""
  end = Some (attribs_text attribs)
  /\ match get "_Attribs" (attribs_leaf attribs ++ rest)%list with
     | Some _ => 1
     | None => 0
     end = numKeys (attribs_leaf attribs).
Proof.
  intros A G. destruct (attribs_ok_facts attribs A) as [As F].
  rewrite get_app. destruct attribs as [|e es].
  - cbn [attribs_leaf get]. rewrite G. split; reflexivity.
  - cbn [attribs_leaf get String.eqb Ascii.eqb Bool.eqb].
    split; [|reflexivity]. now apply stringify_attribs_text.
Qed.

(** ** The items of the normal form *)

Variables (ind eol : string).

Hypotheses (blank_ind : blank ind = true) (blank_eol : blank eol = true).

Lemma blank_repeat (d : nat) : blank (repeat_string ind d) = true.
Proof.
  induction d as [|d IH]; [reflexivity|].
  cbn [repeat_string]. now rewrite blank_app, blank_ind, IH.
Qed.

Lemma named_call (k : string) (d : nat) :
  k <> "" -> ((d =? 0)%nat && String.eqb k "") = false.
Proof.
  intros N. rewrite (proj2 (String.eqb_neq _ _) N). apply andb_false_r.
Qed.

Lemma set_last (k : string) (v w : node) (b : hash) :
  get k b = None -> set k w (b ++ [(k, v)])%list = (b ++ [(k, w)])%list.
Proof.
  induction b as [|[k' v'] b IH]; cbn [get set app].
  - now rewrite String.eqb_refl.
  - destruct (String.eqb k k'); [discriminate|]. intros G. now rewrite IH.
Qed.

Lemma get_last (k : string) (v : node) (b : hash) :
  get k b = None -> get k (b ++ [(k, v)])%list = Some v.
Proof.
  intros G. rewrite get_app, G. cbn [get]. now rewrite String.eqb_refl.
Qed.

Lemma attached_fresh (k : string) (v : node) (b : hash) :
  get k b = None -> attached k v b = (b ++ [(k, v)])%list.
Proof. intros G. unfold attached. rewrite G. now apply set_fresh. Qed.

Lemma attached_more (k : string) (b : hash) (l acc : list node) :
  get k b = None ->
  fold_left (fun b v => attached k v b) l (b ++ [(k, Sequence acc)])%list
  = (b ++ [(k, Sequence (acc ++ l))])%list.
Proof.
  intros G. revert acc. induction l as [|v l IH]; intros acc; cbn [fold_left].
  - now rewrite app_nil_r.
  - unfold attached at 2. rewrite get_last, set_last by exact G.
    rewrite IH, <- app_assoc. reflexivity.
Qed.

(** The array that [attach] makes of two or more items of one name. *)
Lemma attached_fold (k : string) (b : hash) (v1 v2 : node) (l : list node) :
  get k b = None -> (forall items, v1 <> Sequence items) ->
  fold_left (fun b v => attached k v b) (v1 :: v2 :: l) b
  = (b ++ [(k, Sequence (v1 :: v2 :: l))])%list.
Proof.
  intros G N. cbn [fold_left]. rewrite (attached_fresh k v1 b G).
  unfold attached at 2. rewrite get_last by exact G.
  destruct v1 as [s|h|items]; [| |now destruct (N items)];
    rewrite set_last by exact G; now rewrite attached_more.
Qed.

Lemma compress_data (s : string) (st : parser) :
  opts st = o -> XML.compress XmlJs [("_Data", Text s)] st = Done (Text s) st.
Proof. intros O. unfold XML.compress, bind, this. rewrite O. reflexivity. Qed.

(** A string. *)
Lemma item_text (s : string) : item_round_trip pa pw ind eol (Text s).
Proof.
  intros C k d K. cbn [canonical] in C.
  destruct (valid_key_facts k K) as (V & I & _ & _ & N).
  exists ("<" ++ k ++ ">" ++ encodeEntities s ++ "</" ++ k ++ ">"), 1.
  split.
  - cbn [stringify]. rewrite (named_call k d N). unfold header.
    f_equal. f_equal. f_equal. norm_app. reflexivity.
  - apply (item_element k [] (encodeEntities s) [("_Data", Text s)] (Text s) 1);
      auto.
    + apply (child_loop_data k s []); auto.
    + intros st O. now apply compress_data.
Qed.

(** A hash without children: the tag closes itself. *)
Lemma item_empty (attribs : hash) :
  attribs = [] \/ attribs_ok pa attribs = true ->
  item_round_trip pa pw ind eol (Element (attribs_leaf attribs)).
Proof.
  intros A _ k d K.
  destruct (valid_key_facts k K) as (V & I & _ & _ & N).
  exists ("<" ++ k ++ attribs_text attribs ++ "/>"), 0. split.
  - rewrite stringify_hash, (named_call k d N).
    destruct (stringify_open attribs [] A eq_refl) as [E1 E2].
    rewrite app_nil_r in E1, E2. rewrite E1, E2. cbn [and_then].
    rewrite Nat.leb_refl. unfold header. f_equal. norm_app. reflexivity.
  - now apply item_self_closed.
Qed.

(** A hash with attributes and data. *)
Lemma item_data (attribs : hash) (s : string) :
  attribs <> [] -> attribs_ok pa attribs = true -> text_ok pw s = true ->
  item_round_trip pa pw ind eol
    (Element (attribs_leaf attribs ++ [("_Data", Text s)])%list).
Proof.
  intros NE A T _ k d K.
  destruct (valid_key_facts k K) as (V & I & _ & _ & N).
  exists ("<" ++ k ++ attribs_text attribs ++ ">" ++ encodeEntities s
          ++ "</" ++ k ++ ">"), 1.
  split.
  - rewrite stringify_hash, (named_call k d N).
    destruct (stringify_open attribs [("_Data", Text s)] (or_intror A) eq_refl)
      as [E1 E2].
    rewrite E1, E2. cbn [and_then].
    destruct attribs as [|e es]; [congruence|].
    cbn [attribs_leaf app numKeys List.length Nat.leb get String.eqb Ascii.eqb
         Bool.eqb].
    pose proof (text_ok_truthy s T) as Tr.
    destruct s as [|c s]; [discriminate Tr|].
    cbn [encode_node and_then]. unfold header. f_equal. norm_app. reflexivity.
  - apply (item_element k attribs (encodeEntities s)
             (attribs_leaf attribs ++ [("_Data", Text s)])%list); auto.
    + apply child_loop_data; auto. apply attribs_leaf_get. discriminate.
    + intros st O. unfold XML.compress, bind, this, read. rewrite O.
      cbn [dataKey o round_trip_options].
      rewrite get_app, attribs_leaf_get by discriminate.
      destruct attribs as [|e es]; [congruence|]. reflexivity.
Qed.

(** The end of each line goes before the indent of the next. *)
Lemma lines_regroup (i : string) (cores : list string) :
  eol ++ String.concat "" (map (fun c => i ++ c ++ eol) cores)
  = String.concat "" (map (fun c => (eol ++ i) ++ c) cores) ++ eol.
Proof.
  induction cores as [|c cores IH]; cbn [map].
  - cbn [String.concat]. now rewrite append_nil_r.
  - rewrite !concat_cons, !append_assoc, <- IH. reflexivity.
Qed.

(** The children that the serializer looks up are the entries of the hash
    behind its attributes. *)
Lemma children_keys (attribs rest : hash) :
  attribs = [] \/ attribs_ok pa attribs = true ->
  children_ok (canonical pa pw) rest = true ->
  filter (fun key => negb (String.eqb key "_Attribs") && re_valid_tag_name key)
    (sort_keys (hashKeysToArray (attribs_leaf attribs ++ rest)%list))
  = keys rest.
Proof.
  intros A C. destruct (children_ok_entries _ _ C) as [As E].
  assert (F : filter (fun key => negb (String.eqb key "_Attribs")
                                 && re_valid_tag_name key) (keys rest)
              = keys rest).
  { apply forallb_filter_id. apply forallb_forall. intros x X.
    unfold keys in X. apply in_map_iff in X as [e [<- X]].
    destruct (E e X) as [K _].
    destruct (valid_key_facts _ K) as (V & _ & NA & _).
    now rewrite V, (proj2 (String.eqb_neq _ _) NA). }
  unfold hashKeysToArray, keys. rewrite map_app. fold (keys rest).
  destruct attribs as [|e es]; cbn [attribs_leaf map app fst].
  - now rewrite sort_keys_ascending.
  - cbn [sort_keys fold_right]. fold (sort_keys (keys rest)).
    rewrite sort_keys_ascending by exact As.
    now rewrite filter_insert_key.
Qed.

(** A hash with children, when its children read back. *)
Lemma item_children (attribs rest : hash) :
  attribs = [] \/ attribs_ok pa attribs = true ->
  children_ok (canonical pa pw) rest = true -> rest <> [] ->
  (forall d, children_round_trip pa pw ind eol (S d) rest) ->
  item_round_trip pa pw ind eol (Element (attribs_leaf attribs ++ rest)%list).
Proof.
  intros A C NE H _ k d K.
  destruct (valid_key_facts k K) as (V & I & _ & _ & N).
  destruct (H d) as (bodies & cores & n & f0 & S1 & S2 & L).
  assert (GA : get "_Attribs" rest = None)
    by (now apply (children_no_reserved (canonical pa pw))).
  assert (GD : get "_Data" (attribs_leaf attribs ++ rest)%list = None).
  { rewrite get_app, attribs_leaf_get by discriminate.
    now apply (children_no_reserved (canonical pa pw)). }
  assert (KA : forall x, In x (keys rest) -> x <> "_Attribs").
  { intros x X ->. apply children_ok_entries in C as [_ C].
    unfold keys in X. apply in_map_iff in X as [e [E X]].
    destruct (C e X) as [Ke _]. rewrite E in Ke. discriminate Ke. }
  assert (RG : eol ++ String.concat ""
                        (map (fun c => repeat_string ind (S d) ++ c ++ eol) cores)
               ++ repeat_string ind d
               = String.concat ""
                   (map (fun c => (eol ++ repeat_string ind (S d)) ++ c) cores)
                 ++ eol ++ repeat_string ind d).
  { now rewrite <- append_assoc, lines_regroup, append_assoc. }
  exists ("<" ++ k ++ attribs_text attribs ++ ">"
          ++ (String.concat ""
                (map (fun c => (eol ++ repeat_string ind (S d)) ++ c) cores)
              ++ eol ++ repeat_string ind d)
          ++ "</" ++ k ++ ">"), (n + f0 + 1).
  split.
  - rewrite stringify_hash, (named_call k d N).
    destruct (stringify_open attribs rest A GA) as [E1 E2].
    rewrite E1, E2. cbn [and_then].
    assert (NK : (numKeys (attribs_leaf attribs ++ rest)%list
                  <=? numKeys (attribs_leaf attribs))%nat = false).
    { apply Nat.leb_gt. unfold numKeys. rewrite length_app.
      destruct rest; [congruence|]. cbn [List.length]. lia. }
    rewrite NK, GD, (children_keys attribs rest A C).
    assert (M : map (fun key =>
                       child <~ get key (attribs_leaf attribs ++ rest)%list ;;
                       stringify child key (d + 1) ind eol true) (keys rest)
                = map (fun e => stringify (snd e) (fst e) (S d) ind eol true) rest).
    { transitivity
        (map (fun key =>
                (fun key (c : option node) =>
                   child <~ c ;; stringify child key (d + 1) ind eol true)
                  key (get key rest)) (keys rest)).
      - apply map_ext_in. intros x X. cbn beta.
        now rewrite get_app, attribs_leaf_get by auto.
      - etransitivity;
          [exact (map_get_entries
                    (fun key (c : option node) =>
                       child <~ c ;; stringify child key (d + 1) ind eol true)
                    rest (proj1 (children_ok_entries _ _ C)))|].
        apply map_ext. intros e. cbn [and_then]. now rewrite Nat.add_1_r. }
    rewrite M, S1. cbn [and_then]. rewrite S2, <- RG. unfold header.
    f_equal. norm_app. reflexivity.
  - apply (item_element k attribs _ (attribs_leaf attribs ++ rest)%list); auto.
    + intros st pre post R f F.
      assert (W : blank (eol ++ repeat_string ind (S d)) = true)
        by (now rewrite blank_app, blank_eol, blank_repeat).
      assert (W' : blank (eol ++ repeat_string ind d) = true)
        by (now rewrite blank_app, blank_eol, blank_repeat).
      rewrite append_assoc in R.
      replace f with (n + (f - n)) by lia.
      rewrite (L _ W st pre _ R (f - n)); [|lia|].
      2:{ intros x X. apply attribs_leaf_get. auto. }
      destruct (f - n) as [|f'] eqn:Ef; [lia|]. cbn [XML.parse_loop].
      rewrite (loop_close _ _ _ _ _ _ _ _ _ _ (reads_advance _ _ _ _ _ R)
                 (blank_no_tag _ W') V).
      rewrite (blank_patNonSpace _ W'). unfold bind, ret.
      rewrite advance_advance. f_equal. f_equal. norm_app. reflexivity.
    + intros st O. now apply compress_plain.
Qed.

(** ** The children of a hash *)

Lemma children_nil (d : nat) : children_round_trip pa pw ind eol d [].
Proof.
  exists [], [], 0, 0. repeat split. intros ws _.
  eapply loop_steps_weaken; [apply (loop_steps_nil (fun _ => True))| |lia].
  intros b _. now rewrite app_nil_r.
Qed.

(** A child that is one item. *)
Lemma children_single (k : string) (v : node) (d : nat) :
  item_round_trip pa pw ind eol v -> canonical pa pw v = true ->
  valid_key k = true ->
  children_round_trip pa pw ind eol (S d) [(k, v)].
Proof.
  intros H C K. destruct (H C k (S d) K) as (core & f0 & S1 & I).
  exists [repeat_string ind (S d) ++ core ++ eol], [core], 1, f0.
  split; [|split].
  - cbn [map sequence_options fst snd]. rewrite S1. reflexivity.
  - reflexivity.
  - intros ws W. cbn [map String.concat].
    eapply loop_steps_weaken; [apply (loop_steps_item core k v f0 ws I W)| |lia].
    intros b G. split; [exact Logic.I|].
    symmetry. apply attached_fresh. apply G. now left.
Qed.

(** The items of an array, one after the other. *)
Lemma items_rounds (k : string) (d : nat) (items : list node) :
  Forall (item_round_trip pa pw ind eol) items ->
  forallb (canonical pa pw) items = true -> valid_key k = true ->
  exists cores f0,
    sequence_options
      (map (fun item => stringify item k (S d) ind eol true) items)
    = Some (map (fun c => repeat_string ind (S d) ++ c ++ eol) cores)
    /\ forall ws, blank ws = true ->
         loop_steps o (String.concat "" (map (fun c => ws ++ c) cores))
           (fun _ => True)
           (fun b => fold_left (fun b v => attached k v b) items b)
           (List.length items) f0.
Proof.
  intros F C K. induction F as [|v items H F IH].
  - exists [], 0. split; [reflexivity|]. intros ws _. apply loop_steps_nil.
  - cbn [forallb] in C. apply andb_true_iff in C as [Cv C].
    destruct (IH C) as (cores & f1 & S1 & L).
    destruct (H Cv k (S d) K) as (core & f0 & S0 & I).
    exists (core :: cores), (Nat.max f0 f1). split.
    + cbn [map sequence_options]. rewrite S0, S1. reflexivity.
    + intros ws W. cbn [map]. rewrite concat_cons.
      apply (loop_steps_app (ws ++ core) _ (fun _ => True) (fun _ => True)
               (attached k v) _ 1 (List.length items) f0 f1);
        [now apply loop_steps_item|now apply L|auto].
Qed.

(** A child that is an array of two or more items. *)
Lemma children_sequence (k : string) (items : list node) (d : nat) :
  Forall (item_round_trip pa pw ind eol) items ->
  forallb (canonical pa pw) items = true -> 2 <= List.length items ->
  valid_key k = true ->
  children_round_trip pa pw ind eol (S d) [(k, Sequence items)].
Proof.
  intros F C N K.
  destruct (items_rounds k d items F C K) as (cores & f0 & S1 & L).
  exists [String.concat ""
            (map (fun c => repeat_string ind (S d) ++ c ++ eol) cores)],
         cores, (List.length items), f0.
  split; [|split].
  - cbn [map sequence_options fst snd stringify Nat.eqb andb].
    rewrite S1. reflexivity.
  - reflexivity.
  - intros ws W.
    eapply loop_steps_weaken; [apply (L ws W)| |lia].
    intros b G. split; [exact Logic.I|].
    destruct items as [|v1 [|v2 items]]; cbn [List.length] in N; try lia.
    symmetry. apply attached_fold; [apply G; now left|].
    intros l ->. cbn [forallb canonical andb] in C. discriminate C.
Qed.

(** An entry before the entries that follow it. *)
Lemma children_cons (e : string * node) (rest : hash) (d : nat) :
  children_round_trip pa pw ind eol d [e] ->
  children_round_trip pa pw ind eol d rest ->
  forallb (String.ltb (fst e)) (keys rest) = true ->
  children_round_trip pa pw ind eol d (e :: rest).
Proof.
  intros (b1 & c1 & n1 & f1 & S1 & T1 & L1) (b2 & c2 & n2 & f2 & S2 & T2 & L2) A.
  cbn [map sequence_options] in S1.
  destruct (stringify (snd e) (fst e) d ind eol true) as [x|] eqn:E;
    [|discriminate S1].
  injection S1 as <-.
  exists (x :: b2), (c1 ++ c2)%list, (n1 + n2), (Nat.max f1 f2).
  split; [|split].
  - cbn [map sequence_options]. rewrite E, S2. reflexivity.
  - rewrite map_app, concat_app, <- T1, <- T2, concat_cons. reflexivity.
  - intros ws W. rewrite map_app, concat_app.
    assert (L1' : loop_steps o (String.concat "" (map (fun c => ws ++ c) c1))
                    (fun b => forall x0, In x0 (keys (e :: rest)) -> get x0 b = None)
                    (fun b => (b ++ [e])%list) n1 f1).
    { eapply loop_steps_weaken; [apply (L1 ws W)| |lia].
      intros b G. split; [|reflexivity].
      intros x0 X. apply G. cbn [keys map In] in *. tauto. }
    eapply loop_steps_weaken;
      [apply (loop_steps_app _ _ _ _ _ _ _ _ _ _ L1' (L2 ws W))| |lia].
    + intros b G x0 X. rewrite get_app, (G x0) by (cbn [keys map In] in *; tauto).
      destruct e as [k v]. cbn [get fst] in *.
      destruct (String.eqb_spec x0 k) as [->|_]; [|reflexivity].
      destruct (ascending_fresh _ _ A _ X eq_refl).
    + intros b G. split; [exact G|]. now rewrite <- app_assoc.
Qed.

(** ** Every tree of the normal form *)

Lemma item_of_node (v : node) :
  node_round_trip pa pw ind eol v -> item_round_trip pa pw ind eol v.
Proof.
  destruct v; auto. intros _ C. discriminate C.
Qed.

Lemma children_all (rest : hash) (d : nat) :
  ascending (keys rest) = true ->
  (forall e, In e rest ->
     valid_key (fst e) = true
     /\ match snd e with
        | Sequence items =>
            2 <= List.length items /\ forallb (canonical pa pw) items = true
        | _ => canonical pa pw (snd e) = true
        end) ->
  Forall (fun e => node_round_trip pa pw ind eol (snd e)) rest ->
  children_round_trip pa pw ind eol (S d) rest.
Proof.
  intros A E F. induction F as [|[k v] rest H F IH]; [apply children_nil|].
  cbn [keys map ascending fst] in A. apply andb_true_iff in A as [A1 A2].
  apply children_cons; [|apply IH; auto; intros e X; apply E; now right|exact A1].
  destruct (E (k, v) (or_introl eq_refl)) as [K V]. cbn [fst snd] in *.
  destruct v as [s|h|items].
  - now apply children_single.
  - now apply children_single.
  - destruct V as [N C]. now apply children_sequence.
Qed.

Lemma tree_round_trip (v : node) : node_round_trip pa pw ind eol v.
Proof.
  induction v as [s|h IH|l IH] using node_induction; cbn [node_round_trip].
  - apply item_text.
  - intros C. destruct (canonical_element h C) as (attribs & rest & -> & A & R).
    apply Forall_app in IH as [_ IH]. revert C.
    destruct R as [[NE (s & -> & T)]|R].
    + destruct A as [->|A]; [congruence|]. now apply item_data.
    + destruct rest as [|e rest].
      * rewrite app_nil_r. now apply item_empty.
      * apply item_children; auto; [discriminate|].
        intros d. destruct (children_ok_entries _ _ R) as [As E].
        now apply children_all.
  - eapply Forall_impl; [|exact IH]. apply item_of_node.
Qed.

End Rounds.

(** ** More fuel *)

Lemma fuel_le_refl {A : Type} (r : outcome A) : fuel_le r r.
Proof. now right. Qed.

Lemma fuel_le_bind {A B : Type} (m1 m2 : M A) (f1 f2 : A -> M B) (st : parser) :
  fuel_le (m1 st) (m2 st) ->
  (forall a st', fuel_le (f1 a st') (f2 a st')) ->
  fuel_le (bind m1 f1 st) (bind m2 f2 st).
Proof.
  unfold bind. intros [H | H] K; rewrite H; [now left|].
  destruct (m2 st); auto using fuel_le_refl.
Qed.

(** One round of the loop with more fuel in its nested call and in the
    rounds that follow. *)
Lemma fuel_le_loop_body (c : copy)
    (child1 child2 : string -> hash -> M hash)
    (next1 next2 : hash -> M (hash * bool))
    (top : bool) (name : option string) (branch : hash) (st : parser) :
  (forall n leaf st', fuel_le (child1 n leaf st') (child2 n leaf st')) ->
  (forall b st', fuel_le (next1 b st') (next2 b st')) ->
  fuel_le (XML.loop_body c child1 next1 top name branch st)
    (XML.loop_body c child2 next2 top name branch st).
Proof.
  intros Hchild Hnext. unfold XML.loop_body.
  apply fuel_le_bind; [apply fuel_le_refl|]. intros st0 st1.
  destruct (patTag_exec (text st0) (lastIndex st0)) as [[[before tag] index]|];
    [|apply fuel_le_refl].
  apply fuel_le_bind; [apply fuel_le_refl|]. intros _ st2.
  apply fuel_le_bind; [apply fuel_le_refl|]. intros b st3.
  destruct (patSpecialTag tag).
  - destruct (patPITag tag).
    { apply fuel_le_bind; [apply fuel_le_refl|]. intros; apply Hnext. }
    destruct (patCommentTag tag).
    { apply fuel_le_bind; [apply fuel_le_refl|]. intros; apply Hnext. }
    destruct (patDTDTag tag).
    { apply fuel_le_bind; [apply fuel_le_refl|]. intros; apply Hnext. }
    destruct (patCDATATag tag); [|apply fuel_le_refl].
    apply fuel_le_bind; [apply fuel_le_refl|]. intros payload st4.
    apply fuel_le_bind; [apply fuel_le_refl|]. intros; apply Hnext.
  - destruct (patStandardTag tag) as [[[closing matches2] attribsRaw]|];
      [|apply fuel_le_refl].
    destruct closing; [apply fuel_le_refl|].
    apply fuel_le_bind; [apply fuel_le_refl|]. intros leaf st4.
    apply fuel_le_bind.
    { destruct (negb (patSelfClosing attribsRaw));
        [apply Hchild|apply fuel_le_refl]. }
    intros leaf' st5.
    apply fuel_le_bind; [apply fuel_le_refl|]. intros st6 st7.
    destruct (negb (patSelfClosing attribsRaw) && negb (XML.error st6 =? 0)%nat);
      [apply fuel_le_refl|].
    apply fuel_le_bind; [apply fuel_le_refl|]. intros v st8.
    apply fuel_le_bind; [apply fuel_le_refl|]. intros b' st9.
    apply fuel_le_bind; [apply fuel_le_refl|]. intros st10 st11.
    destruct (negb (XML.error st10 =? 0)%nat || top);
      [apply fuel_le_refl|apply Hnext].
Qed.

(** The loop with more fuel ends as it does with less, when the less is
    enough. *)
Lemma fuel_le_parse_loop (c : copy) (f1 : nat) :
  forall f2, f1 <= f2 ->
  forall top name branch st,
    fuel_le (XML.parse_loop c f1 top name branch st)
      (XML.parse_loop c f2 top name branch st).
Proof.
  induction f1 as [|f1 IH]; intros f2 L top name branch st; [now left|].
  destruct f2 as [|f2]; [lia|]. cbn [XML.parse_loop].
  apply fuel_le_loop_body.
  - intros n leaf st'. apply fuel_le_bind; [apply IH; lia|].
    intros; apply fuel_le_refl.
  - intros b st'. apply IH. lia.
Qed.

(** ** The text of a whole tree *)

(** The round that reads the declaration. *)
Lemma loop_declaration (o : options) (st : parser) (post : string) :
  reads o st "" (xml_header ++ post) ->
  exists st1,
    reads o st1 xml_header post
    /\ forall c child next top name branch,
         XML.loop_body c child next top name branch st = next branch st1.
Proof.
  intros (T & L & E & O).
  assert (X : patTag_exec (text st) (lastIndex st)
              = Some ("", declaration, length xml_header)).
  { rewrite T, L.
    apply (patTag_exec_at "" "" declaration post);
      [reflexivity|reflexivity|discriminate]. }
  exists {| text := text st; opts := opts st; tree := tree st;
            errors := errors st;
            piNodeList := (piNodeList st ++ [declaration])%list;
            dtdNodeList := dtdNodeList st;
            documentNodeName := documentNodeName st;
            lastIndex := length xml_header |}.
  split.
  - unfold reads. cbn [text lastIndex errors opts]. rewrite T. auto.
  - intros. unfold XML.loop_body, bind, this. rewrite X. reflexivity.
Qed.

(** The two rounds of the first call of [parse] on the text of a tree. *)
Lemma root_rounds (pa pw : bool) (core name : string) (t : node) (f0 : nat)
    (eol post : string) (st : parser) :
  item_step (round_trip_options pa pw) core name t f0 -> blank eol = true ->
  reads (round_trip_options pa pw) st "" (xml_header ++ eol ++ core ++ post) ->
  forall f, f0 <= f ->
  exists st2,
    XML.parse_loop XmlJs (S (S f)) true None [] st
    = Done ([(name, t)], false) st2
    /\ opts st2 = round_trip_options pa pw /\ errors st2 = [].
Proof.
  intros I B R f F.
  destruct (loop_declaration _ st _ R) as (st1 & R1 & H).
  cbn [XML.parse_loop]. rewrite H.
  eexists. split.
  - etransitivity; [apply (I st1 xml_header eol post R1 B f F true None [])|].
    reflexivity.
  - destruct R1 as (_ & _ & E & O). cbn [advance opts errors]. auto.
Qed.

(** The first call of [parse] that ends with one name in the tree makes
    the value of that name the tree. *)
Lemma parse_document (c : copy) (pa pw : bool) (txt name : string) (t : node)
    (st2 : parser) :
  txt <> "" ->
  XML.parse_loop c (S (length txt)) true None []
    {| text := txt; opts := round_trip_options pa pw; tree := Element [];
       errors := []; piNodeList := []; dtdNodeList := [];
       documentNodeName := Some ""; lastIndex := 0 |}
  = Done ([(name, t)], false) st2 ->
  opts st2 = round_trip_options pa pw -> errors st2 = [] ->
  name <> "" -> name <> "_Data" ->
  returned (parse c txt (round_trip_options pa pw)) = Some t.
Proof.
  intros NT Q O2 E2 NE ND.
  unfold parse, XML.create. cbn [lowerCase round_trip_options].
  rewrite (proj2 (String.eqb_neq _ _) NT).
  unfold XML.parse, bind. rewrite Q.
  unfold XML.parse_finish, bind, this, ret.
  cbn [XML.name_or_empty String.eqb negb andb]. rewrite O2.
  cbn [dataKey preserveDocumentNode round_trip_options delete].
  rewrite (proj2 (String.eqb_neq _ _) (not_eq_sym ND)).
  cbn [numKeys List.length Nat.ltb Nat.leb firstKey].
  rewrite (proj2 (String.eqb_neq _ _) NE).
  cbn [negb andb get]. rewrite String.eqb_refl.
  unfold set_document. cbn [XML.error errors]. rewrite E2. reflexivity.
Qed.

Lemma parse_loop_S (c : copy) (f : nat) (top : bool) (name : option string)
    (branch : hash) :
  XML.parse_loop c (S f) top name branch
  = XML.loop_body c
      (fun nodeName leaf =>
         r <- XML.parse_loop c f false (Some nodeName) leaf ;;
         XML.parse_finish false (Some nodeName) r)
      (fun branch => XML.parse_loop c f top name branch)
      top name branch.
Proof. reflexivity. Qed.

(** C1, as the specification states it, fails.  The keys of the hash below
    match the pattern of valid tag names, and the hash is not an element
    of data alone, so no collapsing applies to it; it is the tree that the
    parser makes of [<doc>x<b>y</b></doc>].  The serializer writes its
    data and leaves out the child [b]; the parser makes the string [x] of
    the text, in both copies, with the default options and with
    [preserveAttributes] and [preserveWhitespace] set. *)
Lemma round_trip_loses_children :
  forallb re_valid_tag_name
    (keys [("_Data", Text "x"); ("b", Text "y")]) = true
  /\ returned (parse XmlJs "<doc>x<b>y</b></doc>" default_options)
     = Some (Element [("_Data", Text "x"); ("b", Text "y")])
  /\ stringify (Element [("_Data", Text "x"); ("b", Text "y")]) "doc" 0
       (String tab "") (String newline "") true
     = Some (xml_header ++ String newline ("<doc>x</doc>" ++ String newline ""))
  /\ round_trip XmlJs default_options
       (Element [("_Data", Text "x"); ("b", Text "y")]) "doc"
       (String tab "") (String newline "") = Some (Text "x")
  /\ round_trip Part000 default_options
       (Element [("_Data", Text "x"); ("b", Text "y")]) "doc"
       (String tab "") (String newline "") = Some (Text "x")
  /\ round_trip XmlJs (round_trip_options true true)
       (Element [("_Data", Text "x"); ("b", Text "y")]) "doc"
       (String tab "") (String newline "") = Some (Text "x")
  /\ round_trip Part000 (round_trip_options true true)
       (Element [("_Data", Text "x"); ("b", Text "y")]) "doc"
       (String tab "") (String newline "") = Some (Text "x").
Proof. vm_compute. repeat split. Qed.

(** C1, amended.  A tree in the normal form of the parser is a string with
    a character that is no white space (and without white space at its
    ends unless [preserveWhitespace]), or a hash: its attributes, if any
    and only with [preserveAttributes], stand first under [_Attribs],
    have strings as values and ascend by name; behind them stands the
    data alone, beside attributes only, or stand the children, under
    ascending valid tag names that are not reserved and not inherited,
    each a tree in normal form or an array of two or more of them.  The
    text that the serializer writes of such a tree under a valid name,
    sorted and with white space as indent and end of line, is parsed by
    [xml.js] to the tree itself, with the fuel that [new XML] gives. *)
Theorem canonical_tree_round_trip (pa pw : bool) (t : node)
    (name indent_string eol : string) :
  canonical pa pw t = true -> valid_key name = true ->
  blank indent_string = true -> blank eol = true ->
  round_trip XmlJs (round_trip_options pa pw) t name indent_string eol = Some t.
Proof.
  intros C K Bi Be.
  pose proof (tree_round_trip pa pw indent_string eol Bi Be t) as H.
  apply item_of_node in H.
  destruct (H C name 0 K) as (core & f0 & Sx & I).
  destruct (valid_key_facts name K) as (_ & _ & _ & ND & NE).
  unfold round_trip. rewrite Sx.
  change (header eol 0 ++ repeat_string indent_string 0 ++ core ++ eol)
    with ((xml_header ++ eol) ++ core ++ eol).
  rewrite append_assoc.
  set (xml := xml_header ++ eol ++ core ++ eol).
  set (o := round_trip_options pa pw).
  set (st0 := {| text := xml; opts := o; tree := Element []; errors := [];
                 piNodeList := []; dtdNodeList := [];
                 documentNodeName := Some ""; lastIndex := 0 |}).
  assert (R : reads o st0 "" xml) by (repeat split).
  destruct (root_rounds pa pw core name t f0 eol eol st0 I Be R
              (Nat.max f0 (length xml)) (Nat.le_max_l _ _))
    as (st2 & P & O2 & E2).
  assert (Q : XML.parse_loop XmlJs (S (length xml)) true None [] st0
              = Done ([(name, t)], false) st2).
  { destruct (fuel_le_parse_loop XmlJs (S (length xml))
                (S (S (Nat.max f0 (length xml)))) ltac:(lia) true None [] st0)
      as [Q|Q]; [|now rewrite Q].
    pose proof (post_parse_loop xml o XmlJs (S (length xml)) true None [] st0)
      as PP.
    rewrite Q in PP. destruct PP.
    - repeat split. cbn [lastIndex st0]. lia.
    - cbn [lastIndex st0]. lia. }
  assert (NX : xml <> "") by discriminate.
  exact (parse_document XmlJs pa pw xml name t st2 NX Q O2 E2 NE ND).
Qed.

(** C1 on a tree with attributes, an array, data beside attributes, an
    empty hash and a nested child, with [preserveAttributes]. *)
Lemma canonical_tree_round_trip_witness :
  round_trip XmlJs (round_trip_options true false)
    (Element
        [("_Attribs", Element [("id", Text "1 < 2"); ("x", Text "it's")]);
         ("a", Sequence
                 [Text "1";
                  Element [("_Attribs", Element [("k", Text "v")]);
                           ("_Data", Text "a & b")]]);
         ("b", Element []);
         ("c", Element [("d", Text "deep")])])
    "doc" (String tab "") (String newline "")
  = Some
      (Element
          [("_Attribs", Element [("id", Text "1 < 2"); ("x", Text "it's")]);
           ("a", Sequence
                   [Text "1";
                    Element [("_Attribs", Element [("k", Text "v")]);
                             ("_Data", Text "a & b")]]);
           ("b", Element []);
           ("c", Element [("d", Text "deep")])]).
Proof.
  apply (canonical_tree_round_trip true false
           (Element
               [("_Attribs", Element [("id", Text "1 < 2"); ("x", Text "it's")]);
                ("a", Sequence
                        [Text "1";
                         Element [("_Attribs", Element [("k", Text "v")]);
                                  ("_Data", Text "a & b")]]);
                ("b", Element []);
                ("c", Element [("d", Text "deep")])])
           "doc" (String tab "") (String newline "")); reflexivity.
Defined.

(** ** CDATA sections *)

Lemma split_first (a : ascii) (s : string) :
  has a s = true -> exists x y, s = x ++ String a y /\ has a x = false.
Proof.
  unfold has. induction s as [|c s IH]; cbn [exists_char]; [discriminate|].
  destruct (Ascii.eqb a c) eqn:E.
  - intros _. apply Ascii.eqb_eq in E as <-. now exists "", s.
  - cbn [orb]. intros H. destruct (IH H) as (x & y & -> & Hx).
    exists (String c x), y. cbn [append exists_char]. now rewrite E, Hx.
Qed.

Lemma patNextClose_all_piece (x r : string) :
  has ">" x = false ->
  patNextClose_all (x ++ String ">" r) = x :: patNextClose_all r.
Proof.
  unfold has. induction x as [|c x IH]; cbn [exists_char append patNextClose_all].
  - reflexivity.
  - intros H. apply orb_false_iff in H as [Hc Hx].
    rewrite Ascii.eqb_sym, Hc, (IH Hx). reflexivity.
Qed.

Lemma swallow_closed (closed : string -> bool) (tag : string) (index : nat)
    (segs : list string) :
  closed tag = true -> XML.swallow closed tag index segs = (tag, Some index).
Proof. intros H. destruct segs; cbn [XML.swallow]; now rewrite H. Qed.

(** The scanner of a special tag stops at the first [>] behind which the
    tag is closed. *)
Lemma swallow_closes (closed : string -> bool) (post : string) (n : nat) :
  forall q tag index,
    length q <= n ->
    closed tag = false ->
    (forall x y, q = x ++ String ">" y -> closed (tag ++ ">" ++ x) = false) ->
    closed (tag ++ ">" ++ q) = true ->
    XML.swallow closed tag index (patNextClose_all (q ++ ">" ++ post))
    = (tag ++ ">" ++ q, Some (index + length q + 1)).
Proof.
  induction n as [|n IH]; intros q tag index L T P C;
    change (">" ++ post) with (String ">" post).
  - destruct q; [|cbn [length] in L; lia].
    rewrite (patNextClose_all_piece "" post eq_refl). cbn [XML.swallow].
    rewrite T. rewrite swallow_closed by exact C. reflexivity.
  - destruct (has ">" q) eqn:H.
    + destruct (split_first _ _ H) as (x & y & -> & Hx).
      rewrite append_assoc.
      change (String ">" y ++ String ">" post)
        with (String ">" (y ++ ">" ++ post)).
      rewrite (patNextClose_all_piece x _ Hx). cbn [XML.swallow]. rewrite T.
      rewrite length_append in L. cbn [length] in L.
      rewrite (IH y (tag ++ ">" ++ x) (index + length x + 1)).
      * rewrite length_append. cbn [length]. f_equal.
        -- now rewrite !append_assoc.
        -- f_equal. lia.
      * lia.
      * now apply (P x y).
      * intros x' y' ->.
        replace ((tag ++ ">" ++ x) ++ ">" ++ x')
          with (tag ++ ">" ++ (x ++ String ">" x'))
          by (now rewrite !append_assoc).
        apply (P (x ++ String ">" x') y'). now rewrite append_assoc.
      * etransitivity; [|exact C]. f_equal. now rewrite !append_assoc.
    + rewrite (patNextClose_all_piece q _ H). cbn [XML.swallow]. rewrite T.
      now rewrite swallow_closed by exact C.
Qed.

(** A tag and the pieces behind it that close it. *)
Lemma tag_then_close (closed : string -> bool) (pre ws head r post : string) :
  has "<" ws = false -> has ">" head = false -> head <> "" ->
  (forall x y, head ++ r = x ++ String ">" y -> closed x = false) ->
  closed (head ++ r) = true ->
  exists x' index,
    patTag_exec (pre ++ ws ++ "<" ++ (head ++ r) ++ ">" ++ post) (length pre)
    = Some (ws, head ++ x', index)
    /\ forall st,
         text st = pre ++ ws ++ "<" ++ (head ++ r) ++ ">" ++ post ->
         lastIndex st = index ->
         XML.next_close closed (head ++ x') st
         = (head ++ r, Some (length (pre ++ ws ++ "<" ++ (head ++ r) ++ ">"))).
Proof.
  intros W Hh N P C.
  assert (N' : forall x, head ++ x <> "") by (destruct head; [congruence|discriminate]).
  destruct (has ">" r) eqn:Hr.
  - destruct (split_first _ _ Hr) as (x & y & -> & Hx).
    assert (E : pre ++ ws ++ "<" ++ (head ++ x ++ String ">" y) ++ ">" ++ post
                = (pre ++ ws ++ "<" ++ (head ++ x) ++ ">") ++ (y ++ ">" ++ post)).
    { rewrite !append_assoc. reflexivity. }
    exists x, (length (pre ++ ws ++ "<" ++ (head ++ x) ++ ">")). split.
    + replace (pre ++ ws ++ "<" ++ (head ++ x ++ String ">" y) ++ ">" ++ post)
        with (pre ++ ws ++ "<" ++ (head ++ x) ++ ">" ++ (y ++ ">" ++ post))
        by (now rewrite !append_assoc).
      apply patTag_exec_at; auto. now rewrite has_app, Hh, Hx.
    + intros st T L. unfold XML.next_close. rewrite T, L, E, drop_app.
      rewrite (swallow_closes closed post (length y) y (head ++ x) _ (le_n _)).
      * f_equal; [now rewrite !append_assoc|]. f_equal.
        rewrite !length_append. cbn [length]. lia.
      * apply (P (head ++ x) y). now rewrite append_assoc.
      * intros x0 y0 ->.
        apply (P ((head ++ x) ++ ">" ++ x0) y0). now rewrite !append_assoc.
      * etransitivity; [|exact C]. f_equal. now rewrite !append_assoc.
  - exists r, (length (pre ++ ws ++ "<" ++ (head ++ r) ++ ">")). split.
    + apply patTag_exec_at; auto. now rewrite has_app, Hh, Hr.
    + intros st T L. unfold XML.next_close. rewrite L.
      now apply swallow_closed.
Qed.

Lemma contains_cdata_end (p : string) :
  contains "]]>" p = false -> contains "]]>" (p ++ "]]") = false.
Proof.
  induction p as [|c p IH]; [reflexivity|].
  cbn [contains append]. intros H. apply orb_false_iff in H as [H1 H2].
  rewrite (IH H2), orb_false_r.
  destruct p as [|c2 [|c3 p]]; unfold starts_with in *; cbn [strip append] in *.
  - destruct (Ascii.eqb "]" c); reflexivity.
  - destruct (Ascii.eqb "]" c), (Ascii.eqb "]" c2); reflexivity.
  - destruct (Ascii.eqb "]" c), (Ascii.eqb "]" c2), (Ascii.eqb ">" c3);
      auto.
Qed.

Lemma before_last_end (p : string) : before_last "]]" (p ++ "]]") = Some p.
Proof.
  induction p as [|c p IH]; [reflexivity|].
  cbn [append before_last]. now rewrite IH.
Qed.

Lemma patCDATANode_payload (p : string) :
  patCDATANode ("![CDATA[" ++ p ++ "]]") = Some p.
Proof. apply before_last_end. Qed.

(** One round of the loop on a CDATA section: its content goes into the
    data of the branch as other text does. *)
Lemma loop_cdata (o : options) (c : copy)
    (child : string -> hash -> M hash) (next : hash -> M (hash * bool))
    (top : bool) (name : option string) (branch : hash)
    (st : parser) (pre ws p post : string) :
  reads o st pre (ws ++ "<![CDATA[" ++ p ++ "]]>" ++ post) ->
  blank ws = true -> contains "]]>" p = false ->
  XML.loop_body c child next top name branch st
  = (branch <- XML.add_data p branch ;; next branch)
      (advance st (length (pre ++ ws ++ "<![CDATA[" ++ p ++ "]]>"))).
Proof.
  intros (T & L & E & O) W C.
  destruct (tag_then_close patEndCDATA pre ws "![CDATA[" (p ++ "]]") post)
    as (x & index & X & Y).
  - now apply blank_no_tag.
  - reflexivity.
  - discriminate.
  - intros x0 y0 H. destruct (patEndCDATA x0) eqn:En; [exfalso|reflexivity].
    apply ends_with_true in En as [x1 ->].
    assert (K : contains "]]>" ("![CDATA[" ++ p ++ "]]") = true).
    { rewrite H, append_assoc. apply contains_later.
      apply (contains_here "]]>" y0). }
    change (contains "]]>" ("![CDATA[" ++ p ++ "]]"))
      with (contains "]]>" (p ++ "]]")) in K.
    rewrite (contains_cdata_end p C) in K. discriminate K.
  - apply ends_with_true. exists ("![CDATA[" ++ p). now rewrite !append_assoc.
  - assert (T' : text st
                 = pre ++ ws ++ "<" ++ ("![CDATA[" ++ p ++ "]]") ++ ">" ++ post).
    { rewrite T. f_equal. f_equal. norm_app. reflexivity. }
    rewrite <- T', <- L in X.
    unfold XML.loop_body.
    unfold bind at 1. unfold this at 1. rewrite X.
    unfold bind at 1. unfold set_lastIndex at 1.
    rewrite (blank_patNonSpace ws W).
    unfold bind at 1. unfold ret at 1.
    change (patSpecialTag ("![CDATA[" ++ x)) with true.
    change (patPITag ("![CDATA[" ++ x)) with false.
    change (patCommentTag ("![CDATA[" ++ x)) with false.
    change (patDTDTag ("![CDATA[" ++ x)) with false.
    change (patCDATATag ("![CDATA[" ++ x)) with true.
    cbv iota.
    set (st1 := {| text := text st; opts := opts st; tree := tree st;
                   errors := errors st; piNodeList := piNodeList st;
                   dtdNodeList := dtdNodeList st;
                   documentNodeName := documentNodeName st;
                   lastIndex := index |}).
    assert (H1 : XML.parseCDATANode ("![CDATA[" ++ x) st1
                 = Done p (advance st (length (pre ++ ws ++ "<![CDATA[" ++ p
                                               ++ "]]>")))).
    { unfold XML.parseCDATANode, bind, this.
      rewrite (Y st1 T' eq_refl). unfold set_lastIndex.
      rewrite patCDATANode_payload. unfold ret, advance. cbn [text opts tree
        errors piNodeList dtdNodeList documentNodeName st1].
      do 2 f_equal. f_equal. f_equal. norm_app. reflexivity. }
    unfold bind at 1. rewrite H1. reflexivity.
Qed.

(** The rounds of the parser on an element that holds a CDATA section. *)
Lemma cdata_rounds (c : copy) (pw : bool) (p post : string) (st : parser)
    (f : nat) :
  reads (round_trip_options false pw) st ""
    ("<a><![CDATA[" ++ p ++ "]]></a>" ++ post) ->
  contains "]]>" p = false ->
  XML.parse_loop c (S (S (S f))) true None [] st
  = Done ([("a", Text (if pw then decodeEntities p
                       else trim (decodeEntities p)))], false)
      (advance st (length ("<a><![CDATA[" ++ p ++ "]]></a>"))).
Proof.
  intros R C. set (o := round_trip_options false pw) in *.
  set (v := if pw then decodeEntities p else trim (decodeEntities p)).
  pose proof R as (T & L & E & O).
  assert (R1 : reads o (advance st 3) "<a>"
                 ("" ++ "<![CDATA[" ++ p ++ "]]>" ++ "</a>" ++ post)).
  { exact (reads_advance o st "" "<a>" _ R). }
  assert (R2 : reads o (advance st (length ("<a>" ++ "" ++ "<![CDATA[" ++ p
                                            ++ "]]>")))
                 ("<a>" ++ "<![CDATA[" ++ p ++ "]]>")
                 ("" ++ "</" ++ "a" ++ ">" ++ post)).
  { pose proof (reads_advance o (advance st 3) "<a>" ("<![CDATA[" ++ p ++ "]]>")
                  ("</a>" ++ post)) as H.
    apply H. destruct R1 as (T1 & R1). split; [|exact R1].
    rewrite T1. f_equal. norm_app. reflexivity. }
  assert (H1 : XML.parse_loop c (S (S f)) false (Some "a") [] (advance st 3)
               = Done ([("_Data", Text v)], true)
                   (advance st (length ("<a><![CDATA[" ++ p ++ "]]></a>")))).
  { rewrite parse_loop_S.
    rewrite (loop_cdata o c _ _ false (Some "a") [] _ "<a>" "" p
               ("</a>" ++ post) R1 eq_refl C).
    unfold bind at 1.
    assert (A : forall st', opts st' = o ->
                  XML.add_data p [] st' = Done [("_Data", Text v)] st').
    { intros st' O'. unfold XML.add_data, bind, this. rewrite O'.
      unfold v. destruct pw; reflexivity. }
    rewrite advance_advance. rewrite (A (advance st _) O).
    rewrite parse_loop_S.
    etransitivity;
      [exact (loop_close false pw c _ _ false _ _ _ "" "a" post R2 eq_refl
                eq_refl)|].
    cbn [advance]. unfold bind, ret. cbn [patNonSpace exists_char].
    rewrite advance_advance. do 3 f_equal. norm_app. reflexivity. }
  rewrite parse_loop_S.
  assert (R0 : reads o st ""
                 ("" ++ "<" ++ "a" ++ attribs_text [] ++ "" ++ ">"
                  ++ "<![CDATA[" ++ p ++ "]]></a>" ++ post)) by exact R.
  rewrite (loop_open false pw c _ _ true None [] st "" "" "a" [] ""
             _ R0 eq_refl eq_refl (or_introl eq_refl) (or_introl eq_refl)).
  cbn [String.eqb negb attribs_leaf andb].
  change (length ("" ++ "" ++ "<" ++ "a" ++ attribs_text [] ++ "" ++ ">"))
    with 3.
  unfold bind at 1. unfold bind at 1. rewrite H1.
  unfold XML.parse_finish. cbn [XML.name_or_empty String.eqb negb andb].
  unfold bind at 1. unfold ret at 1. unfold ret at 1.
  unfold bind at 1. unfold this at 1.
  unfold XML.error at 1. cbn [advance errors]. rewrite E.
  cbn [List.length Nat.eqb negb].
  assert (K : XML.compress c [("_Data", Text v)]
                (advance st (length ("<a><![CDATA[" ++ p ++ "]]></a>")))
              = Done (Text v)
                  (advance st (length ("<a><![CDATA[" ++ p ++ "]]></a>")))).
  { unfold XML.compress, bind, this. cbn [opts advance]. rewrite O.
    destruct c; reflexivity. }
  unfold bind at 1. rewrite K.
  unfold bind at 1.
  rewrite (attach_attached false pw true "a" (Text v) []) by (auto; exact O).
  unfold bind, this, ret, XML.error. cbn [advance errors]. rewrite E.
  reflexivity.
Qed.

(** C4, amended.  The content of a CDATA section is not read as tags, and
    the entities in it are decoded like those of other text.  For every
    content [p] without the end mark of the section, the document
    [<a><![CDATA[p]]></a>] gives [a] the decoded content, trimmed unless
    [preserveWhitespace] is set, in both copies and with the fuel that
    [new XML] gives. *)
Theorem cdata_is_decoded (c : copy) (pw : bool) (p : string) :
  contains "]]>" p = false ->
  returned (parse c ("<a><![CDATA[" ++ p ++ "]]></a>")
              (set_preserveWhitespace pw default_options))
  = Some (Text (if pw then decodeEntities p else trim (decodeEntities p))).
Proof.
  intros C.
  change (set_preserveWhitespace pw default_options)
    with (round_trip_options false pw).
  set (txt := "<a><![CDATA[" ++ p ++ "]]></a>").
  set (st0 := {| text := txt; opts := round_trip_options false pw;
                 tree := Element []; errors := [];
                 piNodeList := []; dtdNodeList := [];
                 documentNodeName := Some ""; lastIndex := 0 |}).
  assert (R : reads (round_trip_options false pw) st0 ""
                ("<a><![CDATA[" ++ p ++ "]]></a>" ++ "")).
  { repeat split. }
  assert (F : S (length txt) = S (S (S (length txt - 2)))).
  { unfold txt. cbn [length append]. lia. }
  apply (parse_document c false pw txt "a" _
           (advance st0 (length txt))); try discriminate; try reflexivity.
  rewrite F. apply (cdata_rounds c pw p "" st0 _ R C).
Qed.

(** C4 on the document of the specification. *)
Lemma cdata_is_decoded_witness :
  contains "]]>" "<b>&amp;" = false
  /\ returned (parse XmlJs "<a><![CDATA[<b>&amp;]]></a>" default_options)
     = Some (Text "<b>&").
Proof.
  split; [reflexivity|].
  exact (cdata_is_decoded XmlJs false "<b>&amp;" eq_refl).
Defined.
(** ** The second top-level tag *)

Section OnlyData.

Variable o : options.

Lemma only_data_delete (b : hash) : only_data o b -> delete (dataKey o) b = [].
Proof.
  unfold only_data. induction b as [|[k' v'] b IH]; cbn [delete keys map In fst];
    [reflexivity|].
  intros H. rewrite (H k' (or_introl eq_refl)), String.eqb_refl.
  apply IH. intros y Y. apply H. now right.
Qed.

End OnlyData.

(** Whatever follows the first top-level tag is not read. *)
Lemma self_closed_root (c : copy) (rest : string) :
  exists st,
    parse c ("<a/>" ++ rest) default_options = Done (empty_leaf c) st
    /\ errors st = [] /\ documentNodeName st = Some "a" /\ lastIndex st = 4.
Proof.
  set (txt := "<a/>" ++ rest).
  set (st0 := {| text := txt; opts := default_options; tree := Element [];
                 errors := []; piNodeList := []; dtdNodeList := [];
                 documentNodeName := Some ""; lastIndex := 0 |}).
  assert (R0 : reads (round_trip_options false false) st0 ""
                 ("" ++ "<" ++ "a" ++ attribs_text [] ++ "/" ++ ">" ++ rest))
    by (repeat split).
  assert (Q : XML.parse_loop c (S (length txt)) true None [] st0
              = Done ([("a", empty_leaf c)], false) (advance st0 4)).
  { rewrite parse_loop_S.
    rewrite (loop_open false false c _ _ true None [] st0 "" "" "a" [] "/" rest
               R0 eq_refl eq_refl (or_introl eq_refl) (or_intror eq_refl)).
    destruct c; reflexivity. }
  unfold parse, XML.create. cbn [lowerCase default_options].
  change (String.eqb txt "") with false. cbv iota.
  fold st0. unfold XML.parse, bind. rewrite Q.
  destruct c; eexists; (split; [reflexivity|]); repeat split.
Qed.

(** C3.  A document with two top-level tags is not refused.  On
    [<a/><b/>] the loop of the first call stops behind the first tag, so
    the second one is never read: both copies return the value of [a],
    record no error and leave the cursor behind [<a/>].  The same holds
    of every text that follows [<a/>]: no such text makes the entry
    point raise the error of the key [Only one top-level node is allowed
    in document]. *)
Theorem second_top_level_tag_is_not_read :
  (returned (parse XmlJs "<a/><b/>" default_options) = Some (Element [])
   /\ returned (parse Part000 "<a/><b/>" default_options) = Some (Text "")
   /\ thrown (parse XmlJs "<a/><b/>" default_options) = None
   /\ option_map errors (final (parse XmlJs "<a/><b/>" default_options))
      = Some []
   /\ option_map documentNodeName
        (final (parse XmlJs "<a/><b/>" default_options))
      = Some (Some "a")
   /\ option_map lastIndex (final (parse XmlJs "<a/><b/>" default_options))
      = Some 4)
  /\ (forall c rest, exists st,
        parse c ("<a/>" ++ rest) default_options = Done (empty_leaf c) st
        /\ errors st = [] /\ documentNodeName st = Some "a"
        /\ lastIndex st = 4)
  /\ (forall c rest,
        ~ raises many_roots (parse c ("<a/>" ++ rest) default_options)).
Proof.
  split; [vm_compute; repeat split|]. split; [exact self_closed_root|].
  intros c rest (st & e & H & _).
  destruct (self_closed_root c rest) as (st' & P & _).
  rewrite P in H. discriminate H.
Qed.

(** ** Rounds of the loop with any options *)

Lemma create_fresh (c : copy) (txt : string) (o : options) :
  XML.create c txt o
  = if String.eqb txt "" then Done tt (fresh txt o)
    else (XML.parse c (S (length txt)) true None [] ;;; ret tt) (fresh txt o).
Proof. reflexivity. Qed.

(** A run of the loop that ends does so with the fuel of the entry point
    too. *)
Lemma fuel_enough (c : copy) (f : nat) (top : bool) (name : option string)
    (branch : hash) (st : parser) (r : outcome (hash * bool)) :
  lastIndex st <= length (text st) -> errors st = [] ->
  XML.parse_loop c f top name branch st = r -> r <> OutOfFuel ->
  XML.parse_loop c (S (length (text st))) top name branch st = r.
Proof.
  intros L E H N.
  assert (K : XML.parse_loop c (S (length (text st))) top name branch st
              <> OutOfFuel).
  { pose proof (post_parse_loop (text st) (opts st) c (S (length (text st)))
                  top name branch st) as P.
    intros Q. rewrite Q in P. apply P; [repeat split; auto|lia]. }
  destruct (Nat.le_ge_cases f (S (length (text st)))) as [Le|Ge].
  - destruct (fuel_le_parse_loop c f _ Le top name branch st) as [Q|Q];
      congruence.
  - destruct (fuel_le_parse_loop c _ f Ge top name branch st) as [Q|Q];
      congruence.
Qed.

Lemma split_at_none (a : ascii) (s : string) :
  has a s = false -> split_at a s = None.
Proof.
  unfold has. induction s as [|c s IH]; cbn [exists_char split_at];
    [reflexivity|].
  intros H. apply orb_false_iff in H as [Hc Hs].
  rewrite Ascii.eqb_sym, Hc, (IH Hs). reflexivity.
Qed.

Lemma patTag_from_none (s : string) : has "<" s = false -> patTag_from s = None.
Proof.
  induction s as [|c s IH]; intros H.
  - reflexivity.
  - cbn [patTag_from]. unfold patTag_at. rewrite (split_at_none _ _ H).
    apply IH. unfold has in *. cbn [exists_char] in H.
    now apply orb_false_iff in H as [_ H].
Qed.

(** The round that finds no tag: the loop ends and the cursor goes back
    to the start. *)
Lemma round_end (c : copy)
    (child : string -> hash -> M hash) (next : hash -> M (hash * bool))
    (top : bool) (name : option string) (branch : hash)
    (st : parser) (pre rest : string) :
  text st = pre ++ rest -> lastIndex st = length pre -> has "<" rest = false ->
  XML.loop_body c child next top name branch st
  = Done (branch, false) (advance st 0).
Proof.
  intros T L H. unfold XML.loop_body, bind, this, patTag_exec.
  rewrite T, L, drop_app, (patTag_from_none rest H). reflexivity.
Qed.

(** The round on an opening tag, behind any text without a tag. *)
Lemma round_tag (c : copy)
    (child : string -> hash -> M hash) (next : hash -> M (hash * bool))
    (top : bool) (name : option string) (branch : hash)
    (st : parser) (pre before k : string) (attribs : hash) (sc post : string) :
  text st = pre ++ before ++ "<" ++ k ++ attribs_text attribs ++ sc ++ ">" ++ post ->
  lastIndex st = length pre ->
  has "<" before = false -> re_valid_tag_name k = true ->
  forallb attribute_ok attribs = true -> sc = "" \/ sc = "/" ->
  XML.loop_body c child next top name branch st
  = (branch <- (if patNonSpace before then XML.add_data before branch
                else ret branch) ;;
     leaf <- XML.new_leaf (skip_spaces (attribs_text attribs ++ sc)) ;;
     leaf <- (if negb (String.eqb sc "/")
              then child (node_name (opts st) k) leaf
              else ret leaf) ;;
     st1 <- this ;;
     if negb (String.eqb sc "/") && negb (XML.error st1 =? 0)%nat
     then ret (branch, false)
     else
       leaf <- XML.compress c leaf ;;
       branch <- XML.attach top (node_name (opts st) k) leaf branch ;;
       st2 <- this ;;
       if negb (XML.error st2 =? 0)%nat || top
       then ret (branch, false)
       else next branch)
      (advance st (length (pre ++ before ++ "<" ++ k ++ attribs_text attribs
                           ++ sc ++ ">"))).
Proof.
  intros T L W K F S.
  pose proof (valid_name_chars k K) as (N & N0 & _ & _).
  set (tag := k ++ attribs_text attribs ++ sc).
  assert (X : patTag_exec (text st) (lastIndex st)
              = Some (before, tag, length (pre ++ before ++ "<" ++ tag ++ ">"))).
  { rewrite T, L.
    replace (before ++ "<" ++ k ++ attribs_text attribs ++ sc ++ ">" ++ post)
      with (before ++ "<" ++ tag ++ ">" ++ post)
      by (unfold tag; now rewrite !append_assoc).
    apply patTag_exec_at.
    - exact W.
    - unfold tag. rewrite !has_app, (name_chars_no_close k N),
        (attribs_text_no_close attribs F).
      destruct S as [-> | ->]; reflexivity.
    - unfold tag. destruct k; [congruence|discriminate]. }
  replace (length (pre ++ before ++ "<" ++ k ++ attribs_text attribs ++ sc ++ ">"))
    with (length (pre ++ before ++ "<" ++ tag ++ ">"))
    by (unfold tag; now rewrite !append_assoc).
  unfold XML.loop_body.
  unfold bind at 1. unfold this at 1. rewrite X.
  unfold bind at 1. unfold set_lastIndex at 1.
  fold (advance st (length (pre ++ before ++ "<" ++ tag ++ ">"))).
  unfold tag at 1. rewrite (patSpecialTag_name k _ K).
  unfold tag at 1. rewrite (patStandardTag_open k attribs sc K F S).
  rewrite (patSelfClosing_raw attribs sc F S).
  reflexivity.
Qed.

(** The round on a closing tag, behind any text without a tag. *)
Lemma round_close (c : copy)
    (child : string -> hash -> M hash) (next : hash -> M (hash * bool))
    (top : bool) (name : option string) (branch : hash)
    (st : parser) (pre before k post : string) :
  text st = pre ++ before ++ "</" ++ k ++ ">" ++ post ->
  lastIndex st = length pre ->
  has "<" before = false -> re_valid_tag_name k = true ->
  XML.loop_body c child next top name branch st
  = (branch <- (if patNonSpace before then XML.add_data before branch
                else ret branch) ;;
     if String.eqb (node_name (opts st) k) (XML.name_or_empty name)
     then ret (branch, true)
     else XML.throwParseError
            ("Mismatched closing tag (expected </" ++ XML.name_text name ++ ">)")
            ("/" ++ k))
      (advance st (length (pre ++ before ++ "</" ++ k ++ ">"))).
Proof.
  intros T L W K.
  pose proof (valid_name_chars k K) as (N & N0 & _ & _).
  assert (X : patTag_exec (text st) (lastIndex st)
              = Some (before, "/" ++ k,
                      length (pre ++ before ++ "<" ++ ("/" ++ k) ++ ">"))).
  { rewrite T, L.
    change (before ++ "</" ++ k ++ ">" ++ post)
      with (before ++ "<" ++ String "/" (k ++ ">" ++ post)).
    change (String "/" (k ++ ">" ++ post)) with (("/" ++ k) ++ ">" ++ post).
    apply patTag_exec_at; [exact W| |discriminate].
    rewrite has_app, (name_chars_no_close k N). reflexivity. }
  unfold XML.loop_body.
  unfold bind at 1. unfold this at 1. rewrite X.
  unfold bind at 1. unfold set_lastIndex at 1.
  fold (advance st (length (pre ++ before ++ "<" ++ ("/" ++ k) ++ ">"))).
  change (pre ++ before ++ "<" ++ ("/" ++ k) ++ ">")
    with (pre ++ before ++ "</" ++ k ++ ">").
  change (patSpecialTag ("/" ++ k)) with false. cbv iota.
  assert (P : patStandardTag ("/" ++ k) = Some (true, k, "")).
  { unfold patStandardTag. cbn [append]. rewrite skip_spaces_none by reflexivity.
    rewrite <- (append_nil_r k) at 1.
    rewrite (span_all is_name_char k "" N I).
    now rewrite (proj2 (String.eqb_neq _ _) N0). }
  rewrite P. reflexivity.
Qed.

(** ** From the loop of the first call to the entry point *)

Lemma fresh_loop (c : copy) (txt : string) (o : options) (f : nat)
    (r : outcome (hash * bool)) :
  XML.parse_loop c f true None [] (fresh txt o) = r -> r <> OutOfFuel ->
  XML.parse_loop c (S (length txt)) true None [] (fresh txt o) = r
  /\ match r with
     | Done _ st => text st = txt /\ opts st = constructed o /\ errors st = []
     | _ => True
     end.
Proof.
  intros H N.
  assert (Q : XML.parse_loop c (S (length txt)) true None [] (fresh txt o) = r).
  { apply (fuel_enough c f true None [] (fresh txt o) r); auto.
    cbn [lastIndex fresh]. lia. }
  split; [exact Q|].
  pose proof (post_parse_loop txt (constructed o) c (S (length txt)) true None []
                (fresh txt o)) as P.
  rewrite Q in P. destruct r; auto.
  destruct P as [(T & O & E & _) _]; [repeat split; cbn; lia|cbn; lia|].
  auto.
Qed.

(** A first call that throws: the entry point throws the same. *)
Lemma parse_thrown (c : copy) (txt : string) (o : options) (f : nat)
    (msg : string) (st : parser) :
  XML.parse_loop c f true None [] (fresh txt o) = Thrown msg st ->
  parse c txt o = Thrown msg st.
Proof.
  intros H. destruct (fresh_loop c txt o f _ H) as [Q _]; [discriminate|].
  unfold parse. rewrite create_fresh.
  destruct (String.eqb_spec txt "") as [->|N].
  - destruct f; discriminate H.
  - unfold XML.parse, bind. now rewrite Q.
Qed.

(** A first call that ends with one name in the tree, beside data. *)
Lemma parse_single (c : copy) (txt : string) (o : options) (f : nat)
    (branch : hash) (k : string) (v : node) (found : bool) (st : parser) :
  XML.parse_loop c f true None [] (fresh txt o) = Done (branch, found) st ->
  delete (dataKey (constructed o)) branch = [(k, v)] -> k <> "" ->
  parse c txt o
  = Done (document (preserveDocumentNode o) k v)
      (with_document st (Some k) (document (preserveDocumentNode o) k v)).
Proof.
  intros H D NE.
  destruct (fresh_loop c txt o f _ H) as [Q (T & O & E)]; [discriminate|].
  unfold parse. rewrite create_fresh.
  destruct (String.eqb_spec txt "") as [->|N].
  - destruct f; [discriminate H|]. cbn in H. injection H as <- _ _.
    discriminate D.
  - unfold XML.parse, bind. rewrite Q.
    unfold XML.parse_finish, bind, this, ret.
    cbn [XML.name_or_empty String.eqb negb andb]. rewrite O, D.
    cbn [numKeys List.length Nat.ltb Nat.leb firstKey].
    rewrite (proj2 (String.eqb_neq _ _) NE).
    cbn [negb andb get]. rewrite String.eqb_refl.
    assert (P : preserveDocumentNode (constructed o) = preserveDocumentNode o)
      by (unfold constructed; destruct (lowerCase o); reflexivity).
    rewrite P. unfold set_document, with_document, XML.error, document.
    destruct (preserveDocumentNode o); cbn [negb errors]; rewrite E; reflexivity.
Qed.

(** A first call that ends with nothing but data in the tree. *)
Lemma parse_none (c : copy) (txt : string) (o : options) (f : nat)
    (branch : hash) (found : bool) (st : parser) :
  XML.parse_loop c f true None [] (fresh txt o) = Done (branch, found) st ->
  only_data (constructed o) branch -> txt <> "" ->
  parse c txt o = Done (Element []) (with_document st None (Element [])).
Proof.
  intros H D N.
  destruct (fresh_loop c txt o f _ H) as [Q (T & O & E)]; [discriminate|].
  unfold parse. rewrite create_fresh, (proj2 (String.eqb_neq _ _) N).
  unfold XML.parse, bind. rewrite Q.
  unfold XML.parse_finish, bind, this, ret.
  cbn [XML.name_or_empty String.eqb negb andb]. rewrite O.
  rewrite (only_data_delete _ _ D).
  cbn [numKeys List.length Nat.ltb Nat.leb firstKey].
  unfold set_document, with_document, XML.error. cbn [errors]. rewrite E.
  reflexivity.
Qed.

(** ** Texts without a tag, and the text around the document node *)

Lemma patTag_from_open (s : string) : has ">" s = false -> patTag_from s = None.
Proof.
  induction s as [|c s IH]; intros H; [reflexivity|].
  cbn [patTag_from].
  assert (A : patTag_at (String c s) = None).
  { unfold patTag_at.
    destruct (split_at "<" (String c s)) as [[before s1]|] eqn:E; [|reflexivity].
    apply split_at_some in E. rewrite E, has_app in H.
    apply orb_false_iff in H as [_ H].
    unfold has in H. cbn [exists_char] in H. apply orb_false_iff in H as [_ H].
    now rewrite (split_at_none ">" s1 H). }
  rewrite A. apply IH. unfold has in *. cbn [exists_char] in H.
  now apply orb_false_iff in H as [_ H].
Qed.

(** X1.  A text in which no tag can start or end, because it has no [<]
    or no [>], is not refused: the entry point returns the empty hash and
    records no error, in both copies and with any options. *)
Theorem text_without_tag (c : copy) (txt : string) (o : options) :
  has "<" txt = false \/ has ">" txt = false ->
  exists st,
    parse c txt o = Done (Element []) st
    /\ errors st = [] /\ tree st = Element [] /\ piNodeList st = []
    /\ dtdNodeList st = [].
Proof.
  intros H.
  destruct (String.eqb_spec txt "") as [->|N].
  - exists (fresh "" o). repeat split.
  - assert (Q : XML.parse_loop c 1 true None [] (fresh txt o)
                = Done ([], false) (advance (fresh txt o) 0)).
    { cbn [XML.parse_loop]. unfold XML.loop_body, bind, this, patTag_exec.
      cbn [text fresh lastIndex drop].
      destruct H as [H|H];
        [rewrite (patTag_from_none txt H)|rewrite (patTag_from_open txt H)];
        reflexivity. }
    eexists. split.
    + apply (parse_none c txt o 1 [] false _ Q); [intros k []|exact N].
    + repeat split.
Qed.

Lemma text_without_tag_witness :
  exists st,
    parse XmlJs "a > b" default_options = Done (Element []) st
    /\ errors st = [] /\ tree st = Element [] /\ piNodeList st = []
    /\ dtdNodeList st = [].
Proof.
  apply (text_without_tag XmlJs "a > b" default_options). left. reflexivity.
Defined.

Lemma new_leaf_none (sc : string) (st : parser) :
  sc = "" \/ sc = "/" -> attribsKey (opts st) <> "__proto__" ->
  XML.new_leaf (skip_spaces (attribs_text [] ++ sc)) st = Done [] st.
Proof.
  intros S A. unfold XML.new_leaf, bind, this, write.
  rewrite (proj2 (String.eqb_neq _ _) A).
  assert (E : XML.add_attribs (opts st) (skip_spaces (attribs_text [] ++ sc)) [] = [])
    by (destruct S as [-> | ->]; reflexivity).
  rewrite E. cbn [numKeys List.length Nat.eqb set delete].
  rewrite String.eqb_refl. destruct (preserveAttributes (opts st)); reflexivity.
Qed.

(** The data entry that the first text of a hash makes. *)
Lemma add_data_first (s : string) (st : parser) (pdn pa pw fa : bool) :
  opts st = plain_options pdn pa pw fa ->
  XML.add_data s [] st = Done [("_Data", Text (data_of pw s))] st.
Proof.
  intros O. unfold XML.add_data, bind, this. rewrite O.
  unfold data_of. destruct pw; reflexivity.
Qed.

(** The text of a tag in the nesting that the round lemmas use. *)
Lemma tag_text (pre k sc post : string) :
  pre ++ "<" ++ k ++ sc ++ ">" ++ post
  = pre ++ "<" ++ k ++ attribs_text [] ++ sc ++ ">" ++ post.
Proof. reflexivity. Qed.

(** X2.  The text before the document node and everything behind it are
    dropped: a text without a tag, a self-closed tag and any rest parse
    to the value of the empty element, and the cursor stays behind the
    tag.  This holds in both copies and with any flags. *)
Theorem surroundings_are_dropped (c : copy) (pdn pa pw fa : bool)
    (junk k rest : string) :
  has "<" junk = false -> valid_key k = true ->
  exists st,
    parse c (junk ++ "<" ++ k ++ "/>" ++ rest) (plain_options pdn pa pw fa)
    = Done (document pdn k (empty_leaf c)) st
    /\ errors st = [] /\ documentNodeName st = Some k
    /\ lastIndex st = length (junk ++ "<" ++ k ++ "/>").
Proof.
  intros J K. destruct (valid_key_facts k K) as (V & I & _ & ND & NE).
  set (o := plain_options pdn pa pw fa).
  set (txt := junk ++ "<" ++ k ++ "/>" ++ rest).
  set (d := if patNonSpace junk then [("_Data", Text (data_of pw junk))] else []).
  assert (Q : XML.parse_loop c 1 true None [] (fresh txt o)
              = Done ((d ++ [(k, empty_leaf c)])%list, false)
                  (advance (fresh txt o) (length (junk ++ "<" ++ k ++ "/>")))).
  { rewrite parse_loop_S.
    rewrite (round_tag c _ _ true None [] (fresh txt o) "" junk k [] "/" rest
               eq_refl eq_refl J V eq_refl (or_intror eq_refl)).
    change ("" ++ junk ++ "<" ++ k ++ attribs_text [] ++ "/" ++ ">")
      with (junk ++ "<" ++ k ++ "/>").
    unfold bind at 1.
    match goal with
    | |- context [(if patNonSpace junk then ?a else ?b) ?s] =>
        replace ((if patNonSpace junk then a else b) s) with (Done d s)
    end.
    2:{ unfold d. destruct (patNonSpace junk); [|reflexivity].
        symmetry. now apply (add_data_first junk _ pdn pa pw fa). }
    unfold bind at 1.
    rewrite new_leaf_none by (auto; discriminate).
    cbn [String.eqb Ascii.eqb Bool.eqb negb andb].
    unfold bind at 1. unfold ret at 1. unfold bind at 1. unfold this at 1.
    unfold bind at 1.
    assert (Cm : forall st, XML.compress c [] st = Done (empty_leaf c) st).
    { intros st. unfold XML.compress, bind, this, read.
      cbn [get numKeys List.length Nat.eqb andb].
      destruct (inherited (dataKey (opts st))), c; reflexivity. }
    rewrite Cm. unfold bind at 1.
    assert (At : forall st, opts st = o ->
                   XML.attach true k (empty_leaf c) d st
                   = Done (d ++ [(k, empty_leaf c)])%list st).
    { intros st O. unfold XML.attach, bind, this, read.
      assert (G : get k d = None).
      { unfold d. destruct (patNonSpace junk); cbn [get]; [|reflexivity].
        now rewrite (proj2 (String.eqb_neq _ _) ND). }
      rewrite G, I, O. cbn [forceArrays o plain_options negb andb].
      rewrite andb_false_r. unfold ret. now rewrite set_fresh. }
    rewrite At by reflexivity.
    unfold bind, this, ret. rewrite orb_true_r. reflexivity. }
  eexists. split.
  - apply (parse_single c txt o 1 _ k (empty_leaf c) false _ Q); [|exact NE].
    unfold d. destruct (patNonSpace junk);
      cbn [delete app constructed o plain_options lowerCase dataKey];
      rewrite ?String.eqb_refl;
      now rewrite (proj2 (String.eqb_neq _ _) (not_eq_sym ND)).
  - repeat split.
Qed.

Lemma surroundings_are_dropped_witness :
  exists st,
    parse XmlJs ("junk " ++ "<" ++ "a" ++ "/>" ++ "<b>") default_options
    = Done (Element []) st
    /\ errors st = [] /\ documentNodeName st = Some "a"
    /\ lastIndex st = 9.
Proof.
  apply (surroundings_are_dropped XmlJs false false false false
           "junk " "a" "<b>"); reflexivity.
Defined.

(** ** Elements, texts and closing tags with any flags *)

Lemma parse_loop_nested (c : copy) (f : nat) (top : bool) (name : option string)
    (branch : hash) :
  XML.parse_loop c (S f) top name branch
  = XML.loop_body c (nested c f)
      (fun branch => XML.parse_loop c f top name branch) top name branch.
Proof. reflexivity. Qed.

Lemma take_app (a b : string) : take (length a) (a ++ b) = a.
Proof. induction a as [|c a IH]; cbn [length take append]; [now destruct b|]. now rewrite IH. Qed.

Lemma count_char_app (x : ascii) (a b : string) :
  count_char x (a ++ b) = count_char x a + count_char x b.
Proof.
  induction a as [|c a IH]; cbn [count_char append]; [reflexivity|].
  rewrite IH. lia.
Qed.

Lemma name_no_line_feed (k : string) :
  forall_chars is_name_char k = true -> count_char newline k = 0.
Proof.
  induction k as [|c k IH]; cbn [forall_chars count_char]; [reflexivity|].
  intros H. apply andb_true_iff in H as [Hc Hk]. rewrite (IH Hk).
  destruct (Ascii.eqb_spec c newline) as [->|_]; [discriminate Hc|reflexivity].
Qed.

(** The error that [throwParseError] throws from a parser without
    errors. *)
Lemma throwParseError_message {A : Type} (key tag : string) (st : parser) :
  errors st = [] ->
  exists st',
    XML.throwParseError (A := A) key tag st
    = Thrown (parse_error key
                (line_feeds (take (lastIndex st) (text st)) + 1
                 - line_feeds tag)%Z tag) st'.
Proof.
  intros E. unfold XML.throwParseError, bind, this, push_error.
  eexists. f_equal.
  unfold XML.getLastError, XML.error. cbn [errors]. rewrite E.
  reflexivity.
Qed.

(** The round on an opening tag without attributes. *)
Lemma round_open (c : copy)
    (child : string -> hash -> M hash) (next : hash -> M (hash * bool))
    (top : bool) (name : option string) (branch : hash)
    (st : parser) (pre before k sc post : string) :
  text st = pre ++ before ++ "<" ++ k ++ sc ++ ">" ++ post ->
  lastIndex st = length pre ->
  has "<" before = false -> re_valid_tag_name k = true ->
  sc = "" \/ sc = "/" -> attribsKey (opts st) <> "__proto__" ->
  XML.loop_body c child next top name branch st
  = (branch <- (if patNonSpace before then XML.add_data before branch
                else ret branch) ;;
     leaf <- (if negb (String.eqb sc "/")
              then child (node_name (opts st) k) []
              else ret []) ;;
     st1 <- this ;;
     if negb (String.eqb sc "/") && negb (XML.error st1 =? 0)%nat
     then ret (branch, false)
     else
       leaf <- XML.compress c leaf ;;
       branch <- XML.attach top (node_name (opts st) k) leaf branch ;;
       st2 <- this ;;
       if negb (XML.error st2 =? 0)%nat || top
       then ret (branch, false)
       else next branch)
      (advance st (length (pre ++ before ++ "<" ++ k ++ sc ++ ">"))).
Proof.
  intros T L W K S A.
  rewrite (round_tag c child next top name branch st pre before k [] sc post
             T L W K eq_refl S).
  change (pre ++ before ++ "<" ++ k ++ attribs_text [] ++ sc ++ ">")
    with (pre ++ before ++ "<" ++ k ++ sc ++ ">").
  unfold bind.
  destruct ((if patNonSpace before then XML.add_data before branch
             else ret branch) _) as [b st'| | |] eqn:D; try reflexivity.
  assert (O : opts st' = opts st).
  { destruct (patNonSpace before).
    - unfold XML.add_data, bind, this in D.
      destruct (read _ branch) as [v| |]; try discriminate D.
      + destruct (to_primitive v); [|discriminate D].
        injection D as _ <-. reflexivity.
      + injection D as _ <-. reflexivity.
    - injection D as _ <-. reflexivity. }
  rewrite new_leaf_none by (auto; now rewrite O).
  reflexivity.
Qed.

Section Flags.

Variables (c : copy) (pdn pa pw fa : bool).

Local Abbreviation o := (plain_options pdn pa pw fa).

Lemma add_data_more (s old : string) (st : parser) :
  opts st = o ->
  XML.add_data s [("_Data", Text old)] st
  = Done [("_Data", Text ((old ++ " ") ++ data_of pw s))] st.
Proof.
  intros O. unfold XML.add_data, bind, this. rewrite O.
  unfold data_of. destruct pw; reflexivity.
Qed.

Lemma compress_text (s : string) (st : parser) :
  opts st = o -> XML.compress c [("_Data", Text s)] st = Done (Text s) st.
Proof. intros O. unfold XML.compress, bind, this. rewrite O. now destruct c. Qed.

Lemma compress_empty (st : parser) :
  opts st = o -> XML.compress c [] st = Done (empty_leaf c) st.
Proof. intros O. unfold XML.compress, bind, this. rewrite O. now destruct c. Qed.

(** The value that [attach] puts under a name that is not there. *)
Lemma attach_fresh (top : bool) (k : string) (v : node) (branch : hash)
    (st : parser) :
  opts st = o -> inherited k = false -> get k branch = None ->
  XML.attach top k v branch st
  = Done (branch ++ [(k, if fa && negb top then Sequence [v] else v)])%list st.
Proof.
  intros O I G. unfold XML.attach, bind, this, read. rewrite G, I, O.
  cbn [forceArrays plain_options].
  destruct (fa && negb top); unfold ret; now rewrite set_fresh.
Qed.

(** The first call on an element whose nested call finds its closing
    tag. *)
Lemma root_round (k inner : string) (f : nat) (leaf : hash) (v : node)
    (st' : parser) :
  valid_key k = true ->
  XML.parse_loop c f false (Some k) []
    (advance (fresh ("<" ++ k ++ ">" ++ inner) o) (length ("<" ++ k ++ ">")))
  = Done (leaf, true) st' ->
  errors st' = [] -> opts st' = o ->
  XML.compress c leaf st' = Done v st' ->
  XML.parse_loop c (S f) true None [] (fresh ("<" ++ k ++ ">" ++ inner) o)
  = Done ([(k, v)], false) st'.
Proof.
  intros K H E O Cm. destruct (valid_key_facts k K) as (V & I & _ & _ & NE).
  rewrite parse_loop_nested.
  rewrite (round_open c _ _ true None [] (fresh ("<" ++ k ++ ">" ++ inner) o)
             "" "" k "" inner eq_refl eq_refl eq_refl V (or_introl eq_refl))
    by discriminate.
  cbn [patNonSpace exists_char String.eqb negb andb].
  unfold bind at 1. unfold ret at 1. unfold bind at 1.
  unfold nested, node_name.
  cbn [opts fresh constructed plain_options lowerCase].
  unfold bind at 1.
  change ("" ++ "" ++ "<" ++ k ++ "" ++ ">") with ("<" ++ k ++ ">").
  rewrite H.
  unfold XML.parse_finish. cbn [XML.name_or_empty negb andb].
  rewrite andb_false_r. unfold bind at 1. unfold ret at 1. unfold ret at 1.
  unfold bind at 1. unfold this at 1. unfold XML.error at 1. rewrite E.
  cbn [List.length Nat.eqb negb]. unfold bind at 1. rewrite Cm.
  unfold bind at 1. rewrite (attach_fresh true k v [] st' O I eq_refl).
  rewrite andb_false_r. unfold bind, this, ret. rewrite orb_true_r.
  reflexivity.
Qed.

(** The first call on an element whose nested call throws. *)
Lemma root_thrown (k inner : string) (f : nat) (r : outcome hash)
    (msg : string) (st' : parser) :
  valid_key k = true ->
  nested c f k []
    (advance (fresh ("<" ++ k ++ ">" ++ inner) o) (length ("<" ++ k ++ ">")))
  = Thrown msg st' ->
  parse c ("<" ++ k ++ ">" ++ inner) o = Thrown msg st'.
Proof.
  intros K H. destruct (valid_key_facts k K) as (V & I & _ & _ & NE).
  apply (parse_thrown c _ o (S f)).
  rewrite parse_loop_nested.
  rewrite (round_open c _ _ true None [] (fresh ("<" ++ k ++ ">" ++ inner) o)
             "" "" k "" inner eq_refl eq_refl eq_refl V (or_introl eq_refl))
    by discriminate.
  cbn [patNonSpace exists_char String.eqb negb andb].
  unfold bind at 1. unfold ret at 1. unfold bind at 1.
  unfold node_name.
  cbn [opts fresh constructed plain_options lowerCase].
  change ("" ++ "" ++ "<" ++ k ++ "" ++ ">") with ("<" ++ k ++ ">").
  now rewrite H.
Qed.

(** The entry point on an element whose nested call finds its closing
    tag. *)
Lemma parse_element (k inner : string) (f : nat) (leaf : hash) (v : node)
    (st' : parser) :
  valid_key k = true ->
  XML.parse_loop c f false (Some k) []
    (advance (fresh ("<" ++ k ++ ">" ++ inner) o) (length ("<" ++ k ++ ">")))
  = Done (leaf, true) st' ->
  errors st' = [] -> opts st' = o ->
  XML.compress c leaf st' = Done v st' ->
  parse c ("<" ++ k ++ ">" ++ inner) o
  = Done (document pdn k v) (with_document st' (Some k) (document pdn k v)).
Proof.
  intros K H E O Cm. destruct (valid_key_facts k K) as (V & I & _ & ND & NE).
  apply (parse_single c _ o (S f) [(k, v)] k v false st').
  - now apply (root_round k inner f leaf).
  - cbn [delete constructed plain_options lowerCase dataKey].
    now rewrite (proj2 (String.eqb_neq _ _) (not_eq_sym ND)).
  - exact NE.
Qed.

(** The data of a hash after the text [raw]. *)
Lemma data_step (raw : string) (leaf : hash) (st : parser) :
  opts st = o -> leaf = [] \/ (exists old, leaf = [("_Data", Text old)]) ->
  exists leaf',
    (if patNonSpace raw then XML.add_data raw leaf else ret leaf) st
    = Done leaf' st
    /\ leaf' = (if patNonSpace raw then
                  [("_Data",
                    Text (match leaf with
                          | [(_, Text old)] => (old ++ " ") ++ data_of pw raw
                          | _ => data_of pw raw
                          end))]
                else leaf).
Proof.
  intros O [->|[old ->]]; eexists; (split; [|reflexivity]);
    destruct (patNonSpace raw); try reflexivity.
  - now apply (add_data_first raw st pdn pa pw fa).
  - now apply add_data_more.
Qed.

(** X3.  The content of an element that holds text alone: the text is
    entity-decoded, and trimmed unless [preserveWhitespace] is set; a text
    of white space alone is dropped even with [preserveWhitespace], and
    the element is then the empty element.  Whatever follows the closing
    tag of the document node is not read. *)
Theorem element_of_text (k raw rest : string) :
  valid_key k = true -> has "<" raw = false ->
  exists st,
    parse c ("<" ++ k ++ ">" ++ raw ++ "</" ++ k ++ ">" ++ rest) o
    = Done (document pdn k
              (if patNonSpace raw then Text (data_of pw raw)
               else empty_leaf c)) st
    /\ errors st = [] /\ documentNodeName st = Some k.
Proof.
  intros K W. destruct (valid_key_facts k K) as (V & I & _ & ND & NE).
  set (inner := raw ++ "</" ++ k ++ ">" ++ rest).
  set (st1 := advance (fresh ("<" ++ k ++ ">" ++ inner) o)
                (length ("<" ++ k ++ ">"))).
  assert (T1 : text st1 = ("<" ++ k ++ ">") ++ raw ++ "</" ++ k ++ ">" ++ rest).
  { cbn [text st1 advance fresh]. now rewrite !append_assoc. }
  set (leaf := if patNonSpace raw then [("_Data", Text (data_of pw raw))]
               else []).
  assert (H : XML.parse_loop c 1 false (Some k) [] st1
              = Done (leaf, true)
                  (advance st1 (length (("<" ++ k ++ ">") ++ raw ++ "</"
                                        ++ k ++ ">")))).
  { rewrite parse_loop_nested.
    rewrite (round_close c _ _ false (Some k) [] st1 _ raw k rest T1 eq_refl
               W V).
    destruct (data_step raw [] (advance st1 (length (("<" ++ k ++ ">") ++ raw
                ++ "</" ++ k ++ ">"))) eq_refl (or_introl eq_refl))
      as (leaf' & D & ->).
    unfold bind. rewrite D. unfold node_name.
    cbn [opts st1 advance fresh constructed plain_options lowerCase
         XML.name_or_empty].
    rewrite String.eqb_refl. reflexivity. }
  eexists. split.
  - apply (parse_element k inner 1 leaf _ _ K H); try reflexivity.
    unfold leaf. destruct (patNonSpace raw);
      [now apply compress_text|now apply compress_empty].
  - split; reflexivity.
Qed.

Lemma line_feeds_app (a b : string) :
  line_feeds (a ++ b) = (line_feeds a + line_feeds b)%Z.
Proof. unfold line_feeds. rewrite count_char_app. lia. Qed.

Lemma line_feeds_name (k : string) :
  re_valid_tag_name k = true -> line_feeds k = 0%Z.
Proof.
  intros K. unfold line_feeds.
  now rewrite (name_no_line_feed k (proj1 (valid_name_chars k K))).
Qed.

(** X4.  An element that is left open: when the text behind its opening
    tag has no further tag, the entry point throws the error of the
    missing closing tag.  The line of the error is 1 whatever line feeds
    the text behind the tag holds, since the cursor is back at the start
    when the error is made, and the text of the error is the name of the
    element. *)
Theorem missing_closing_tag (k rest : string) :
  valid_key k = true -> has "<" rest = false ->
  thrown (parse c ("<" ++ k ++ ">" ++ rest) o)
  = Some ("Parse Error: Missing closing tag (expected </" ++ k
          ++ ">) on line 1: <" ++ k ++ ">").
Proof.
  intros K W. destruct (valid_key_facts k K) as (V & I & _ & ND & NE).
  set (st1 := advance (fresh ("<" ++ k ++ ">" ++ rest) o)
                (length ("<" ++ k ++ ">"))).
  assert (T1 : text st1 = ("<" ++ k ++ ">") ++ rest).
  { cbn [text st1 advance fresh]. now rewrite !append_assoc. }
  destruct (throwParseError_message (A := unit)
              ("Missing closing tag (expected </" ++ k ++ ">)") k
              (advance st1 0) eq_refl) as [st' M].
  assert (H : nested c 1 k [] st1
              = Thrown ("Parse Error: Missing closing tag (expected </" ++ k
                        ++ ">) on line 1: <" ++ k ++ ">") st').
  { unfold nested. unfold bind at 1. rewrite parse_loop_nested.
    rewrite (round_end c _ _ false (Some k) [] st1 _ rest T1 eq_refl W).
    unfold XML.parse_finish.
    cbn [XML.name_or_empty XML.name_text negb andb].
    rewrite (proj2 (String.eqb_neq _ _) NE). cbn [negb andb].
    unfold bind at 1. rewrite M. f_equal.
    unfold parse_error, XML.getError. cbn [e_type e_key e_line e_text
      lastIndex advance take String.eqb Ascii.eqb Bool.eqb].
    rewrite (line_feeds_name k V). cbn. now rewrite !append_assoc. }
  now rewrite (root_thrown k rest 1 (nested c 1 k [] st1) _ st' K H).
Qed.

(** X5.  A closing tag that does not close the open element: behind any
    text without a tag the entry point throws the error of the mismatched
    closing tag, which names the open element; its line is that of the
    closing tag. *)
Theorem mismatched_closing_tag (k before k' rest : string) :
  valid_key k = true -> re_valid_tag_name k' = true -> k' <> k ->
  has "<" before = false ->
  thrown (parse c ("<" ++ k ++ ">" ++ before ++ "</" ++ k' ++ ">" ++ rest) o)
  = Some (parse_error ("Mismatched closing tag (expected </" ++ k ++ ">)")
            (1 + line_feeds before) ("/" ++ k')).
Proof.
  intros K V' N W. destruct (valid_key_facts k K) as (V & I & _ & ND & NE).
  set (inner := before ++ "</" ++ k' ++ ">" ++ rest).
  set (st1 := advance (fresh ("<" ++ k ++ ">" ++ inner) o)
                (length ("<" ++ k ++ ">"))).
  set (p := ("<" ++ k ++ ">") ++ before ++ "</" ++ k' ++ ">").
  assert (T1 : text st1 = ("<" ++ k ++ ">") ++ before ++ "</" ++ k' ++ ">"
                          ++ rest).
  { cbn [text st1 advance fresh]. now rewrite !append_assoc. }
  assert (T2 : text st1 = p ++ rest).
  { rewrite T1. unfold p. now rewrite !append_assoc. }
  assert (H : exists st',
             nested c 1 k [] st1
             = Thrown (parse_error
                         ("Mismatched closing tag (expected </" ++ k ++ ">)")
                         (1 + line_feeds before) ("/" ++ k')) st').
  { unfold nested. unfold bind at 1. rewrite parse_loop_nested.
    rewrite (round_close c _ _ false (Some k) [] st1 _ before k' rest T1
               eq_refl W V').
    fold p.
    destruct (data_step before [] (advance st1 (length p)) eq_refl
                (or_introl eq_refl)) as (leaf' & D & _).
    unfold bind at 1. rewrite D. unfold node_name.
    cbn [opts st1 advance fresh constructed plain_options lowerCase
         XML.name_or_empty XML.name_text].
    rewrite (proj2 (String.eqb_neq _ _) N).
    destruct (throwParseError_message (A := hash * bool)
                ("Mismatched closing tag (expected </" ++ k ++ ">)")
                ("/" ++ k') (advance st1 (length p)) eq_refl) as [st' M].
    exists st'. unfold bind. rewrite M. f_equal. f_equal.
    cbn [lastIndex advance text]. fold st1. rewrite T2, take_app.
    unfold p. rewrite !line_feeds_app, (line_feeds_name k V),
      (line_feeds_name k' V').
    change (line_feeds "<") with 0%Z. change (line_feeds ">") with 0%Z.
    change (line_feeds "</") with 0%Z. change (line_feeds "/") with 0%Z.
    lia. }
  destruct H as [st' H].
  now rewrite (root_thrown k inner 1 (nested c 1 k [] st1) _ st' K H).
Qed.

(** X6.  A closing tag with no element open: behind any text without a
    tag the entry point throws the error of the mismatched closing tag,
    and the element that it names as expected is [null]. *)
Theorem closing_tag_without_element (before k rest : string) :
  re_valid_tag_name k = true -> has "<" before = false ->
  thrown (parse c (before ++ "</" ++ k ++ ">" ++ rest) o)
  = Some (parse_error "Mismatched closing tag (expected </null>)"
            (1 + line_feeds before) ("/" ++ k)).
Proof.
  intros V W.
  pose proof (valid_name_chars k V) as (_ & NE & _ & _).
  set (txt := before ++ "</" ++ k ++ ">" ++ rest).
  set (p := before ++ "</" ++ k ++ ">").
  assert (T2 : text (fresh txt o) = p ++ rest).
  { cbn [text fresh]. unfold txt, p. now rewrite !append_assoc. }
  assert (H : exists st',
             XML.parse_loop c 1 true None [] (fresh txt o)
             = Thrown (parse_error "Mismatched closing tag (expected </null>)"
                         (1 + line_feeds before) ("/" ++ k)) st').
  { rewrite parse_loop_nested.
    rewrite (round_close c _ _ true None [] (fresh txt o) "" before k rest
               eq_refl eq_refl W V).
    change ("" ++ before ++ "</" ++ k ++ ">") with p.
    destruct (data_step before [] (advance (fresh txt o) (length p)) eq_refl
                (or_introl eq_refl)) as (leaf' & D & _).
    unfold bind at 1. rewrite D. unfold node_name.
    cbn [opts advance fresh constructed plain_options lowerCase
         XML.name_or_empty XML.name_text].
    rewrite (proj2 (String.eqb_neq _ _) NE).
    destruct (throwParseError_message (A := hash * bool)
                "Mismatched closing tag (expected </null>)"
                ("/" ++ k) (advance (fresh txt o) (length p)) eq_refl)
      as [st' M].
    exists st'. unfold bind. change ("Mismatched closing tag (expected </"
      ++ "null" ++ ">)") with "Mismatched closing tag (expected </null>)".
    rewrite M. f_equal. f_equal.
    cbn [lastIndex advance text]. rewrite T2, take_app.
    unfold p. rewrite !line_feeds_app, (line_feeds_name k V).
    change (line_feeds "</") with 0%Z. change (line_feeds ">") with 0%Z.
    change (line_feeds "/") with 0%Z. lia. }
  destruct H as [st' H]. now rewrite (parse_thrown c txt o 1 _ st' H).
Qed.

(** The nested call on a text and the closing tag. *)
Lemma nested_text (k raw post : string) (f : nat) (st : parser) (pre : string) :
  text st = pre ++ raw ++ "</" ++ k ++ ">" ++ post -> lastIndex st = length pre ->
  opts st = o -> re_valid_tag_name k = true -> has "<" raw = false ->
  nested c (S f) k [] st
  = Done (if patNonSpace raw then [("_Data", Text (data_of pw raw))] else [])
      (advance st (length (pre ++ raw ++ "</" ++ k ++ ">"))).
Proof.
  intros T L O V W. pose proof (valid_name_chars k V) as (_ & NE & _ & _).
  unfold nested. unfold bind at 1. rewrite parse_loop_nested.
  rewrite (round_close c _ _ false (Some k) [] st pre raw k post T L W V).
  destruct (data_step raw [] (advance st (length (pre ++ raw ++ "</" ++ k
              ++ ">"))) O (or_introl eq_refl)) as (leaf' & D & ->).
  unfold bind at 1. rewrite D. unfold node_name. rewrite O.
  cbn [plain_options lowerCase XML.name_or_empty].
  rewrite String.eqb_refl. unfold ret at 1.
  unfold XML.parse_finish. cbn [XML.name_or_empty negb andb].
  rewrite andb_false_r. reflexivity.
Qed.

(** The round on an element that holds text alone, behind white space. *)
Lemma round_text_element (next : hash -> M (hash * bool)) (top : bool)
    (name : option string) (branch : hash) (st : parser)
    (pre ws k raw post : string) (f : nat) :
  text st = pre ++ ws ++ "<" ++ k ++ ">" ++ raw ++ "</" ++ k ++ ">" ++ post ->
  lastIndex st = length pre -> errors st = [] -> opts st = o ->
  blank ws = true -> valid_key k = true -> has "<" raw = false ->
  get k branch = None ->
  XML.loop_body c (nested c (S f)) next top name branch st
  = (if top
     then ret ((branch ++ [(k, if patNonSpace raw then Text (data_of pw raw)
                               else empty_leaf c)])%list, false)
     else next (branch
                ++ [(k, if fa then Sequence [if patNonSpace raw
                                             then Text (data_of pw raw)
                                             else empty_leaf c]
                        else if patNonSpace raw then Text (data_of pw raw)
                             else empty_leaf c)])%list)
      (advance st (length (pre ++ ws ++ "<" ++ k ++ ">" ++ raw ++ "</" ++ k
                           ++ ">"))).
Proof.
  intros T L E O B K W G. destruct (valid_key_facts k K) as (V & I & _ & ND & NE).
  assert (T0 : text st = pre ++ ws ++ "<" ++ k ++ "" ++ ">"
                         ++ raw ++ "</" ++ k ++ ">" ++ post) by exact T.
  rewrite (round_open c _ _ top name branch st pre ws k "" _ T0 L
             (blank_no_tag ws B) V (or_introl eq_refl))
    by (rewrite O; discriminate).
  rewrite (blank_patNonSpace ws B).
  cbn [String.eqb negb andb].
  unfold bind at 1. unfold ret at 1. unfold bind at 1.
  unfold node_name. rewrite O. cbn [plain_options lowerCase].
  change (pre ++ ws ++ "<" ++ k ++ "" ++ ">") with (pre ++ ws ++ "<" ++ k ++ ">").
  rewrite (nested_text k raw post f _ (pre ++ ws ++ "<" ++ k ++ ">")); auto.
  2:{ cbn [text advance]. rewrite T. now rewrite !append_assoc. }
  rewrite advance_advance.
  replace (length ((pre ++ ws ++ "<" ++ k ++ ">") ++ raw ++ "</" ++ k ++ ">"))
    with (length (pre ++ ws ++ "<" ++ k ++ ">" ++ raw ++ "</" ++ k ++ ">"))
    by (now rewrite !append_assoc).
  set (st' := advance st _).
  unfold bind at 1. unfold this at 1. unfold XML.error at 1.
  cbn [errors st' advance]. rewrite E. cbn [List.length Nat.eqb negb].
  unfold bind at 1.
  destruct (patNonSpace raw);
    [rewrite (compress_text _ st' O)|rewrite (compress_empty st' O)];
    unfold bind at 1;
    rewrite (attach_fresh top k _ branch st' O I G);
    unfold bind, this, ret, XML.error; cbn [errors st' advance]; rewrite E;
    cbn [List.length Nat.eqb negb orb];
    destruct top; cbn [negb andb]; rewrite ?andb_false_r, ?andb_true_r;
    reflexivity.
Qed.

Lemma compress_children (k : string) (w : node) (st : parser) :
  opts st = o -> k <> "_Data" ->
  XML.compress c [(k, w)] st = Done (Element [(k, w)]) st.
Proof.
  intros O N. unfold XML.compress, bind, this, read. rewrite O.
  cbn [plain_options dataKey get].
  rewrite (proj2 (String.eqb_neq _ _) (not_eq_sym N)). now destruct c.
Qed.

(** X7.  The only child of an element: the element is a hash with the
    child under its name, as a value, or with [forceArrays] as an array
    of one item; the document node itself is never put into an array. *)
Theorem only_child (r ws1 k raw ws2 rest : string) :
  valid_key r = true -> valid_key k = true -> has "<" raw = false ->
  blank ws1 = true -> blank ws2 = true ->
  exists st,
    parse c ("<" ++ r ++ ">" ++ ws1 ++ "<" ++ k ++ ">" ++ raw ++ "</" ++ k
             ++ ">" ++ ws2 ++ "</" ++ r ++ ">" ++ rest) o
    = Done (document pdn r
              (Element
                 [(k, if fa
                      then Sequence [if patNonSpace raw
                                     then Text (data_of pw raw)
                                     else empty_leaf c]
                      else if patNonSpace raw then Text (data_of pw raw)
                           else empty_leaf c)])) st
    /\ errors st = [] /\ documentNodeName st = Some r.
Proof.
  intros R K W B1 B2.
  destruct (valid_key_facts r R) as (Vr & Ir & _ & NDr & NEr).
  destruct (valid_key_facts k K) as (V & I & _ & ND & NE).
  set (w := if fa then Sequence [if patNonSpace raw then Text (data_of pw raw)
                                 else empty_leaf c]
            else if patNonSpace raw then Text (data_of pw raw)
                 else empty_leaf c).
  set (item := "<" ++ k ++ ">" ++ raw ++ "</" ++ k ++ ">").
  set (inner := ws1 ++ "<" ++ k ++ ">" ++ raw ++ "</" ++ k ++ ">" ++ ws2
                ++ "</" ++ r ++ ">" ++ rest).
  set (st1 := advance (fresh ("<" ++ r ++ ">" ++ inner) o)
                (length ("<" ++ r ++ ">"))).
  set (p2 := ("<" ++ r ++ ">") ++ ws1 ++ "<" ++ k ++ ">" ++ raw ++ "</" ++ k
             ++ ">").
  assert (T1 : text st1 = ("<" ++ r ++ ">") ++ ws1 ++ "<" ++ k ++ ">" ++ raw
                          ++ "</" ++ k ++ ">" ++ ws2 ++ "</" ++ r ++ ">"
                          ++ rest).
  { cbn [text st1 advance fresh]. unfold inner. now rewrite !append_assoc. }
  assert (T2 : text (advance st1 (length p2))
               = p2 ++ ws2 ++ "</" ++ r ++ ">" ++ rest).
  { cbn [text advance]. fold st1. rewrite T1. unfold p2.
    now rewrite !append_assoc. }
  assert (H : XML.parse_loop c 3 false (Some r) [] st1
              = Done ([(k, w)], true)
                  (advance st1 (length (p2 ++ ws2 ++ "</" ++ r ++ ">")))).
  { rewrite parse_loop_nested.
    rewrite (round_text_element _ false (Some r) [] st1 _ ws1 k raw _ 1 T1
               eq_refl eq_refl eq_refl B1 K W eq_refl).
    fold p2. cbn [app]. fold w.
    rewrite parse_loop_nested.
    rewrite (round_close c _ _ false (Some r) [(k, w)] _ p2 ws2 r rest T2
               eq_refl (blank_no_tag ws2 B2) Vr).
    rewrite (blank_patNonSpace ws2 B2). unfold bind, ret, node_name.
    cbn [opts st1 advance fresh constructed plain_options lowerCase
         XML.name_or_empty].
    now rewrite String.eqb_refl. }
  eexists. split.
  - apply (parse_element r inner 3 [(k, w)] _ _ R H); try reflexivity.
    now apply compress_children.
  - split; reflexivity.
Qed.

Lemma contains_comment_end (p : string) :
  contains "-->" p = false -> contains "-->" (p ++ "--") = false.
Proof.
  induction p as [|a p IH]; [reflexivity|].
  cbn [contains append]. intros H. apply orb_false_iff in H as [H1 H2].
  rewrite (IH H2), orb_false_r.
  destruct p as [|a2 [|a3 p]]; unfold starts_with in *; cbn [strip append] in *.
  - destruct (Ascii.eqb "-" a); reflexivity.
  - destruct (Ascii.eqb "-" a), (Ascii.eqb "-" a2); reflexivity.
  - destruct (Ascii.eqb "-" a), (Ascii.eqb "-" a2), (Ascii.eqb ">" a3);
      auto.
Qed.

(** The text before a tag goes into the data wherever the cursor is. *)
Lemma data_step_run (before : string) (branch : hash) (st : parser) :
  (exists b, forall n,
      (if patNonSpace before then XML.add_data before branch else ret branch)
        (advance st n) = Done b (advance st n))
  \/ (forall n,
        (if patNonSpace before then XML.add_data before branch else ret branch)
          (advance st n) = Unmodelled).
Proof.
  destruct (patNonSpace before); [|left; eexists; reflexivity].
  unfold XML.add_data, bind, this. cbn [opts advance].
  destruct (read _ branch) as [v| |]; [| |now right].
  - destruct (to_primitive v); [left; eexists; reflexivity|now right].
  - left; eexists; reflexivity.
Qed.

(** The round on a comment: the comment leaves nothing in the hash. *)
Lemma round_comment (child : string -> hash -> M hash)
    (next : hash -> M (hash * bool)) (top : bool) (name : option string)
    (branch : hash) (st : parser) (pre before cm post : string) :
  text st = pre ++ before ++ "<!--" ++ cm ++ "-->" ++ post ->
  lastIndex st = length pre ->
  has "<" before = false -> contains "-->" ("--" ++ cm) = false ->
  XML.loop_body c child next top name branch st
  = (branch <- (if patNonSpace before then XML.add_data before branch
                else ret branch) ;;
     next branch)
      (advance st (length (pre ++ before ++ "<!--" ++ cm ++ "-->"))).
Proof.
  intros T L W C.
  destruct (tag_then_close patEndComment pre before "!--" (cm ++ "--") post)
    as (x & index & X & Y).
  - exact W.
  - reflexivity.
  - discriminate.
  - intros x0 y0 H. destruct (patEndComment x0) eqn:En; [exfalso|reflexivity].
    apply ends_with_true in En as [x1 ->].
    assert (K : contains "-->" ("!--" ++ cm ++ "--") = true).
    { rewrite H, append_assoc. apply contains_later.
      apply (contains_here "-->" y0). }
    change (contains "-->" ("!--" ++ cm ++ "--"))
      with (contains "-->" (("--" ++ cm) ++ "--")) in K.
    rewrite (contains_comment_end _ C) in K. discriminate K.
  - apply ends_with_true. exists ("!--" ++ cm). now rewrite !append_assoc.
  - assert (T' : text st
                 = pre ++ before ++ "<" ++ ("!--" ++ cm ++ "--") ++ ">" ++ post).
    { rewrite T. f_equal. f_equal. norm_app. reflexivity. }
    rewrite <- T', <- L in X.
    unfold XML.loop_body.
    unfold bind at 1. unfold this at 1. rewrite X.
    unfold bind at 1. unfold set_lastIndex at 1.
    set (st1 := {| text := text st; opts := opts st; tree := tree st;
                   errors := errors st; piNodeList := piNodeList st;
                   dtdNodeList := dtdNodeList st;
                   documentNodeName := documentNodeName st;
                   lastIndex := index |}).
    assert (H1 : forall st2,
               text st2 = text st -> lastIndex st2 = index ->
               XML.parseCommentNode ("!--" ++ x) st2
               = Done ("!--" ++ cm ++ "--")
                   (advance st2 (length (pre ++ before ++ "<!--" ++ cm
                                         ++ "-->")))).
    { intros st2 T2 L2. unfold XML.parseCommentNode, bind, this.
      rewrite (Y st2) by congruence. unfold set_lastIndex, ret, advance.
      do 2 f_equal. f_equal. f_equal. norm_app. reflexivity. }
    change (patSpecialTag ("!--" ++ x)) with true.
    change (patPITag ("!--" ++ x)) with false.
    change (patCommentTag ("!--" ++ x)) with true.
    cbv iota. change st1 with (advance st index). unfold bind.
    destruct (data_step_run before branch st) as [[b Hb]|Hu].
    + rewrite !Hb. rewrite H1 by reflexivity. reflexivity.
    + now rewrite !Hu.
Qed.

(** X8.  A comment inside an element leaves nothing in the tree, and the
    texts before and behind it become one text, joined by a space: each
    text is decoded (and trimmed) on its own, and a text of white space
    alone is left out.  The comment may hold tags; it ends at its first
    [-->]. *)
Theorem comment_between_texts (k x cm y rest : string) :
  valid_key k = true -> has "<" x = false -> has "<" y = false ->
  contains "-->" ("--" ++ cm) = false ->
  exists st,
    parse c ("<" ++ k ++ ">" ++ x ++ "<!--" ++ cm ++ "-->" ++ y ++ "</" ++ k
             ++ ">" ++ rest) o
    = Done (document pdn k (content c pw [x; y])) st
    /\ errors st = [] /\ documentNodeName st = Some k.
Proof.
  intros K Wx Wy C. destruct (valid_key_facts k K) as (V & I & _ & ND & NE).
  set (inner := x ++ "<!--" ++ cm ++ "-->" ++ y ++ "</" ++ k ++ ">" ++ rest).
  set (st1 := advance (fresh ("<" ++ k ++ ">" ++ inner) o)
                (length ("<" ++ k ++ ">"))).
  set (p2 := ("<" ++ k ++ ">") ++ x ++ "<!--" ++ cm ++ "-->").
  assert (T1 : text st1 = ("<" ++ k ++ ">") ++ x ++ "<!--" ++ cm ++ "-->"
                          ++ y ++ "</" ++ k ++ ">" ++ rest).
  { cbn [text st1 advance fresh]. unfold inner. now rewrite !append_assoc. }
  assert (T2 : text (advance st1 (length p2))
               = p2 ++ y ++ "</" ++ k ++ ">" ++ rest).
  { cbn [text advance]. fold st1. rewrite T1. unfold p2.
    now rewrite !append_assoc. }
  destruct (data_step x [] (advance st1 (length p2)) eq_refl
              (or_introl eq_refl)) as (leaf1 & D1 & E1).
  assert (S1 : leaf1 = [] \/ exists old, leaf1 = [("_Data", Text old)]).
  { rewrite E1. destruct (patNonSpace x); eauto. }
  destruct (data_step y leaf1
              (advance (advance st1 (length p2))
                 (length (p2 ++ y ++ "</" ++ k ++ ">"))) eq_refl S1)
    as (leaf2 & D2 & E2).
  assert (H : XML.parse_loop c 2 false (Some k) [] st1
              = Done (leaf2, true)
                  (advance st1 (length (p2 ++ y ++ "</" ++ k ++ ">")))).
  { rewrite parse_loop_nested.
    rewrite (round_comment _ _ false (Some k) [] st1 _ x cm _ T1 eq_refl Wx C).
    fold p2. unfold bind at 1. rewrite D1.
    rewrite parse_loop_nested.
    rewrite (round_close c _ _ false (Some k) leaf1 _ p2 y k rest T2 eq_refl
               Wy V).
    unfold bind at 1. rewrite D2. unfold node_name.
    cbn [opts st1 advance fresh constructed plain_options lowerCase
         XML.name_or_empty].
    now rewrite String.eqb_refl. }
  eexists. split.
  - apply (parse_element k inner 2 leaf2 _ _ K H); try reflexivity.
    rewrite E2, E1. unfold content. cbn [filter].
    destruct (patNonSpace x), (patNonSpace y); cbn [map String.concat];
      try (now apply compress_text); try (now apply compress_empty).
    rewrite append_assoc. now apply compress_text.
  - split; reflexivity.
Qed.

End Flags.

(** ** The theorems above on documents *)

Lemma element_of_text_witness :
  exists st,
    parse XmlJs "<a> x &amp; y </a>" default_options = Done (Text "x & y") st
    /\ errors st = [] /\ documentNodeName st = Some "a".
Proof.
  apply (element_of_text XmlJs false false false false "a" " x &amp; y " "");
    reflexivity.
Defined.

Lemma missing_closing_tag_witness :
  thrown (parse XmlJs ("<a>" ++ String newline "text") default_options)
  = Some "Parse Error: Missing closing tag (expected </a>) on line 1: <a>".
Proof.
  apply (missing_closing_tag XmlJs false false false false "a"
           (String newline "text")); reflexivity.
Defined.

Lemma mismatched_closing_tag_witness :
  thrown (parse XmlJs ("<a>" ++ String newline "</b>") default_options)
  = Some "Parse Error: Mismatched closing tag (expected </a>) on line 2: </b>".
Proof.
  apply (mismatched_closing_tag XmlJs false false false false "a"
           (String newline "") "b" "");
    [reflexivity|reflexivity|discriminate|reflexivity].
Defined.

Lemma closing_tag_without_element_witness :
  thrown (parse XmlJs "</a>" default_options)
  = Some "Parse Error: Mismatched closing tag (expected </null>) on line 1: </a>".
Proof.
  apply (closing_tag_without_element XmlJs false false false false "" "a" "");
    reflexivity.
Defined.

Lemma only_child_witness :
  exists st,
    parse XmlJs "<a> <x>1</x> </a>"
      (plain_options false false false true)
    = Done (Element [("x", Sequence [Text "1"])]) st
    /\ errors st = [] /\ documentNodeName st = Some "a".
Proof.
  apply (only_child XmlJs false false false true "a" " " "x" "1" " " "");
    reflexivity.
Defined.

Lemma comment_between_texts_witness :
  exists st,
    parse XmlJs "<a>x<!-- <b>old</b> -->y</a>" default_options
    = Done (Text "x y") st
    /\ errors st = [] /\ documentNodeName st = Some "a".
Proof.
  apply (comment_between_texts XmlJs false false false false "a" "x"
           " <b>old</b> " "y" ""); reflexivity.
Defined.

(** ** Attributes *)

Lemma new_leaf_plain (pdn pa pw fa : bool) (attribs : hash) (sc : string)
    (st : parser) :
  opts st = plain_options pdn pa pw fa ->
  forallb attribute_ok attribs = true -> ascending (keys attribs) = true ->
  attribs <> [] -> sc = "" \/ sc = "/" ->
  XML.new_leaf (skip_spaces (attribs_text attribs ++ sc)) st
  = Done (if pa then [("_Attribs", Element attribs)] else attribs) st.
Proof.
  intros O F A N S.
  assert (M : patAttrib_all 0 (skip_spaces (attribs_text attribs ++ sc))
              = map attrib_match attribs).
  { rewrite attribs_raw by assumption.
    rewrite <- (patAttrib_all_text attribs sc F S).
    destruct attribs as [|e es]; [reflexivity|].
    now rewrite attribs_text_cons, !append_assoc. }
  assert (G : XML.add_attribs (plain_options pdn pa pw fa)
                (skip_spaces (attribs_text attribs ++ sc)) [] = attribs).
  { unfold XML.add_attribs. rewrite M.
    apply (add_attribs_matches false false attribs []); auto. }
  unfold XML.new_leaf, bind, this. rewrite O, G.
  cbn [preserveAttributes plain_options attribsKey].
  destruct pa; [|reflexivity].
  cbn. destruct attribs; [congruence|reflexivity].
Qed.






(** ** Lower case *)

Lemma attach_absent (top : bool) (k : string) (v : node) (branch : hash)
    (st : parser) :
  inherited k = false -> get k branch = None ->
  XML.attach top k v branch st
  = Done (branch ++ [(k, if forceArrays (opts st) && negb top
                         then Sequence [v] else v)])%list st.
Proof.
  intros I G. unfold XML.attach, bind, this, read. rewrite G, I.
  destruct (forceArrays (opts st) && negb top); unfold ret;
    now rewrite set_fresh.
Qed.

Lemma toLowerCase_not_empty (k : string) : k <> "" -> toLowerCase k <> "".
Proof. destruct k; [congruence|discriminate]. Qed.

(** X10.  With [lowerCase] the names of the tags are folded to lower
    case, so a closing tag closes its element whatever the case of its
    letters is, and the data of an element with children stands under
    [_data], the lower-case form of the data key. *)
Theorem lower_case_names (c : copy) (pdn pa pw fa : bool)
    (k raw j k' rest : string) :
  lower_key k = true -> lower_key j = true -> re_valid_tag_name k' = true ->
  toLowerCase k' = toLowerCase k ->
  has "<" raw = false -> patNonSpace raw = true ->
  exists st,
    parse c ("<" ++ k ++ ">" ++ raw ++ "<" ++ j ++ "/>" ++ "</" ++ k' ++ ">"
             ++ rest) (lower_options pdn pa pw fa)
    = Done (document pdn (toLowerCase k)
              (Element [("_data", Text (data_of pw raw));
                        (toLowerCase j,
                         if fa then Sequence [empty_leaf c]
                         else empty_leaf c)])) st
    /\ errors st = [] /\ documentNodeName st = Some (toLowerCase k).
Proof.
  intros K J V' L W P.
  unfold lower_key in K, J.
  apply andb_true_iff in K as [K Dk]. apply andb_true_iff in K as [Vk Ik].
  apply andb_true_iff in J as [J Dj]. apply andb_true_iff in J as [Vj Ij].
  apply negb_true_iff in Dk, Ik, Dj, Ij. apply String.eqb_neq in Dk, Dj.
  pose proof (valid_name_chars k Vk) as (_ & NEk & _ & _).
  set (o := lower_options pdn pa pw fa).
  set (lk := toLowerCase k). set (lj := toLowerCase j).
  set (txt := "<" ++ k ++ ">" ++ raw ++ "<" ++ j ++ "/>" ++ "</" ++ k' ++ ">"
              ++ rest).
  set (p1 := "<" ++ k ++ ">").
  set (p2 := p1 ++ raw ++ "<" ++ j ++ "/" ++ ">").
  set (p3 := p2 ++ "" ++ "</" ++ k' ++ ">").
  set (w := if fa then Sequence [empty_leaf c] else empty_leaf c).
  set (leaf := [("_data", Text (data_of pw raw)); (lj, w)]).
  assert (T1 : text (advance (fresh txt o) (length p1))
               = p1 ++ raw ++ "<" ++ j ++ "/" ++ ">" ++ "</" ++ k' ++ ">"
                 ++ rest).
  { cbn [text advance fresh]. unfold txt, p1. now rewrite !append_assoc. }
  assert (T2 : text (advance (fresh txt o) (length p2))
               = p2 ++ "" ++ "</" ++ k' ++ ">" ++ rest).
  { cbn [text advance fresh]. unfold txt, p2, p1. now rewrite !append_assoc. }
  assert (H2 : XML.parse_loop c 1 false (Some lk) [("_data", Text (data_of pw raw)); (lj, w)]
                 (advance (fresh txt o) (length p2))
               = Done (leaf, true) (advance (fresh txt o) (length p3))).
  { rewrite parse_loop_nested.
    rewrite (round_close c _ _ false (Some lk) _ _ p2 "" k' rest T2 eq_refl
               eq_refl V').
    cbn [patNonSpace exists_char]. unfold bind, ret, node_name.
    cbn [opts advance fresh constructed o lower_options lowerCase
         XML.name_or_empty].
    unfold lk. now rewrite L, String.eqb_refl. }
  assert (H1 : XML.parse_loop c 2 false (Some lk) []
                 (advance (fresh txt o) (length p1))
               = Done (leaf, true) (advance (fresh txt o) (length p3))).
  { rewrite parse_loop_nested.
    rewrite (round_open c _ _ false (Some lk) [] _ p1 raw j "/" _ T1 eq_refl
               W Vj (or_intror eq_refl)) by discriminate.
    rewrite P. fold p2.
    unfold bind at 1.
    assert (A : XML.add_data raw [] (advance (fresh txt o) (length p2))
                = Done [("_data", Text (data_of pw raw))]
                    (advance (fresh txt o) (length p2))).
    { unfold XML.add_data, bind, this, data_of. now destruct pw. }
    rewrite advance_advance, A.
    cbn [String.eqb Ascii.eqb Bool.eqb negb andb].
    unfold bind at 1. unfold ret at 1. unfold bind at 1. unfold this at 1.
    unfold bind at 1.
    assert (Cm : XML.compress c [] (advance (fresh txt o) (length p2))
                 = Done (empty_leaf c) (advance (fresh txt o) (length p2)))
      by (now destruct c).
    rewrite Cm. unfold bind at 1. unfold node_name.
    cbn [opts advance fresh constructed o lower_options lowerCase].
    fold lj.
    rewrite (attach_absent false lj (empty_leaf c) [("_data", Text _)] _ Ij).
    2:{ cbn [get]. unfold lj. now rewrite (proj2 (String.eqb_neq _ _) Dj). }
    cbn [opts advance fresh constructed o lower_options lowerCase forceArrays
         negb app].
    rewrite andb_true_r. fold w.
    unfold bind at 1. unfold this at 1. cbn [XML.error errors advance fresh
      List.length Nat.eqb negb orb].
    exact H2. }
  assert (Q : XML.parse_loop c 3 true None [] (fresh txt o)
              = Done ([(lk, Element leaf)], false)
                  (advance (fresh txt o) (length p3))).
  { rewrite parse_loop_nested.
    rewrite (round_open c _ _ true None [] (fresh txt o) "" "" k "" _
               eq_refl eq_refl eq_refl Vk (or_introl eq_refl)) by discriminate.
    cbn [patNonSpace exists_char String.eqb negb andb].
    unfold bind at 1. unfold ret at 1. unfold bind at 1.
    unfold nested, node_name.
    cbn [opts fresh constructed o lower_options lowerCase]. fold lk.
    change ("" ++ "" ++ "<" ++ k ++ "" ++ ">") with p1.
    unfold bind at 1. rewrite H1.
    unfold XML.parse_finish. cbn [XML.name_or_empty negb andb].
    rewrite andb_false_r. unfold bind at 1. unfold ret at 1. unfold ret at 1.
    unfold bind at 1. unfold this at 1.
    cbn [XML.error errors advance fresh List.length Nat.eqb negb].
    unfold bind at 1.
    assert (Cm : XML.compress c leaf (advance (fresh txt o) (length p3))
                 = Done (Element leaf) (advance (fresh txt o) (length p3)))
      by (now destruct c).
    rewrite Cm. unfold bind at 1.
    rewrite (attach_absent true lk (Element leaf) [] _ Ik eq_refl).
    rewrite andb_false_r. unfold bind, this, ret. rewrite orb_true_r.
    reflexivity. }
  eexists. split.
  - apply (parse_single c txt o 3 _ lk (Element leaf) false _ Q).
    + cbn [delete constructed o lower_options lowerCase dataKey].
      change (toLowerCase "_Data") with "_data".
      unfold lk. now rewrite (proj2 (String.eqb_neq _ _) (not_eq_sym Dk)).
    + now apply toLowerCase_not_empty.
  - split; reflexivity.
Qed.

Lemma lower_case_names_witness :
  exists st,
    parse XmlJs "<Doc>text<Item/></DOC>" (lower_options false false false false)
    = Done (Element [("_data", Text "text"); ("item", Element [])]) st
    /\ errors st = [] /\ documentNodeName st = Some "doc".
Proof.
  apply (lower_case_names XmlJs false false false false
           "Doc" "text" "Item" "DOC" ""); reflexivity.
Defined.

(** ** The document wrapper *)

(** The text of a node that is no array opens with its tag. *)
Lemma stringify_opens (n : node) (name : string) (d : nat)
    (ind eol : string) (sort : bool) (s : string) :
  isaArray n = false -> stringify n name d ind eol sort = Some s ->
  exists r, s = header eol d ++ repeat_string ind d ++ String "<" r.
Proof.
  intros A H. unfold header.
  destruct n as [t|h|l]; [| |discriminate A]; cbn [stringify] in H;
    destruct ((d =? 0)%nat && String.eqb name ""); try discriminate H.
  - injection H as <-. eexists. reflexivity.
  - destruct (match get "_Attribs" h with
              | Some a => stringify_attribs sort a | None => Some "" end)
      as [attribs|]; [|discriminate H].
    cbn [and_then] in H.
    destruct (_ <? _)%nat.
    + destruct (match get "_Data" h with Some d0 => truthy d0 | None => false end).
      * destruct (d0 <~ get "_Data" h;; encode_node encodeEntities d0)
          as [data|]; [|discriminate H].
        injection H as <-. rewrite !append_assoc. eexists. reflexivity.
      * destruct (sequence_options _) as [children|]; [|discriminate H].
        injection H as <-. rewrite !append_assoc. eexists. reflexivity.
    + injection H as <-. rewrite !append_assoc. eexists. reflexivity.
Qed.

Lemma strip_declaration_header (eol r : string) :
  blank eol = true ->
  strip_declaration (xml_header ++ eol ++ String "<" r) = String "<" r.
Proof.
  intros B. unfold strip_declaration.
  rewrite skip_spaces_none by reflexivity.
  cbn. now apply skip_spaces_blank.
Qed.

(** The round that reads the declaration records it. *)
Lemma loop_declaration_state (c : copy) (o : options) (st : parser)
    (post : string) child next top name branch :
  reads o st "" (xml_header ++ post) ->
  XML.loop_body c child next top name branch st
  = next branch
      {| text := text st; opts := opts st; tree := tree st;
         errors := errors st;
         piNodeList := (piNodeList st ++ [declaration])%list;
         dtdNodeList := dtdNodeList st;
         documentNodeName := documentNodeName st;
         lastIndex := length xml_header |}.
Proof.
  intros (T & L & E & O).
  assert (X : patTag_exec (text st) (lastIndex st)
              = Some ("", declaration, length xml_header)).
  { rewrite T, L.
    apply (patTag_exec_at "" "" declaration post);
      [reflexivity|reflexivity|discriminate]. }
  unfold XML.loop_body, bind, this. rewrite X. reflexivity.
Qed.

(** X11.  The text that the serializer writes of a tree in the normal
    form of the parser, parsed by [xml.js] and composed again with the
    same indent and end of line, is the same text: the parser records the
    declaration, and [compose] writes it in the place of the one that it
    cuts off the text of the serializer. *)
Theorem compose_after_parse (pa pw : bool) (t : node)
    (name indent_string eol : string) :
  canonical pa pw t = true -> valid_key name = true ->
  blank indent_string = true -> blank eol = true ->
  exists xml st,
    stringify t name 0 indent_string eol true = Some xml
    /\ parse XmlJs xml (round_trip_options pa pw) = Done t st
    /\ piNodeList st = [declaration] /\ dtdNodeList st = []
    /\ documentNodeName st = Some name
    /\ compose st indent_string eol = Some xml.
Proof.
  intros C K Bi Be.
  pose proof (tree_round_trip pa pw indent_string eol Bi Be t) as H.
  apply item_of_node in H.
  destruct (H C name 0 K) as (core & f0 & Sx & I).
  destruct (valid_key_facts name K) as (_ & _ & _ & ND & NE).
  assert (A : isaArray t = false)
    by (destruct t; [reflexivity|reflexivity|discriminate C]).
  destruct (stringify_opens _ _ _ _ _ _ _ A Sx) as (r & R).
  change (header eol 0 ++ repeat_string indent_string 0 ++ String "<" r)
    with ((xml_header ++ eol) ++ String "<" r) in R.
  change (header eol 0 ++ repeat_string indent_string 0 ++ core ++ eol)
    with ((xml_header ++ eol) ++ core ++ eol) in *.
  rewrite append_assoc in Sx, R.
  set (xml := xml_header ++ eol ++ core ++ eol) in *.
  set (o := round_trip_options pa pw) in *.
  assert (R0 : reads o (fresh xml o) "" xml) by (repeat split).
  set (st1 := {| text := xml; opts := o; tree := Element []; errors := [];
                 piNodeList := [declaration]; dtdNodeList := [];
                 documentNodeName := Some ""; lastIndex := length xml_header |}).
  assert (R1 : reads o st1 xml_header (eol ++ core ++ eol)) by (repeat split).
  assert (Q : XML.parse_loop XmlJs (S (S f0)) true None [] (fresh xml o)
              = Done ([(name, t)], false)
                  (advance st1 (length (xml_header ++ eol ++ core)))).
  { cbn [XML.parse_loop].
    rewrite (loop_declaration_state XmlJs o (fresh xml o) (eol ++ core ++ eol)
               _ _ true None [] R0).
    etransitivity;
      [apply (I st1 xml_header eol eol R1 Be f0 (le_n _) true None [])|].
    reflexivity. }
  exists xml. eexists. split; [exact Sx|]. split.
  - apply (parse_single XmlJs xml o _ _ name t false _ Q).
    + cbn [delete constructed o round_trip_options lowerCase dataKey].
      now rewrite (proj2 (String.eqb_neq _ _) (not_eq_sym ND)).
    + exact NE.
  - split; [reflexivity|]. split; [reflexivity|]. split; [reflexivity|].
    unfold compose.
    cbn [opts with_document advance st1 o round_trip_options
         preserveDocumentNode tree documentNodeName piNodeList dtdNodeList
         document and_then].
    unfold stringify_document. destruct name as [|a n]; [congruence|].
    rewrite Sx. cbn [and_then map String.concat].
    rewrite R, !append_assoc, strip_declaration_header by exact Be.
    cbn. reflexivity.
Qed.

(** ** The serializer of the other copy *)

Lemma composed_agree (f g : string -> node -> option string) (h : hash)
    (key : string) :
  Forall (fun e => fst e <> "_Attribs" -> f (fst e) (snd e) = g (fst e) (snd e)) h ->
  key <> "_Attribs" ->
  match find (fun kv : string * option string => String.eqb key (fst kv))
          (map (fun kv => let (k, child) := kv : string * node in
                          (k, f k child)) h) with
  | Some (_, xml) => xml
  | None => None
  end
  = match find (fun kv : string * option string => String.eqb key (fst kv))
            (map (fun kv => let (k, child) := kv : string * node in
                            (k, g k child)) h) with
    | Some (_, xml) => xml
    | None => None
    end.
Proof.
  intros F N. induction F as [|[k child] h E F IH]; [reflexivity|].
  cbn [map find fst snd] in *.
  destruct (String.eqb_spec key k) as [->|D]; [now apply E|exact IH].
Qed.

(** X13.  The serializer of the other copy writes a tree as [xml.js]
    does when no array in it is empty, no hash has a truthy [length]
    entry and no hash has the empty string as its attributes. *)
Theorem serializers_agree (v : node) :
  portable v = true ->
  forall name d ind eol sort,
    stringify_part000 v name d ind eol sort = stringify v name d ind eol sort.
Proof.
  induction v as [s|h IH|l IH] using node_induction; intros Pv name d ind eol sort.
  - reflexivity.
  - cbn [portable] in Pv.
    apply andb_true_iff in Pv as [Pv F]. apply andb_true_iff in Pv as [L A].
    apply negb_true_iff in L.
    cbn [stringify stringify_part000]. rewrite L.
    destruct ((d =? 0)%nat && String.eqb name ""); [reflexivity|].
    assert (C : forall key, key <> "_Attribs" ->
      match find (fun kv : string * option string => String.eqb key (fst kv))
              (map (fun kv => let (k, child) := kv : string * node in
                      (k, stringify_part000 child k (d + 1) ind eol sort)) h) with
      | Some (_, xml) => xml
      | None => None
      end
      = match find (fun kv : string * option string => String.eqb key (fst kv))
                (map (fun kv => let (k, child) := kv : string * node in
                        (k, stringify child k (d + 1) ind eol sort)) h) with
        | Some (_, xml) => xml
        | None => None
        end).
    { intros key N.
      apply (composed_agree
               (fun k child => stringify_part000 child k (d + 1) ind eol sort)
               (fun k child => stringify child k (d + 1) ind eol sort) h key);
        [|exact N].
      rewrite forallb_forall in F. rewrite Forall_forall in IH |- *.
      intros e I N'. apply IH; [exact I|].
      specialize (F e I). apply orb_true_iff in F as [F|F]; [|exact F].
      now apply String.eqb_eq in F. }
    assert (M : forall keys,
      map (fun key =>
             match find (fun kv : string * option string => String.eqb key (fst kv))
                     (map (fun kv => let (k, child) := kv : string * node in
                             (k, stringify_part000 child k (d + 1) ind eol sort)) h) with
             | Some (_, xml) => xml
             | None => None
             end)
          (filter (fun key => negb (String.eqb key "_Attribs")
                              && re_valid_tag_name key) keys)
      = map (fun key =>
               match find (fun kv : string * option string => String.eqb key (fst kv))
                       (map (fun kv => let (k, child) := kv : string * node in
                               (k, stringify child k (d + 1) ind eol sort)) h) with
               | Some (_, xml) => xml
               | None => None
               end)
            (filter (fun key => negb (String.eqb key "_Attribs")
                                && re_valid_tag_name key) keys)).
    { intros keys. apply map_ext_in. intros key I.
      apply filter_In in I as [_ I]. apply andb_true_iff in I as [I _].
      apply negb_true_iff, String.eqb_neq in I. now apply C. }
    rewrite M.
    destruct (get "_Attribs" h) as [a|]; [rewrite A|]; reflexivity.
  - cbn [portable] in Pv. apply andb_true_iff in Pv as [N F].
    destruct l as [|item l]; [discriminate N|].
    cbn [stringify stringify_part000].
    destruct ((d =? 0)%nat && String.eqb name ""); [reflexivity|].
    assert (M : map (fun i => stringify_part000 i name d ind eol sort) (item :: l)
                = map (fun i => stringify i name d ind eol sort) (item :: l)).
    { apply map_ext_in. intros i I. rewrite Forall_forall in IH.
      rewrite forallb_forall in F. now apply IH; [|apply F]. }
    rewrite M. reflexivity.
Qed.


(** ** The utilities *)

Lemma span_parts (p : ascii -> bool) (s : string) :
  s = fst (span p s) ++ snd (span p s)
  /\ forall_chars p (fst (span p s)) = true
  /\ match snd (span p s) with String c _ => p c = false | "" => True end.
Proof.
  induction s as [|c s (E & F & N)]; [repeat split|].
  cbn [span]. destruct (p c) eqn:Pc.
  - destruct (span p s) as [a b]. cbn [fst snd] in *.
    repeat split; [now rewrite E at 1|cbn [forall_chars]; now rewrite Pc|exact N].
  - repeat split. exact Pc.
Qed.

Lemma forall_chars_reverse (p : ascii -> bool) (s : string) :
  forall_chars p (reverse s) = forall_chars p s.
Proof.
  induction s as [|c s IH]; [reflexivity|].
  rewrite reverse_cons.
  assert (A : forall a b, forall_chars p (a ++ b)
                          = forall_chars p a && forall_chars p b).
  { induction a as [|x a IHa]; intros b; simpl; [reflexivity|].
    now rewrite IHa, andb_assoc. }
  rewrite A, IH. simpl. now rewrite andb_true_r, andb_comm.
Qed.

Lemma head_app (p : ascii -> bool) (a b : string) :
  match a ++ b with String c _ => p c = false | "" => True end ->
  match a with String c _ => p c = false | "" => True end.
Proof. destruct a; [trivial|exact (fun H => H)]. Qed.

(** X14.  [trim] cuts white space off the two ends of a text and nothing
    else: the text is white space, the trimmed text and white space
    again, and the trimmed text neither begins nor ends with a character
    of white space.  So [trim] leaves a trimmed text as it is. *)
Theorem trim_cuts_the_ends (s : string) :
  exists a b,
    s = a ++ trim s ++ b /\ blank a = true /\ blank b = true
    /\ (forall c t, trim s = String c t -> is_space c = false)
    /\ (forall t c, trim s = t ++ String c "" -> is_space c = false)
    /\ trim (trim s) = trim s.
Proof.
  destruct (span_parts is_space s) as (E1 & F1 & N1).
  destruct (span_parts is_space (reverse (skip_spaces s))) as (E2 & F2 & N2).
  fold (skip_spaces s) in E1, N1.
  fold (skip_spaces (reverse (skip_spaces s))) in E2, N2.
  set (a := fst (span is_space s)) in *.
  set (a' := fst (span is_space (reverse (skip_spaces s)))) in *.
  assert (B : skip_spaces s = trim s ++ reverse a').
  { rewrite <- (reverse_involutive (skip_spaces s)), E2, reverse_app.
    reflexivity. }
  rewrite B in N1. apply head_app in N1.
  exists a, (reverse a'). split; [|split; [|split; [|split; [|split]]]].
  - rewrite <- B. exact E1.
  - exact F1.
  - unfold blank. now rewrite forall_chars_reverse.
  - intros c t T. now rewrite T in N1.
  - intros t c T.
    assert (R : skip_spaces (reverse (skip_spaces s)) = String c (reverse t)).
    { rewrite <- (reverse_involutive (skip_spaces (reverse (skip_spaces s)))).
      fold (trim s). rewrite T, reverse_app. reflexivity. }
    now rewrite R in N2.
  - unfold trim at 1. rewrite (skip_spaces_none (trim s) N1).
    unfold trim at 1. rewrite reverse_involutive.
    now rewrite (skip_spaces_none _ N2).
Qed.

(** ** Processing instructions and document types *)

Lemma append_inv_head (a b c : string) : a ++ b = a ++ c -> b = c.
Proof.
  induction a as [|x a IH]; intros H; [exact H|].
  injection H as H. now apply IH.
Qed.

(** The round on a processing instruction behind white space. *)
Lemma round_pi (c : copy)
    (child : string -> hash -> M hash) (next : hash -> M (hash * bool))
    (top : bool) (name : option string) (branch : hash)
    (st : parser) (pre ws pi post : string) :
  text st = pre ++ ws ++ "<" ++ pi ++ ">" ++ post ->
  lastIndex st = length pre -> blank ws = true ->
  has ">" pi = false -> patPINode pi = true ->
  XML.loop_body c child next top name branch st
  = next branch
      (with_lists st (piNodeList st ++ [pi])%list (dtdNodeList st)
         (length (pre ++ ws ++ "<" ++ pi ++ ">"))).
Proof.
  intros T L W G P.
  assert (E : exists s1, skip_spaces pi = String "?" s1).
  { unfold patPINode in P.
    destruct (strip "?" (skip_spaces pi)) as [s1|] eqn:S; [|discriminate P].
    exists s1. now apply strip_some in S. }
  destruct E as (s1 & E).
  assert (N : pi <> "") by (intros ->; discriminate E).
  assert (X : patTag_exec (text st) (lastIndex st)
              = Some (ws, pi, length (pre ++ ws ++ "<" ++ pi ++ ">"))).
  { rewrite T, L. apply patTag_exec_at; auto. now apply blank_no_tag. }
  unfold XML.loop_body.
  unfold bind at 1. unfold this at 1. rewrite X.
  unfold bind at 1. unfold set_lastIndex at 1.
  rewrite (blank_patNonSpace ws W).
  unfold patSpecialTag, patPITag. rewrite E.
  cbn [Ascii.eqb Bool.eqb orb starts_with strip is_some].
  unfold XML.parsePINode. rewrite P. reflexivity.
Qed.

(** The round on an external document type behind white space. *)
Lemma round_dtd (c : copy)
    (child : string -> hash -> M hash) (next : hash -> M (hash * bool))
    (top : bool) (name : option string) (branch : hash)
    (st : parser) (pre ws dtd post : string) :
  text st = pre ++ ws ++ "<" ++ dtd ++ ">" ++ post ->
  lastIndex st = length pre -> blank ws = true ->
  has ">" dtd = false -> patExternalDTDNode dtd = true ->
  XML.loop_body c child next top name branch st
  = next branch
      (with_lists st (piNodeList st) (dtdNodeList st ++ [dtd])%list
         (length (pre ++ ws ++ "<" ++ dtd ++ ">"))).
Proof.
  intros T L W G P.
  assert (E : exists s1, skip_spaces dtd = "!DOCTYPE" ++ s1).
  { unfold patExternalDTDNode, doctype_open in P.
    destruct (strip "!DOCTYPE" (skip_spaces dtd)) as [s1|] eqn:S;
      [|discriminate P].
    exists s1. now apply strip_some in S. }
  destruct E as (s1 & E).
  assert (N : dtd <> "") by (intros ->; discriminate E).
  assert (X : patTag_exec (text st) (lastIndex st)
              = Some (ws, dtd, length (pre ++ ws ++ "<" ++ dtd ++ ">"))).
  { rewrite T, L. apply patTag_exec_at; auto. now apply blank_no_tag. }
  unfold XML.loop_body.
  unfold bind at 1. unfold this at 1. rewrite X.
  unfold bind at 1. unfold set_lastIndex at 1.
  rewrite (blank_patNonSpace ws W).
  unfold patSpecialTag, patPITag, patCommentTag, patDTDTag. rewrite E.
  cbn [append Ascii.eqb Bool.eqb orb starts_with strip is_some].
  unfold XML.parseDTDNode. rewrite P. reflexivity.
Qed.

(** X12.  A processing instruction and an external document type before
    the document node are recorded by the parser and written back by
    [compose] in the place of the declaration of the serializer: the
    text of a tree in normal form behind such a prolog is parsed by
    [xml.js] to the tree and composed to the same text again. *)
Theorem prolog_is_composed (pa pw : bool) (t : node)
    (name indent_string eol pi dtd : string) :
  canonical pa pw t = true -> valid_key name = true ->
  blank indent_string = true -> blank eol = true ->
  patPINode pi = true -> has ">" pi = false ->
  patExternalDTDNode dtd = true -> has ">" dtd = false ->
  exists body st,
    stringify t name 0 indent_string eol true
    = Some (xml_header ++ eol ++ body)
    /\ parse XmlJs ("<" ++ pi ++ ">" ++ eol ++ "<" ++ dtd ++ ">" ++ eol ++ body)
         (round_trip_options pa pw) = Done t st
    /\ piNodeList st = [pi] /\ dtdNodeList st = [dtd]
    /\ compose st indent_string eol
       = Some ("<" ++ pi ++ ">" ++ eol ++ "<" ++ dtd ++ ">" ++ eol ++ body).
Proof.
  intros C K Bi Be Pp Gp Pd Gd.
  pose proof (tree_round_trip pa pw indent_string eol Bi Be t) as H.
  apply item_of_node in H.
  destruct (H C name 0 K) as (core & f0 & Sx & I).
  destruct (valid_key_facts name K) as (_ & _ & _ & ND & NE).
  assert (A : isaArray t = false)
    by (destruct t; [reflexivity|reflexivity|discriminate C]).
  destruct (stringify_opens _ _ _ _ _ _ _ A Sx) as (r & R).
  change (header eol 0 ++ repeat_string indent_string 0 ++ String "<" r)
    with ((xml_header ++ eol) ++ String "<" r) in R.
  change (header eol 0 ++ repeat_string indent_string 0 ++ core ++ eol)
    with ((xml_header ++ eol) ++ core ++ eol) in *.
  apply append_inv_head in R.
  rewrite append_assoc in Sx.
  set (o := round_trip_options pa pw) in *.
  set (p1 := "<" ++ pi ++ ">").
  set (p2 := p1 ++ eol ++ "<" ++ dtd ++ ">").
  set (xml := "<" ++ pi ++ ">" ++ eol ++ "<" ++ dtd ++ ">" ++ eol ++ core ++ eol).
  set (st1 := with_lists (fresh xml o) [pi] [] (length p1)).
  set (st2 := with_lists (fresh xml o) [pi] [dtd] (length p2)).
  assert (T1 : xml = p1 ++ eol ++ "<" ++ dtd ++ ">" ++ eol ++ core ++ eol)
    by (unfold xml, p1; now rewrite !append_assoc).
  assert (T2 : xml = p2 ++ eol ++ core ++ eol)
    by (unfold xml, p2, p1; now rewrite !append_assoc).
  assert (R2 : reads o st2 p2 (eol ++ core ++ eol)) by (repeat split; exact T2).
  assert (Q : XML.parse_loop XmlJs (S (S (S f0))) true None [] (fresh xml o)
              = Done ([(name, t)], false)
                  (advance st2 (length (p2 ++ eol ++ core)))).
  { cbn [XML.parse_loop].
    rewrite (round_pi XmlJs _ _ true None [] (fresh xml o) "" "" pi
               (eol ++ "<" ++ dtd ++ ">" ++ eol ++ core ++ eol)
               eq_refl eq_refl eq_refl Gp Pp).
    rewrite (round_dtd XmlJs _ _ true None [] st1 p1 eol dtd
               (eol ++ core ++ eol) T1 eq_refl Be Gd Pd).
    etransitivity;
      [apply (I st2 p2 eol eol R2 Be f0 (le_n _) true None [])|].
    reflexivity. }
  exists (core ++ eol). eexists. split; [exact Sx|]. split.
  - apply (parse_single XmlJs xml o _ _ name t false _ Q).
    + cbn [delete constructed o round_trip_options lowerCase dataKey].
      now rewrite (proj2 (String.eqb_neq _ _) (not_eq_sym ND)).
    + exact NE.
  - split; [reflexivity|]. split; [reflexivity|].
    unfold compose.
    cbn [opts with_document advance st2 with_lists fresh constructed o
         round_trip_options lowerCase
         preserveDocumentNode tree documentNodeName piNodeList dtdNodeList
         document and_then].
    unfold stringify_document. destruct name as [|a n]; [congruence|].
    rewrite Sx. cbn [and_then map String.concat].
    rewrite R, strip_declaration_header by exact Be.
    rewrite ?append_assoc. reflexivity.
Qed.

Lemma subst_without (p : ascii -> bool) (f : ascii -> string) (s : string) :
  (forall c, exists_char p (f c) = false) -> exists_char p (subst f s) = false.
Proof.
  intros H. induction s as [|c s IH]; [reflexivity|].
  cbn [subst]. now rewrite exists_char_app, H, IH.
Qed.

Lemma entity_free (attr : bool) (a c : ascii) :
  a = "<"%char \/ a = ">"%char
  \/ (attr = true /\ (a = dquote \/ a = "'"%char)) ->
  has a (entity attr c) = false.
Proof.
  intros H. unfold entity, has.
  destruct (Ascii.eqb_spec c "&") as [->|N0].
  { destruct H as [->|[->|(_ & [->| ->])]]; reflexivity. }
  destruct (Ascii.eqb_spec c "<") as [->|N1].
  { destruct H as [->|[->|(_ & [->| ->])]]; reflexivity. }
  destruct (Ascii.eqb_spec c ">") as [->|N2].
  { destruct H as [->|[->|(_ & [->| ->])]]; reflexivity. }
  destruct (Ascii.eqb_spec c dquote) as [->|N3].
  { destruct attr.
    - destruct H as [->|[->|(_ & [->| ->])]]; reflexivity.
    - destruct H as [->|[->|(F & _)]]; [reflexivity|reflexivity|discriminate F]. }
  destruct (Ascii.eqb_spec c "'") as [->|N4].
  { destruct attr.
    - destruct H as [->|[->|(_ & [->| ->])]]; reflexivity.
    - destruct H as [->|[->|(F & _)]]; [reflexivity|reflexivity|discriminate F]. }
  rewrite !andb_false_r. cbn [exists_char]. rewrite orb_false_r.
  apply Ascii.eqb_neq.
  destruct H as [->|[->|(_ & [->| ->])]]; congruence.
Qed.

(** X15.  The text that [encodeEntities] returns holds no [<] and no
    [>], and the text that [encodeAttribEntities] returns holds neither
    these nor a quote of either kind: an encoded text cannot end the tag
    or the attribute value in which the serializer writes it. *)
Theorem encoded_text_is_inert (s : string) :
  has "<" (encodeEntities s) = false /\ has ">" (encodeEntities s) = false
  /\ has "<" (encodeAttribEntities s) = false
  /\ has ">" (encodeAttribEntities s) = false
  /\ has dquote (encodeAttribEntities s) = false
  /\ has "'" (encodeAttribEntities s) = false.
Proof.
  pose proof (encode_subst false s) as E. pose proof (encode_subst true s) as A.
  cbn beta iota in E, A. rewrite E, A. unfold has at 1 2 3 4 5 6.
  repeat split; apply subst_without; intros c; apply entity_free; auto.
Qed.

(** ** Arrays of one item *)

Lemma get_set_other (k key : string) (v : node) (h : hash) :
  k <> key -> get k (set key v h) = get k h.
Proof.
  intros N. induction h as [|[k' v'] h IH]; cbn [set get].
  - now rewrite (proj2 (String.eqb_neq _ _) N).
  - destruct (String.eqb_spec key k') as [->|D]; cbn [get].
    + now rewrite (proj2 (String.eqb_neq _ _) N).
    + now rewrite IH.
Qed.

Lemma keys_set_own (key : string) (v w : node) (h : hash) :
  get key h = Some w -> keys (set key v h) = keys h.
Proof.
  unfold keys. induction h as [|[k' v'] h IH]; cbn [set get]; [discriminate|].
  destruct (String.eqb_spec key k') as [->|D]; [reflexivity|].
  intros G. cbn [map fst]. now rewrite IH.
Qed.

(** X16.  [alwaysArray] with a key that the hash does not inherit
    makes the entry of the key an array of one item when it is truthy
    and no array, leaves the keys and the other entries as they are,
    and changes nothing when it is called again. *)
Theorem always_array_of_entry (h : hash) (key : string) :
  key <> "" -> inherited key = false ->
  exists h',
    alwaysArray (Element h) key = Some (Changed h')
    /\ keys h' = keys h
    /\ (forall k, k <> key -> get k h' = get k h)
    /\ get key h'
       = option_map (fun v => if truthy v && negb (isaArray v)
                              then Sequence [v] else v) (get key h)
    /\ alwaysArray (Element h') key = Some (Changed h').
Proof.
  intros N I.
  assert (P : String.eqb key "__proto__" = false).
  { apply String.eqb_neq. intros ->. discriminate I. }
  unfold alwaysArray, read, write.
  rewrite (proj2 (String.eqb_neq _ _) N), I, P.
  destruct (get key h) as [v|] eqn:G.
  - destruct (truthy v && negb (isaArray v)) eqn:T.
    + exists (set key (Sequence [v]) h). cbn [option_map].
      rewrite get_set_same, T. cbn [truthy isaArray negb andb].
      split; [reflexivity|]. split; [now apply (keys_set_own key _ v)|].
      split; [|split; reflexivity].
      intros k D. now apply get_set_other.
    + exists h. rewrite G, T. cbn [option_map]. rewrite T.
      repeat split; reflexivity.
  - exists h. rewrite G. repeat split; reflexivity.
Qed.

Lemma always_array_of_entry_witness :
  exists h',
    alwaysArray (Element [("a", Text "1"); ("b", Text "2")]) "a"
    = Some (Changed h')
    /\ keys h' = ["a"; "b"]
    /\ (forall k, k <> "a" ->
        get k h' = get k [("a", Text "1"); ("b", Text "2")])
    /\ get "a" h' = Some (Sequence [Text "1"])
    /\ alwaysArray (Element h') "a" = Some (Changed h').
Proof.
  apply (always_array_of_entry [("a", Text "1"); ("b", Text "2")] "a");
    [discriminate|reflexivity].
Defined.

(** ** Documents without a node *)

(** X17.  A text in which no tag can start or end leaves the parser
    without a document node, and [compose] then writes an element of the
    name [null] behind the declaration, with any options that do not
    preserve the document node. *)
Theorem compose_without_tag (txt : string) (o : options)
    (indent_string eol : string) :
  has "<" txt = false \/ has ">" txt = false ->
  preserveDocumentNode o = false -> blank eol = true ->
  exists st,
    parse XmlJs txt o = Done (Element []) st
    /\ compose st indent_string eol
       = Some (xml_header ++ eol ++ "<null></null>" ++ eol).
Proof.
  intros H P B.
  assert (Pc : preserveDocumentNode (constructed o) = false)
    by (unfold constructed; destruct (lowerCase o); exact P).
  assert (S : strip_declaration (xml_header ++ eol ++ "<null></null>" ++ eol)
              = "<null></null>" ++ eol)
    by (now apply (strip_declaration_header eol)).
  destruct (String.eqb_spec txt "") as [->|N].
  - exists (fresh "" o). split; [reflexivity|].
    unfold compose. cbn [opts fresh tree documentNodeName piNodeList
                         dtdNodeList].
    rewrite Pc. cbn [and_then stringify_document]. rewrite S.
    cbn [map String.concat]. now rewrite !append_assoc.
  - assert (Q : XML.parse_loop XmlJs 1 true None [] (fresh txt o)
                = Done ([], false) (advance (fresh txt o) 0)).
    { cbn [XML.parse_loop]. unfold XML.loop_body, bind, this, patTag_exec.
      cbn [text fresh lastIndex drop].
      destruct H as [H|H];
        [rewrite (patTag_from_none txt H)|rewrite (patTag_from_open txt H)];
        reflexivity. }
    eexists. split.
    + apply (parse_none XmlJs txt o 1 [] false _ Q); [intros k []|exact N].
    + unfold compose. cbn [opts with_document advance fresh tree
                           documentNodeName piNodeList dtdNodeList].
      rewrite Pc. cbn [and_then stringify_document]. rewrite S.
      cbn [map String.concat]. now rewrite !append_assoc.
Qed.

Lemma compose_without_tag_witness :
  exists st,
    parse XmlJs "a > b" default_options = Done (Element []) st
    /\ compose st (String tab "") (String newline "")
       = Some (xml_header ++ String newline "" ++ "<null></null>"
               ++ String newline "").
Proof.
  apply (compose_without_tag "a > b" default_options (String tab "")
           (String newline "")); [left| |]; reflexivity.
Defined.

Lemma compose_after_parse_witness :
  exists xml st,
    stringify
      (Element [("_Attribs", Element [("id", Text "1 < 2")]);
                ("a", Sequence [Text "1"; Text "2"]);
                ("b", Element [])])
      "doc" 0 (String tab "") (String newline "") true = Some xml
    /\ parse XmlJs xml (round_trip_options true false)
       = Done
           (Element [("_Attribs", Element [("id", Text "1 < 2")]);
                     ("a", Sequence [Text "1"; Text "2"]);
                     ("b", Element [])]) st
    /\ piNodeList st = [declaration] /\ dtdNodeList st = []
    /\ documentNodeName st = Some "doc"
    /\ compose st (String tab "") (String newline "") = Some xml.
Proof.
  apply (compose_after_parse true false
           (Element [("_Attribs", Element [("id", Text "1 < 2")]);
                     ("a", Sequence [Text "1"; Text "2"]);
                     ("b", Element [])])
           "doc" (String tab "") (String newline "")); reflexivity.
Defined.

Lemma serializers_agree_witness :
  stringify_part000
    (Element [("_Attribs", Element [("id", Text "1")]);
              ("a", Sequence [Text "1"; Text ""]);
              ("b", Element [])])
    "doc" 0 (String tab "") (String newline "") true
  = stringify
      (Element [("_Attribs", Element [("id", Text "1")]);
                ("a", Sequence [Text "1"; Text ""]);
                ("b", Element [])])
      "doc" 0 (String tab "") (String newline "") true.
Proof.
  apply (serializers_agree
           (Element [("_Attribs", Element [("id", Text "1")]);
                     ("a", Sequence [Text "1"; Text ""]);
                     ("b", Element [])])
           eq_refl "doc" 0 (String tab "") (String newline "") true).
Defined.

Lemma prolog_is_composed_witness :
  exists body st,
    stringify (Element [("a", Text "1")]) "doc" 0 (String tab "")
      (String newline "") true
    = Some (xml_header ++ String newline "" ++ body)
    /\ parse XmlJs
         ("<" ++ ("?xml version=" ++ dq ++ "1.1" ++ dq ++ "?") ++ ">"
          ++ String newline "" ++ "<"
          ++ ("!DOCTYPE doc SYSTEM " ++ dq ++ "doc.dtd" ++ dq) ++ ">"
          ++ String newline "" ++ body)
         (round_trip_options false false)
       = Done (Element [("a", Text "1")]) st
    /\ piNodeList st = ["?xml version=" ++ dq ++ "1.1" ++ dq ++ "?"]
    /\ dtdNodeList st = ["!DOCTYPE doc SYSTEM " ++ dq ++ "doc.dtd" ++ dq]
    /\ compose st (String tab "") (String newline "")
       = Some ("<" ++ ("?xml version=" ++ dq ++ "1.1" ++ dq ++ "?") ++ ">"
               ++ String newline "" ++ "<"
               ++ ("!DOCTYPE doc SYSTEM " ++ dq ++ "doc.dtd" ++ dq) ++ ">"
               ++ String newline "" ++ body).
Proof.
  apply (prolog_is_composed false false (Element [("a", Text "1")]) "doc"
           (String tab "") (String newline "")
           ("?xml version=" ++ dq ++ "1.1" ++ dq ++ "?")
           ("!DOCTYPE doc SYSTEM " ++ dq ++ "doc.dtd" ++ dq)); reflexivity.
Defined.

(** ** Malformed tags *)

(** X18.  A malformed tag as the first tag of a text, behind any text:
    a tag without a name, a processing instruction without a name or
    with a line break behind it, a document type that is neither
    external nor inline, and any other tag that opens with [!] make the
    entry point throw the error of their kind, on the line on which the
    tag starts and with the tag as its text, whatever follows. *)
Theorem malformed_tag_is_refused (c : copy) (pdn pa pw fa : bool)
    (before tag key rest : string) :
  has "<" before = false -> has ">" tag = false -> tag <> "" ->
  malformation tag = Some key ->
  thrown (parse c (before ++ "<" ++ tag ++ ">" ++ rest)
            (plain_options pdn pa pw fa))
  = Some (parse_error key (1 + line_feeds before) tag).
Proof.
  intros W G N Mf.
  set (o := plain_options pdn pa pw fa).
  set (txt := before ++ "<" ++ tag ++ ">" ++ rest).
  set (p := before ++ "<" ++ tag ++ ">").
  set (st1 := advance (fresh txt o) (length p)).
  assert (T2 : text st1 = p ++ rest).
  { cbn [text st1 advance fresh]. unfold txt, p. now rewrite !append_assoc. }
  assert (X : patTag_exec (text (fresh txt o)) (lastIndex (fresh txt o))
              = Some (before, tag, length ("" ++ before ++ "<" ++ tag ++ ">"))).
  { apply (patTag_exec_at "" before tag rest W G N). }
  destruct (data_step pdn pa pw fa before [] st1 eq_refl (or_introl eq_refl))
    as (leaf' & D & _).
  destruct (throwParseError_message (A := hash * bool) key tag st1 eq_refl)
    as [st' Th].
  destruct (throwParseError_message (A := string) key tag st1 eq_refl)
    as [st'' Th'].
  assert (Ln : (line_feeds (take (lastIndex st1) (text st1)) + 1
                - line_feeds tag = 1 + line_feeds before)%Z).
  { cbn [lastIndex st1 advance]. fold st1. rewrite T2, take_app.
    unfold p. rewrite !line_feeds_app.
    change (line_feeds "<") with 0%Z. change (line_feeds ">") with 0%Z. lia. }
  rewrite Ln in Th, Th'.
  assert (H : exists st2,
             XML.parse_loop c 1 true None [] (fresh txt o)
             = Thrown (parse_error key (1 + line_feeds before) tag) st2).
  { rewrite parse_loop_nested. unfold XML.loop_body.
    unfold bind at 1. unfold this at 1. rewrite X.
    unfold bind at 1. unfold set_lastIndex at 1.
    change ("" ++ before ++ "<" ++ tag ++ ">") with p.
    fold (advance (fresh txt o) (length p)). fold st1.
    unfold bind at 1. rewrite D.
    unfold malformation in Mf.
    destruct (patSpecialTag tag).
    - destruct (patPITag tag).
      + unfold XML.parsePINode.
        destruct (patPINode tag); [discriminate Mf|]. injection Mf as <-.
        cbn [negb]. unfold bind. rewrite Th'. now exists st''.
      + destruct (patCommentTag tag); [discriminate Mf|].
        destruct (patDTDTag tag).
        * unfold XML.parseDTDNode.
          destruct (patExternalDTDNode tag); [discriminate Mf|].
          destruct (patInlineDTDNode tag); [discriminate Mf|].
          injection Mf as <-. unfold bind. rewrite Th'. now exists st''.
        * destruct (patCDATATag tag); [discriminate Mf|].
          injection Mf as <-. rewrite Th. now exists st'.
    - destruct (patStandardTag tag) as [[[cl nm] ar]|]; [discriminate Mf|].
      injection Mf as <-. rewrite Th. now exists st'. }
  destruct H as [st2 H].
  now rewrite (parse_thrown c txt o 1 _ st2 H).
Qed.

Lemma malformed_tag_is_refused_witness :
  thrown (parse XmlJs
            ("a" ++ String newline "" ++ "<" ++ "!x" ++ ">" ++ "<b/>")
            (plain_options false false false false))
  = Some (parse_error "Malformed special tag"
            (1 + line_feeds ("a" ++ String newline "")) "!x").
Proof.
  apply (malformed_tag_is_refused XmlJs false false false false
           ("a" ++ String newline "") "!x" "Malformed special tag" "<b/>");
    [reflexivity|reflexivity|discriminate|reflexivity].
Defined.

(** ** An attribute and a child of one name *)

(** X19.  Without [preserveAttributes] the attributes of a tag are
    entries of the hash of its element like the children, so a child
    with the name of an attribute is put into an array with the value
    of the attribute, which comes first, with and without
    [forceArrays]. *)
Theorem attribute_and_child_coalesce (c : copy) (pdn pw fa : bool)
    (r k v raw rest : string) :
  valid_key r = true -> valid_key k = true ->
  attribute_ok (k, Text v) = true -> has "<" raw = false ->
  exists st,
    parse c ("<" ++ r ++ attribs_text [(k, Text v)] ++ ">"
             ++ "<" ++ k ++ ">" ++ raw ++ "</" ++ k ++ ">"
             ++ "</" ++ r ++ ">" ++ rest)
      (plain_options pdn false pw fa)
    = Done (document pdn r
              (Element [(k, Sequence [Text v; content c pw [raw]])])) st
    /\ errors st = [] /\ documentNodeName st = Some r.
Proof.
  intros R K F W.
  destruct (valid_key_facts r R) as (Vr & Ir & _ & NDr & NEr).
  destruct (valid_key_facts k K) as (V & I & _ & ND & NE).
  set (o := plain_options pdn false pw fa).
  set (attribs := [(k, Text v)]).
  set (inner := "<" ++ k ++ ">" ++ raw ++ "</" ++ k ++ ">"
                ++ "</" ++ r ++ ">" ++ rest).
  set (txt := "<" ++ r ++ attribs_text attribs ++ ">" ++ inner).
  set (p1 := "<" ++ r ++ attribs_text attribs ++ ">").
  set (p2 := p1 ++ "<" ++ k ++ ">").
  set (p3 := p2 ++ raw ++ "</" ++ k ++ ">").
  set (p4 := p3 ++ "</" ++ r ++ ">").
  set (w := content c pw [raw]).
  set (st1 := advance (fresh txt o) (length p1)).
  assert (Fa : forallb attribute_ok attribs = true)
    by (cbn [forallb attribs]; now rewrite F).
  assert (T0 : text (fresh txt o)
               = "" ++ "" ++ "<" ++ r ++ attribs_text attribs ++ "" ++ ">"
                 ++ inner) by reflexivity.
  assert (T1 : text st1 = p1 ++ "" ++ "<" ++ k ++ "" ++ ">" ++ raw ++ "</"
                          ++ k ++ ">" ++ "</" ++ r ++ ">" ++ rest).
  { cbn [text st1 advance fresh]. unfold txt, p1, inner.
    now rewrite !append_assoc. }
  assert (T2 : text (advance st1 (length p2))
               = p2 ++ raw ++ "</" ++ k ++ ">" ++ "</" ++ r ++ ">" ++ rest).
  { cbn [text advance]. fold st1. rewrite T1. unfold p2.
    now rewrite !append_assoc. }
  assert (T3 : text (advance st1 (length p3))
               = p3 ++ "" ++ "</" ++ r ++ ">" ++ rest).
  { cbn [text advance]. fold st1. rewrite T1. unfold p3, p2.
    now rewrite !append_assoc. }
  assert (Cw : XML.compress c
                 (if patNonSpace raw then [("_Data", Text (data_of pw raw))]
                  else []) (advance st1 (length p3))
               = Done w (advance st1 (length p3))).
  { unfold w, content. cbn [filter]. destruct (patNonSpace raw).
    - cbn [map String.concat].
      now apply (compress_text c pdn false pw fa).
    - now apply (compress_empty c pdn false pw fa). }
  assert (H : nested c 2 r attribs st1
              = Done [(k, Sequence [Text v; w])]
                  (advance st1 (length p4))).
  { unfold nested. unfold bind at 1. rewrite parse_loop_nested.
    rewrite (round_open c _ _ false (Some r) attribs st1 p1 "" k ""
               _ T1 eq_refl eq_refl V (or_introl eq_refl)) by discriminate.
    cbn [patNonSpace exists_char String.eqb negb andb].
    unfold bind at 1. unfold ret at 1. unfold bind at 1.
    unfold node_name. cbn [opts st1 advance fresh constructed o plain_options
                           lowerCase].
    change (p1 ++ "" ++ "<" ++ k ++ "" ++ ">") with p2.
    rewrite (nested_text c pdn false pw fa k raw _ 0 _ p2 T2 eq_refl eq_refl
               V W).
    rewrite advance_advance. fold p3.
    unfold bind at 1. unfold this at 1. unfold XML.error at 1.
    cbn [errors advance st1 fresh List.length Nat.eqb negb].
    unfold bind at 1.
    match goal with
    | |- context [XML.compress c ?l ?s] =>
        replace (XML.compress c l s) with (Done w (advance st1 (length p3)))
          by (symmetry; exact Cw)
    end.
    unfold bind at 1.
    assert (At : XML.attach false k w attribs (advance st1 (length p3))
                 = Done [(k, Sequence [Text v; w])] (advance st1 (length p3))).
    { unfold XML.attach, bind, this, read, attribs. cbn [get].
      rewrite String.eqb_refl. unfold ret. cbn [set].
      now rewrite String.eqb_refl. }
    rewrite At. unfold bind at 1. unfold this at 1. unfold XML.error at 1.
    cbn [errors advance st1 fresh List.length Nat.eqb negb orb].
    rewrite parse_loop_nested.
    rewrite (round_close c _ _ false (Some r) _ _ p3 "" r rest T3 eq_refl
               eq_refl Vr).
    cbn [patNonSpace exists_char]. unfold bind at 1. unfold ret at 1.
    unfold node_name. cbn [opts st1 advance fresh constructed o plain_options
                           lowerCase XML.name_or_empty].
    rewrite String.eqb_refl. unfold ret at 1.
    unfold XML.parse_finish. cbn [XML.name_or_empty negb andb].
    rewrite ?andb_false_r. reflexivity. }
  assert (Q : XML.parse_loop c 3 true None [] (fresh txt o)
              = Done ([(r, Element [(k, Sequence [Text v; w])])], false)
                  (advance st1 (length p4))).
  { rewrite parse_loop_nested.
    rewrite (round_tag c _ _ true None [] (fresh txt o) "" "" r attribs "" inner
               T0 eq_refl eq_refl Vr Fa (or_introl eq_refl)).
    change ("" ++ "" ++ "<" ++ r ++ attribs_text attribs ++ "" ++ ">") with p1.
    fold st1.
    cbn [patNonSpace exists_char String.eqb negb andb].
    unfold bind at 1. unfold ret at 1. unfold bind at 1.
    rewrite (new_leaf_plain pdn false pw fa attribs "" st1 eq_refl Fa
               eq_refl ltac:(discriminate) (or_introl eq_refl)).
    unfold bind at 1. unfold node_name.
    cbn [opts fresh constructed o plain_options lowerCase].
    rewrite H.
    unfold bind at 1. unfold this at 1. unfold XML.error at 1.
    cbn [errors advance st1 fresh List.length Nat.eqb negb andb].
    unfold bind at 1.
    rewrite (compress_children c pdn false pw fa k _ (advance st1 (length p4))
               eq_refl ND).
    unfold bind at 1.
    rewrite (attach_fresh pdn false pw fa true r _ []
               (advance st1 (length p4)) eq_refl Ir eq_refl).
    rewrite andb_false_r. unfold bind, this, ret. rewrite orb_true_r.
    reflexivity. }
  eexists. split.
  - apply (parse_single c txt o 3 _ r _ false _ Q); [|exact NEr].
    cbn [delete constructed o plain_options lowerCase dataKey].
    now rewrite (proj2 (String.eqb_neq _ _) (not_eq_sym NDr)).
  - split; reflexivity.
Qed.

Lemma attribute_and_child_coalesce_witness :
  exists st,
    parse XmlJs ("<" ++ "a" ++ attribs_text [("b", Text "1")] ++ ">"
                 ++ "<" ++ "b" ++ ">" ++ "2" ++ "</" ++ "b" ++ ">"
                 ++ "</" ++ "a" ++ ">" ++ "")
      (plain_options false false false false)
    = Done (document false "a"
              (Element [("b", Sequence [Text "1"; content XmlJs false ["2"]])]))
        st
    /\ errors st = [] /\ documentNodeName st = Some "a".
Proof.
  apply (attribute_and_child_coalesce XmlJs false false false
           "a" "b" "1" "2" ""); reflexivity.
Defined.

(** ** The document node *)

Section Preserving.

Variable b : bool.

Lemma comm_bind {A B : Type} (m : M A) (f : A -> M B) :
  commutes b m -> (forall a, commutes b (f a)) -> commutes b (bind m f).
Proof.
  intros Hm Hf st. unfold bind. rewrite Hm.
  destruct (m st) as [a st'|msg st'| |]; cbn [on_state]; try reflexivity.
  apply Hf.
Qed.

Lemma comm_ret {A : Type} (a : A) : commutes b (ret a).
Proof. intros st. reflexivity. Qed.

Lemma comm_unmodelled {A : Type} : commutes b (unmodelled (A := A)).
Proof. intros st. reflexivity. Qed.

Lemma comm_set_lastIndex (n : nat) : commutes b (set_lastIndex n).
Proof. intros st. reflexivity. Qed.

Lemma comm_throw {A : Type} (key tag : string) :
  commutes b (XML.throwParseError (A := A) key tag).
Proof. intros st. reflexivity. Qed.

Lemma comm_add_data (s : string) (branch : hash) :
  commutes b (XML.add_data s branch).
Proof.
  intros st. unfold XML.add_data, bind, this.
  cbn [opts preserving set_preserveDocumentNode dataKey preserveWhitespace].
  destruct (read _ branch) as [v| |]; try reflexivity.
  destruct (to_primitive v); reflexivity.
Qed.

Lemma comm_new_leaf (attribsRaw : string) : commutes b (XML.new_leaf attribsRaw).
Proof.
  intros st. unfold XML.new_leaf, bind, this.
  cbn [opts preserving set_preserveDocumentNode attribsKey preserveAttributes].
  assert (E : XML.add_attribs (set_preserveDocumentNode b (opts st)) attribsRaw []
              = XML.add_attribs (opts st) attribsRaw []) by reflexivity.
  rewrite E.
  destruct (preserveAttributes (opts st)); [|reflexivity].
  destruct (write _ _ _); [|reflexivity].
  destruct (numKeys _ =? 0)%nat; reflexivity.
Qed.

Lemma comm_compress (c : copy) (leaf : hash) : commutes b (XML.compress c leaf).
Proof.
  intros st. unfold XML.compress, bind, this.
  cbn [opts preserving set_preserveDocumentNode dataKey].
  destruct (read _ leaf) as [v| |]; cbn [andb];
    destruct (numKeys leaf =? 1)%nat; cbn [andb]; try reflexivity;
    destruct c; try reflexivity; destruct (numKeys leaf =? 0)%nat; reflexivity.
Qed.

Lemma comm_attach (top : bool) (nodeName : string) (leaf : node) (branch : hash) :
  commutes b (XML.attach top nodeName leaf branch).
Proof.
  intros st. unfold XML.attach, bind, this.
  cbn [opts preserving set_preserveDocumentNode forceArrays].
  destruct (read _ branch) as [[s|h|l]| |]; try reflexivity.
  destruct (forceArrays (opts st) && negb top); reflexivity.
Qed.

Lemma comm_parsePINode (tag : string) : commutes b (XML.parsePINode tag).
Proof.
  intros st. unfold XML.parsePINode. destruct (negb (patPINode tag)); reflexivity.
Qed.

Lemma comm_parseCommentNode (tag : string) : commutes b (XML.parseCommentNode tag).
Proof.
  intros st. unfold XML.parseCommentNode, bind, this.
  change (XML.next_close patEndComment tag (preserving b st))
    with (XML.next_close patEndComment tag st).
  destruct (XML.next_close _ tag st) as [t [i|]]; reflexivity.
Qed.

Lemma comm_parseDTDNode (tag : string) : commutes b (XML.parseDTDNode tag).
Proof.
  intros st. unfold XML.parseDTDNode.
  destruct (patExternalDTDNode tag); [reflexivity|].
  destruct (patInlineDTDNode tag); [|reflexivity].
  unfold bind, this.
  change (XML.next_close patEndDTD tag (preserving b st))
    with (XML.next_close patEndDTD tag st).
  destruct (XML.next_close _ tag st) as [t [i|]]; [|reflexivity].
  destruct (patDTDNode t); reflexivity.
Qed.

Lemma comm_parseCDATANode (tag : string) : commutes b (XML.parseCDATANode tag).
Proof.
  intros st. unfold XML.parseCDATANode, bind, this.
  change (XML.next_close patEndCDATA tag (preserving b st))
    with (XML.next_close patEndCDATA tag st).
  destruct (XML.next_close _ tag st) as [t [i|]]; [|reflexivity].
  cbn. destruct (patCDATANode t); reflexivity.
Qed.

Lemma comm_parse_finish_child (name : option string) (r : hash * bool) :
  commutes b (XML.parse_finish false name r).
Proof.
  destruct r as [branch found]. unfold XML.parse_finish.
  apply comm_bind; [|intros; apply comm_ret].
  destruct (_ && _); [apply comm_throw|apply comm_ret].
Qed.

(** A step that begins by looking at the parser. *)
Lemma comm_this {A : Type} (k : parser -> M A) :
  (forall st, k (preserving b st) (preserving b st)
              = on_state (preserving b) (k st st)) ->
  commutes b (bind this k).
Proof. intros H st. unfold bind, this. apply H. Qed.

Lemma comm_loop_body (c : copy)
    (child : string -> hash -> M hash) (next : hash -> M (hash * bool))
    (top : bool) (name : option string) (branch : hash) :
  (forall n leaf, commutes b (child n leaf)) ->
  (forall branch', commutes b (next branch')) ->
  commutes b (XML.loop_body c child next top name branch).
Proof.
  intros Hchild Hnext. unfold XML.loop_body. apply comm_this. intros st.
  cbn [text lastIndex opts preserving set_preserveDocumentNode lowerCase].
  destruct (patTag_exec (text st) (lastIndex st)) as [[[before tag] index]|].
  2:{ reflexivity. }
  revert st.
  match goal with
  | |- forall st, ?m (preserving b st) = _ =>
      cut (forall st0 : parser, commutes b (fun s =>
             (set_lastIndex index ;;;
              branch0 <- (if patNonSpace before then XML.add_data before branch
                          else ret branch) ;;
              if patSpecialTag tag then
                if patPITag tag then XML.parsePINode tag ;;; next branch0
                else if patCommentTag tag then
                  XML.parseCommentNode tag ;;; next branch0
                else if patDTDTag tag then XML.parseDTDNode tag ;;; next branch0
                else if patCDATATag tag then
                  payload <- XML.parseCDATANode tag ;;
                  branch1 <- XML.add_data payload branch0 ;;
                  next branch1
                else XML.throwParseError "Malformed special tag" tag
              else
                match patStandardTag tag with
                | None => XML.throwParseError "Malformed tag" tag
                | Some (closing, matches2, attribsRaw) =>
                    let nodeName :=
                      if lowerCase (opts st0) then toLowerCase matches2
                      else matches2 in
                    if closing then
                      if String.eqb nodeName (XML.name_or_empty name)
                      then ret (branch0, true)
                      else XML.throwParseError
                             ("Mismatched closing tag (expected </"
                              ++ XML.name_text name ++ ">)") tag
                    else
                      let selfClosing := patSelfClosing attribsRaw in
                      leaf <- XML.new_leaf attribsRaw ;;
                      leaf <- (if negb selfClosing then child nodeName leaf
                               else ret leaf) ;;
                      st1 <- this ;;
                      if negb selfClosing && negb (XML.error st1 =? 0)%nat
                      then ret (branch0, false)
                      else
                        leaf <- XML.compress c leaf ;;
                        branch1 <- XML.attach top nodeName leaf branch0 ;;
                        st2 <- this ;;
                        if negb (XML.error st2 =? 0)%nat || top
                        then ret (branch1, false)
                        else next branch1
                end) s))
  end.
  { intros C st. exact (C st st). }
  intros st0.
  apply comm_bind; [apply comm_set_lastIndex|]. intros _.
  apply comm_bind.
  { destruct (patNonSpace before); [apply comm_add_data|apply comm_ret]. }
  intros branch0.
  destruct (patSpecialTag tag).
  - destruct (patPITag tag).
    { apply comm_bind; [apply comm_parsePINode|]. intros _. apply Hnext. }
    destruct (patCommentTag tag).
    { apply comm_bind; [apply comm_parseCommentNode|]. intros _. apply Hnext. }
    destruct (patDTDTag tag).
    { apply comm_bind; [apply comm_parseDTDNode|]. intros _. apply Hnext. }
    destruct (patCDATATag tag); [|apply comm_throw].
    apply comm_bind; [apply comm_parseCDATANode|]. intros payload.
    apply comm_bind; [apply comm_add_data|]. intros branch1. apply Hnext.
  - destruct (patStandardTag tag) as [[[closing matches2] attribsRaw]|];
      [|apply comm_throw].
    cbn zeta. destruct closing.
    { destruct (String.eqb _ _); [apply comm_ret|apply comm_throw]. }
    apply comm_bind; [apply comm_new_leaf|]. intros leaf.
    apply comm_bind.
    { destruct (negb (patSelfClosing attribsRaw)); [apply Hchild|apply comm_ret]. }
    intros leaf'. apply comm_this. intros st1.
    change (XML.error (preserving b st1)) with (XML.error st1).
    destruct (negb (patSelfClosing attribsRaw) && negb (XML.error st1 =? 0)%nat).
    { reflexivity. }
    revert st1.
    match goal with
    | |- forall st1, ?m (preserving b st1) = on_state _ (?m st1) =>
        intros st1; revert st1; change (commutes b m)
    end.
    apply comm_bind; [apply comm_compress|]. intros v.
    apply comm_bind; [apply comm_attach|]. intros branch1.
    apply comm_this. intros st2.
    change (XML.error (preserving b st2)) with (XML.error st2).
    destruct (negb (XML.error st2 =? 0)%nat || top); [reflexivity|].
    apply Hnext.
Qed.

Lemma comm_parse_loop (c : copy) (fuel : nat) :
  forall top name branch, commutes b (XML.parse_loop c fuel top name branch).
Proof.
  induction fuel as [|fuel IH]; intros top name branch; [intros st; reflexivity|].
  cbn [XML.parse_loop]. apply comm_loop_body.
  - intros n leaf. apply comm_bind; [apply IH|].
    intros r. apply comm_parse_finish_child.
  - intros branch'. apply IH.
Qed.

End Preserving.

Lemma fresh_preserving (b : bool) (txt : string) (o : options) :
  fresh txt (set_preserveDocumentNode b o) = preserving b (fresh txt o).
Proof. unfold fresh, preserving, constructed. cbn. now destruct (lowerCase o). Qed.

(** X20.  [preserveDocumentNode] changes nothing but the tree that the
    entry point returns: for every text and all other options the run
    with the option ends as the run without it, with the same message
    when it throws and with the same document name and lists when it
    returns; the tree is then the hash with the one entry of the
    document node, whose value is the tree of the run without the
    option.  Without a document node the two trees are the same. *)
Theorem document_node_is_kept (c : copy) (txt : string) (o : options) :
  match parse c txt (set_preserveDocumentNode false o),
        parse c txt (set_preserveDocumentNode true o) with
  | Done v1 st1, Done v2 st2 =>
      piNodeList st1 = piNodeList st2 /\ dtdNodeList st1 = dtdNodeList st2
      /\ documentNodeName st1 = documentNodeName st2
      /\ match documentNodeName st1 with
         | Some "" | None => v2 = v1
         | Some k => v2 = Element [(k, v1)]
         end
  | Thrown m1 _, Thrown m2 _ => m1 = m2
  | Unmodelled, Unmodelled => True
  | _, _ => False
  end.
Proof.
  pose proof (parse_total c txt (set_preserveDocumentNode false o)) as [F1 P1].
  pose proof (parse_total c txt (set_preserveDocumentNode true o)) as [F2 P2].
  revert F1 P1 F2 P2. unfold parse. rewrite !create_fresh, !fresh_preserving.
  destruct (String.eqb txt ""); [intros _ _ _ _; cbn; auto|].
  unfold XML.parse. unfold bind.
  pose proof (comm_parse_loop false c (S (length txt)) true None []) as C1.
  pose proof (comm_parse_loop true c (S (length txt)) true None []) as C2.
  unfold commutes in C1, C2. rewrite C1, C2. clear C1 C2.
  destruct (XML.parse_loop c (S (length txt)) true None [] (fresh txt o))
    as [[branch found] st|msg st| |]; cbn [on_state];
    [|intros _ _ _ _; reflexivity|intros _ _ _ _; exact I|congruence].
  unfold XML.parse_finish, bind, this, ret, unmodelled.
  cbn [XML.name_or_empty String.eqb negb andb opts preserving
       set_preserveDocumentNode dataKey preserveDocumentNode].
  destruct (delete (dataKey (opts st)) branch) as [|[k v] [|e tree]].
  - cbn. intros _ E1 _ E2. unfold XML.error. cbn [errors]. rewrite E1. cbn.
    auto.
  - cbn [numKeys List.length Nat.ltb Nat.leb firstKey get].
    rewrite String.eqb_refl.
    destruct (String.eqb_spec k "") as [->|N]; cbn [negb andb].
    + cbn. intros _ E1 _ E2. unfold XML.error. cbn [errors]. rewrite E1. cbn.
      auto.
    + cbn. intros _ E1 _ E2. unfold XML.error. cbn [errors]. rewrite E1. cbn.
      repeat split. destruct k; [congruence|reflexivity].
  - cbn. intros _ _ _ _. reflexivity.
Qed.

(** ** Special tags that are never closed *)







Section Unclosed.

Variables (c : copy) (pdn pa pw fa : bool).

Local Abbreviation o := (plain_options pdn pa pw fa).



End Unclosed.


(** ** Children of one name *)








Section Coalesce.

Variables (c : copy) (pdn pa pw fa : bool).

Local Abbreviation o := (plain_options pdn pa pw fa).






End Coalesce.

